(** * occ: the logical source reader and the lexical analyzer

    A shallow embedding of [src/reader.c], [src/lexer.c] and [src/token.c]
    together with the properties of the reader's character delivery and of
    the lexer's token formation.

    Conventions
    - a C [int] character is a [Z]; [EOF] is [-1];
    - a [cstring_t] is the list of its logical bytes (the trailing zero is
      not part of it); a nullable [cstring_t] is an [option];
    - a pointer into the text of a stream is an offset into that text;
    - [size_t] counters (line, column) are [nat]: they are bounded by the
      length of the text plus one, which itself fits a [size_t];
    - [assert] failures and loops are explicit: a lexer computation returns
      [Ok], [Crash] (a failed assertion or a null dereference) or
      [Exhausted] (the loop bound given to the model was reached). *)

From Stdlib Require Import ZArith String Ascii Bool Lia List.
From Stdlib.Strings Require Import Byte.
Import ListNotations.
Local Open Scope Z_scope.

(** ** Characters *)

Definition EOF : Z := -1.

Definition chr (a : ascii) : Z := Z.of_N (N_of_ascii a).

Definition NUL : Z := 0.
Definition LF : Z := 10.          (* line feed, the newline *)
Definition CR : Z := 13.          (* carriage return *)
Definition BACKSLASH : Z := 92.
Definition QUOTE : Z := 39.       (* single quote *)
Definition DQUOTE : Z := 34.      (* double quote *)

Definition Z_of_byte (b : byte) : Z := Z.of_N (Byte.to_N b).

(** Conversion of an [int] to [unsigned char]. *)
Definition byte_of_Z (z : Z) : byte :=
  match Byte.of_N (Z.to_N (z mod 256)) with
  | Some b => b
  | None => x00
  end.

(** ** cstring.h *)

Definition cstring := list byte.

Definition cstring_length (cs : cstring) : nat := length cs.

(** [cstring_concat_ch] / [cstring_push_ch]: append one [unsigned char]. *)
Definition cstring_push_ch (cs : cstring) (ch : Z) : cstring :=
  cs ++ [byte_of_Z ch].

(** [cstring_pop_ch]: remove and return the last byte, [EOF] when empty. *)
Definition cstring_pop_ch (cs : cstring) : Z * cstring :=
  if (0 <? cstring_length cs)%nat
  then (Z_of_byte (last cs x00), removelast cs)
  else (EOF, cs).

Definition cstring_clear (cs : cstring) : cstring := [].

(** Modelled from the spec: [cstring.c] is not part of the sources.
    [cstring_new_n(NULL, n)] creates an empty buffer with [n] bytes of
    headroom; the headroom is not observable here. *)
Definition cstring_new_n_empty (n : nat) : cstring := [].

(** ** Diagnostics and options *)

Inductive severity := Warning | Error.

(** Modelled from the spec: the diagnostic sink ([diag.h], [diagnostor.h])
    is not part of the sources.  It formats and emits and never aborts; an
    emitted diagnostic is recorded with its severity, its message (the
    format string and its arguments) and the line and column it is bound
    to. *)
Record diagnostic := mkDiag {
  d_sev : severity;
  d_msg : string;
  d_args : list Z;
  d_line : nat;
  d_column : nat
}.

(** Modelled from the spec: [option.h] is not part of the sources; the two
    options the reader consults. *)
Record option_s := mkOption {
  w_backslash_newline_space : bool;
  warn_no_newline_eof : bool
}.

(** Modelled from the spec: [utils.h] is not part of the sources.  The
    character classification macros the reader and the lexer use are taken
    as parameters; [ctype] below gives them their <ctype.h> meaning. *)
Record utils := mkUtils {
  ISSPACE : Z -> bool;
  ISDIGIT : Z -> bool;
  ISALPHA : Z -> bool;
  ISIDNUM : Z -> bool;
  ISHEX : Z -> bool;
  ISOCT : Z -> bool;
  TODIGIT : Z -> Z
}.

Definition in_range (lo hi c : Z) : bool := (lo <=? c) && (c <=? hi).

(** Modelled from the spec: the classifications of <ctype.h> in the C
    locale, which the macros of the missing [utils.h] are read as. *)
Definition ctype_isdigit (c : Z) : bool := in_range (chr "0") (chr "9") c.
Definition ctype_isalpha (c : Z) : bool :=
  in_range (chr "a") (chr "z") c || in_range (chr "A") (chr "Z") c.
Definition ctype_isspace (c : Z) : bool :=
  (c =? chr " ") || in_range 9 13 c.
Definition ctype_isxdigit (c : Z) : bool :=
  ctype_isdigit c || in_range (chr "a") (chr "f") c
  || in_range (chr "A") (chr "F") c.
Definition ctype_todigit (c : Z) : Z :=
  if ctype_isdigit c then c - chr "0"
  else if in_range (chr "a") (chr "f") c then c - chr "a" + 10
  else if in_range (chr "A") (chr "F") c then c - chr "A" + 10
  else c.

(** Modelled from the spec: the macros of the missing [utils.h] with the
    meaning the spec's words give them: white space, digit, alphabetic,
    alphanumeric or underscore for [ISIDNUM] (the identifier loop adds
    the dollar sign and the bytes 0x80..0xFD itself), hexadecimal and octal
    digit. *)
Definition ctype : utils := {|
  ISSPACE := ctype_isspace;
  ISDIGIT := ctype_isdigit;
  ISALPHA := ctype_isalpha;
  ISIDNUM := fun c => ctype_isalpha c || ctype_isdigit c || (c =? chr "_");
  ISHEX := ctype_isxdigit;
  ISOCT := in_range (chr "0") (chr "7");
  TODIGIT := ctype_todigit
|}.

(** ** reader.c: streams *)

Record stream_s := mkStream {
  fn : string;
  stashed : option cstring;
  line_note : nat;
  text : list byte;
  pc : nat;
  line : nat;
  column : nat;
  lastch : Z
}.

(** [stream->pe]: one past the last byte of the text. *)
Definition pe (s : stream_s) : nat := length (text s).

(** [*p] for a pointer [p] into the text; the text is a [cstring_t], so the
    byte at [pe] is the terminating zero. *)
Definition deref (s : stream_s) (p : nat) : Z :=
  match nth_error (text s) p with
  | Some b => Z_of_byte b
  | None => NUL
  end.

Definition set_pc (s : stream_s) (p : nat) : stream_s :=
  mkStream (fn s) (stashed s) (line_note s) (text s) p
           (line s) (column s) (lastch s).

Definition set_lastch (s : stream_s) (ch : Z) : stream_s :=
  mkStream (fn s) (stashed s) (line_note s) (text s) (pc s)
           (line s) (column s) ch.

Definition set_stashed (s : stream_s) (cs : option cstring) : stream_s :=
  mkStream (fn s) cs (line_note s) (text s) (pc s)
           (line s) (column s) (lastch s).

Definition incr_column (s : stream_s) : stream_s :=
  mkStream (fn s) (stashed s) (line_note s) (text s) (pc s)
           (line s) (S (column s)) (lastch s).

Definition STREAM_STEP_BY_LINE (s : stream_s) : stream_s :=
  mkStream (fn s) (stashed s) (pc s) (text s) (pc s)
           (S (line s)) 1%nat (lastch s).

(** [__stream_init__] for [STREAM_TYPE_STRING]; a file stream differs in
    its name and time stamps only. *)
Definition stream_init (name : string) (s : list byte) : stream_s :=
  mkStream name None 0%nat s 0%nat 1%nat 1%nat NUL.

Definition STREAM_STASHED_DEPTH : nat := 12.

Definition stream_push (s : stream_s) (ch : Z) : stream_s :=
  let cs := match stashed s with
            | None => cstring_new_n_empty STREAM_STASHED_DEPTH
            | Some cs => cs
            end in
  set_stashed s (Some (cstring_push_ch cs ch)).

Definition stream_pop (s : stream_s) : Z * stream_s :=
  match stashed s with
  | None => (EOF, s)
  | Some cs =>
      if (cstring_length cs <=? 0)%nat then (EOF, s)
      else let '(ch, cs') := cstring_pop_ch cs in (ch, set_stashed s (Some cs'))
  end.

Definition warningf_with_linenote_position (s : stream_s) (msg : string)
  : diagnostic :=
  mkDiag Warning msg [] (line s) (column s).

Section Reader.

Variable U : utils.
Variable opt : option_s.

(** The [while] loop of the backslash case of [__stream_next__], run on the
    scratch pointer [p] over the bytes [l] that remain from [p] to [pe].
    [inl] is the [goto nextch] exit with the stream as the splice left it
    and the warnings emitted; [inr] is the scratch pointer at which the
    loop stopped without a splice. *)
Fixpoint next_splice_loop (s : stream_s) (l : list byte) (p step : nat)
  : (stream_s * list diagnostic) + nat :=
  match l with
  | [] => inr p
  | b :: l' =>
      let c := Z_of_byte b in
      if ISSPACE U c then
        if (c =? CR) || (c =? LF) then
          let '(p, step) :=
            if (c =? CR) && (deref s (p + 1) =? LF)
            then ((p + 1)%nat, (step + 1)%nat) else (p, step) in
          let w :=
            if (pc s + step <? p)%nat && w_backslash_newline_space opt
            then [warningf_with_linenote_position s
                    "backslash and newline separated by space"]
            else [] in
          inl (STREAM_STEP_BY_LINE (set_pc s (p + 1)), w)
        else next_splice_loop s l' (p + 1) step
      else inr p
  end.

(** [__stream_next__] from the label [nextch] to the label [done]: the
    character, the stream and the warnings.  [fuel] bounds the number of
    [goto nextch]; every splice advances the cursor, so [S (pe - pc)] is
    enough (see [nextch_fuel]). *)
Fixpoint nextch (fuel : nat) (s : stream_s) : Z * stream_s * list diagnostic :=
  if (pe s <=? pc s)%nat then
    (if (lastch s =? LF) || (lastch s =? EOF) then EOF else LF, s, [])
  else
    let ch := deref s (pc s) in
    let s := set_pc s (pc s + 1) in
    if ch =? CR then
      let s := if deref s (pc s) =? LF then set_pc s (pc s + 1) else s in
      (LF, STREAM_STEP_BY_LINE s, [])
    else if ch =? LF then
      (ch, STREAM_STEP_BY_LINE s, [])
    else if ch =? BACKSLASH then
      match next_splice_loop s (skipn (pc s) (text s)) (pc s) 0 with
      | inl (s', w) =>
          match fuel with
          | O => (EOF, s', w)
          | S fuel' =>
              let '(ch', s'', w') := nextch fuel' s' in (ch', s'', w ++ w')
          end
      | inr p =>
          if (p =? pe s)%nat then
            (LF, set_pc s p,
             if warn_no_newline_eof opt
             then [warningf_with_linenote_position s
                     "backslash-newline at end of file"]
             else [])
          else (ch, s, [])
      end
    else (ch, incr_column s, []).

Definition stream_next (s : stream_s) : Z * stream_s * list diagnostic :=
  let '(ch, s1) := stream_pop s in
  let '(ch, s2, w) :=
    if negb (ch =? EOF) then (ch, s1, [])
    else nextch (S (pe s1 - pc s1)) s1 in
  (ch, set_lastch s2 ch, w).

(** The [while] loop of the backslash case of [__stream_peek__]: [inl] is
    the scratch pointer to restart from, [inr] the one the loop stopped
    at. *)
Fixpoint peek_splice_loop (s : stream_s) (l : list byte) (p : nat)
  : nat + nat :=
  match l with
  | [] => inr p
  | b :: l' =>
      let c := Z_of_byte b in
      if ISSPACE U c then
        if (c =? CR) || (c =? LF) then
          let p := if (c =? CR) && (deref s (p + 1) =? LF)
                   then (p + 1)%nat else p in
          inl (p + 1)%nat
        else peek_splice_loop s l' (p + 1)
      else inr p
  end.

(** [__stream_peek__] from the label [nextch] on, with its scratch
    pointer [p]. *)
Fixpoint peekch (fuel : nat) (s : stream_s) (p : nat) : Z :=
  if (pe s <=? p)%nat then
    if (lastch s =? LF) || (lastch s =? EOF) then EOF else LF
  else
    let ch := deref s p in
    let p := (p + 1)%nat in
    if (ch =? CR) || (ch =? LF) then LF
    else if ch =? BACKSLASH then
      match peek_splice_loop s (skipn p (text s)) p with
      | inl p' =>
          match fuel with
          | O => EOF
          | S fuel' => peekch fuel' s p'
          end
      | inr p' => if (p' =? pe s)%nat then LF else ch
      end
    else ch.

(** [__stream_peek__]: the character and the stream it was called on, which
    it does not write to. *)
Definition stream_peek (s : stream_s) : Z * stream_s :=
  match stashed s with
  | Some cs =>
      if (0 <? cstring_length cs)%nat
      then (Z_of_byte (nth (cstring_length cs - 1) cs x00), s)
      else (peekch (S (pe s - pc s)) s (pc s), s)
  | None => (peekch (S (pe s - pc s)) s (pc s), s)
  end.

End Reader.

(** ** reader.c: the reader, a stack of streams

    [streams] lists the stack with the most recently pushed stream first;
    [reader->last] is its head, [NULL] when the list is empty. *)

Record reader_s := mkReader { streams : list stream_s }.

Definition reader_create : reader_s := mkReader [].

Definition reader_is_empty (r : reader_s) : bool :=
  (length (streams r) =? 0)%nat.

(** [reader_push] of an in-memory string. *)
Definition reader_push (r : reader_s) (s : list byte) : reader_s :=
  mkReader (stream_init "<string>" s :: streams r).

Definition reader_pop (r : reader_s) : option reader_s :=
  match streams r with
  | [] => None
  | _ :: rest => Some (mkReader rest)
  end.

Section ReaderOps.

Variable U : utils.
Variable opt : option_s.

Definition reader_get (r : reader_s) : Z * reader_s * list diagnostic :=
  match streams r with
  | s :: rest =>
      let '(ch, s', w) := stream_next U opt s in (ch, mkReader (s' :: rest), w)
  | [] => (EOF, r, [])
  end.

Definition reader_peek (r : reader_s) : Z * reader_s :=
  match streams r with
  | s :: rest =>
      let '(ch, s') := stream_peek U s in (ch, mkReader (s' :: rest))
  | [] => (EOF, r)
  end.

(** [reader_unget]: [None] is the failed assertion, or the null stream. *)
Definition reader_unget (r : reader_s) (ch : Z) : option reader_s :=
  if negb (ch =? EOF) && negb (ch =? NUL) then
    match streams r with
    | s :: rest => Some (mkReader (stream_push s ch :: rest))
    | [] => None
    end
  else None.

Definition reader_try (r : reader_s) (ch : Z)
  : bool * reader_s * list diagnostic :=
  let '(c, r1) := reader_peek r in
  if c =? ch then
    let '(_, r2, w) := reader_get r1 in (true, r2, w)
  else (false, r1, []).

Definition reader_test (r : reader_s) (ch : Z) : bool * reader_s :=
  let '(c, r1) := reader_peek r in (c =? ch, r1).

(** The positional accessors assert [reader->last != NULL]. *)
Definition reader_line (r : reader_s) : option nat :=
  option_map line (hd_error (streams r)).

Definition reader_column (r : reader_s) : option nat :=
  option_map column (hd_error (streams r)).

Definition reader_linenote (r : reader_s) : option nat :=
  option_map line_note (hd_error (streams r)).

Definition reader_filename (r : reader_s) : option string :=
  option_map fn (hd_error (streams r)).

End ReaderOps.

(** ** token.c *)

(** The kinds of token, as [token_dictionary] and [lexer.c] name them. *)
Inductive token_type_t :=
| TOKEN_UNKNOWN
| TOKEN_L_SQUARE | TOKEN_R_SQUARE | TOKEN_L_PAREN | TOKEN_R_PAREN
| TOKEN_L_BRACE | TOKEN_R_BRACE | TOKEN_PERIOD | TOKEN_ELLIPSIS
| TOKEN_AMP | TOKEN_AMPAMP | TOKEN_AMPEQUAL | TOKEN_STAR | TOKEN_STAREQUAL
| TOKEN_PLUS | TOKEN_PLUSPLUS | TOKEN_PLUSEQUAL
| TOKEN_MINUS | TOKEN_MINUSMINUS | TOKEN_MINUSEQUAL | TOKEN_ARROW
| TOKEN_TILDE | TOKEN_EXCLAIM | TOKEN_EXCLAIMEQUAL
| TOKEN_SLASH | TOKEN_SLASHEQUAL | TOKEN_PERCENT | TOKEN_PERCENTEQUAL
| TOKEN_LESS | TOKEN_LESSLESS | TOKEN_LESSLESSEQUAL | TOKEN_LESSEQUAL
| TOKEN_GREATER | TOKEN_GREATERGREATER | TOKEN_GREATEREQUAL
| TOKEN_GREATERGREATEREQUAL
| TOKEN_CARET | TOKEN_CARETEQUAL | TOKEN_PIPE | TOKEN_PIPEPIPE
| TOKEN_PIPEEQUAL | TOKEN_QUESTION | TOKEN_COLON | TOKEN_SEMI
| TOKEN_EQUAL | TOKEN_EQUALEQUAL | TOKEN_COMMA | TOKEN_HASH | TOKEN_HASHHASH
| TOKEN_BACKSLASH | TOKEN_NEW_LINE | TOKEN_SPACE | TOKEN_COMMENT
| TOKEN_END | TOKEN_IDENTIFIER | TOKEN_NUMBER
| TOKEN_CONSTANT_CHAR | TOKEN_CONSTANT_WCHAR | TOKEN_CONSTANT_CHAR16
| TOKEN_CONSTANT_CHAR32 | TOKEN_CONSTANT_UTF8CHAR
| TOKEN_CONSTANT_STRING | TOKEN_CONSTANT_WSTRING | TOKEN_CONSTANT_STRING16
| TOKEN_CONSTANT_STRING32 | TOKEN_CONSTANT_UTF8STRING.

Scheme Equality for token_type_t.

Record token_dictionary_s := mkEntry {
  entry_type : token_type_t;
  type2str : string;
  original : string
}.

(** The backslash and the newline entries spell a backslash, and a
    backslash followed by the letter n. *)
Definition token_dictionary : list token_dictionary_s := [
  mkEntry TOKEN_L_SQUARE "TOKEN_L_SQUARE" "[";
  mkEntry TOKEN_R_SQUARE "TOKEN_R_SQUARE" "]";
  mkEntry TOKEN_L_PAREN "TOKEN_L_PAREN" ")";
  mkEntry TOKEN_R_PAREN "TOKEN_R_PAREN" "(";
  mkEntry TOKEN_L_BRACE "TOKEN_L_BRACE" "{";
  mkEntry TOKEN_R_BRACE "TOKEN_R_BRACE" "}";
  mkEntry TOKEN_PERIOD "TOKEN_PERIOD" ".";
  mkEntry TOKEN_ELLIPSIS "TOKEN_ELLIPSIS" "...";
  mkEntry TOKEN_AMP "TOKEN_AMP" "&";
  mkEntry TOKEN_AMPAMP "TOKEN_AMPAMP" "&&";
  mkEntry TOKEN_AMPEQUAL "TOKEN_AMPEQUAL" "&=";
  mkEntry TOKEN_STAR "TOKEN_STAR" "*";
  mkEntry TOKEN_STAREQUAL "TOKEN_STAREQUAL" "*=";
  mkEntry TOKEN_PLUS "TOKEN_PLUS" "+";
  mkEntry TOKEN_PLUSPLUS "TOKEN_PLUSPLUS" "++";
  mkEntry TOKEN_PLUSEQUAL "TOKEN_PLUSEQUAL" "+=";
  mkEntry TOKEN_MINUS "TOKEN_MINUS" "-";
  mkEntry TOKEN_MINUSMINUS "TOKEN_MINUSMINUS" "--";
  mkEntry TOKEN_MINUSEQUAL "TOKEN_MINUSEQUAL" "-=";
  mkEntry TOKEN_ARROW "TOKEN_ARROW" "->";
  mkEntry TOKEN_TILDE "TOKEN_TILDE" "~";
  mkEntry TOKEN_EXCLAIM "TOKEN_EXCLAIM" "!";
  mkEntry TOKEN_EXCLAIMEQUAL "TOKEN_EXCLAIMEQUAL" "!=";
  mkEntry TOKEN_SLASH "TOKEN_SLASH" "/";
  mkEntry TOKEN_SLASHEQUAL "TOKEN_SLASHEQUAL" "/=";
  mkEntry TOKEN_PERCENT "TOKEN_PERCENT" "%";
  mkEntry TOKEN_PERCENTEQUAL "TOKEN_PERCENTEQUAL" "%=";
  mkEntry TOKEN_LESS "TOKEN_LESS" "<";
  mkEntry TOKEN_LESSLESS "TOKEN_LESSLESS" "<<";
  mkEntry TOKEN_LESSLESSEQUAL "TOKEN_LESSLESSEQUAL" "<<=";
  mkEntry TOKEN_LESSEQUAL "TOKEN_LESSEQUAL" "<=";
  mkEntry TOKEN_GREATER "TOKEN_GREATER" ">";
  mkEntry TOKEN_GREATERGREATER "TOKEN_GREATERGREATER" ">>";
  mkEntry TOKEN_GREATEREQUAL "TOKEN_GREATEREQUAL" ">=";
  mkEntry TOKEN_GREATERGREATEREQUAL "TOKEN_GREATERGREATEREQUAL" ">>=";
  mkEntry TOKEN_CARET "TOKEN_CARET" "^";
  mkEntry TOKEN_CARETEQUAL "TOKEN_CARETEQUAL" "^=";
  mkEntry TOKEN_PIPE "TOKEN_PIPE" "|";
  mkEntry TOKEN_PIPEPIPE "TOKEN_PIPEPIPE" "||";
  mkEntry TOKEN_PIPEEQUAL "TOKEN_PIPEEQUAL" "|=";
  mkEntry TOKEN_QUESTION "TOKEN_QUESTION" "?";
  mkEntry TOKEN_COLON "TOKEN_COLON" ":";
  mkEntry TOKEN_SEMI "TOKEN_SEMI" ";";
  mkEntry TOKEN_EQUAL "TOKEN_EQUAL" "=";
  mkEntry TOKEN_EQUALEQUAL "TOKEN_EQUALEQUAL" "==";
  mkEntry TOKEN_COMMA "TOKEN_COMMA" ",";
  mkEntry TOKEN_HASH "TOKEN_HASH" "#";
  mkEntry TOKEN_HASHHASH "TOKEN_HASHHASH" "##";
  mkEntry TOKEN_BACKSLASH "TOKEN_BACKSLASH" (String (ascii_of_nat 92) EmptyString);
  mkEntry TOKEN_NEW_LINE "TOKEN_NEW_LINE" (String (ascii_of_nat 92) "n");
  mkEntry TOKEN_SPACE "TOKEN_SPACE" "spaces";
  mkEntry TOKEN_COMMENT "TOKEN_COMMENT" "comment"
].

(** Modelled from the spec: [token.h] is not part of the sources.  A
    location has the source name, line, column and line start that
    [source_location_create] and [source_location_dup] of [token.c]
    handle. *)
Record source_location_s := mkLoc {
  loc_fn : option string;
  loc_line : nat;
  loc_column : nat;
  loc_row : option nat
}.

(** Modelled from the spec: the token structure of the missing [token.h],
    with the fields [token.c] initialises and copies.  [lexer.c] names the
    literal [cs] and the leading space count [spaces]. *)
Record token_s := mkToken {
  type : token_type_t;
  literals : option cstring;
  loc : source_location_s;
  begin_of_line : bool;
  leading_space : nat;
  hideset : option nat
}.

Definition source_location_create : source_location_s :=
  mkLoc None 0%nat 0%nat None.

(** [token_create]: the literal is created empty, with a headroom of
    [DEFUALT_LITERALS_LENGTH] bytes that [headroom] stands for.  The
    function writes the kind, the literal, the location and the hide set
    only: [begin_of_line] and [leading_space] keep what the memory that
    [pmalloc] returned held, [bol] and [spaces] here. *)
Definition token_create_n (headroom : nat) (bol : bool) (spaces : nat)
  : token_s :=
  mkToken TOKEN_UNKNOWN (Some (cstring_new_n_empty headroom))
          source_location_create bol spaces None.

Definition token_create (bol : bool) (spaces : nat) : token_s :=
  token_create_n 0 bol spaces.

(** [token_init]: [None] when [cstring_clear] is given a null literal. *)
Definition token_init (tok : token_s) : option token_s :=
  match literals tok with
  | Some cs =>
      Some (mkToken TOKEN_UNKNOWN (Some (cstring_clear cs))
                    (mkLoc None 0%nat 0%nat None)
                    (begin_of_line tok) (leading_space tok) (hideset tok))
  | None => None
  end.

Definition token_dup (tok : token_s) : token_s :=
  let cs := match literals tok with
            | Some l => if negb (cstring_length l =? 0)%nat then Some l else None
            | None => None
            end in
  mkToken (type tok) cs (loc tok) (begin_of_line tok) (leading_space tok)
          (hideset tok).

Fixpoint dictionary_search (d : list token_dictionary_s) (t : token_type_t)
  : option token_dictionary_s :=
  match d with
  | [] => None
  | e :: d' =>
      if token_type_t_beq (entry_type e) t then Some e
      else dictionary_search d' t
  end.

Definition token_type2str (tok : token_s) : option string :=
  option_map type2str (dictionary_search token_dictionary (type tok)).

(** Modelled from the spec: the accessor of the [original] column of
    [token_dictionary] is not part of the sources; it is the search of
    [token_type2str] returning the third column of the table, which is in
    the sources. *)
Definition token_original (t : token_type_t) : option string :=
  option_map original (dictionary_search token_dictionary t).

(** Modelled from the spec: [token_mark_loc] sets the four fields of the
    location at once, [token_remark_loc] updates line, column and line
    start and keeps the source name. *)
Definition token_mark_loc (tok : token_s) (l c : nat) (row : nat)
  (name : string) : token_s :=
  mkToken (type tok) (literals tok) (mkLoc (Some name) l c (Some row))
          (begin_of_line tok) (leading_space tok) (hideset tok).

(** Modelled from the spec: [token_remark_loc], see [token_mark_loc]. *)
Definition token_remark_loc (tok : token_s) (l c : nat) (row : nat)
  : token_s :=
  mkToken (type tok) (literals tok)
          (mkLoc (loc_fn (loc tok)) l c (Some row))
          (begin_of_line tok) (leading_space tok) (hideset tok).

Definition set_type (tok : token_s) (t : token_type_t) : token_s :=
  mkToken t (literals tok) (loc tok) (begin_of_line tok) (leading_space tok)
          (hideset tok).

Definition set_literals (tok : token_s) (cs : option cstring) : token_s :=
  mkToken (type tok) cs (loc tok) (begin_of_line tok) (leading_space tok)
          (hideset tok).

Definition set_leading_space (tok : token_s) (n : nat) : token_s :=
  mkToken (type tok) (literals tok) (loc tok) (begin_of_line tok) n
          (hideset tok).

Definition set_begin_of_line (tok : token_s) (b : bool) : token_s :=
  mkToken (type tok) (literals tok) (loc tok) b (leading_space tok)
          (hideset tok).

(** The bytes of a token's literal; a null literal carries none. *)
Definition literal_bytes (tok : token_s) : list byte :=
  match literals tok with
  | Some cs => cs
  | None => []
  end.

(** ** encoding.c *)

(** The encoding prefixes, as [lexer.c] names them. *)
Inductive encoding_type_t :=
| ENCODING_NONE | ENCODING_CHAR16 | ENCODING_CHAR32 | ENCODING_UTF8
| ENCODING_WCHAR.

Definition write8 (cs : cstring) (u : Z) : cstring := cs ++ [byte_of_Z u].

(** [cstring_append_utf8]; [rune] is a [uint32_t]. *)
Definition cstring_append_utf8 (cs : cstring) (rune : Z) : option cstring :=
  if rune <? 128 then Some (write8 cs rune)
  else if rune <? 2048 then
    let cs := write8 cs (Z.lor 192 (Z.shiftr rune 6)) in
    Some (write8 cs (Z.lor 128 (Z.land rune 63)))
  else if rune <? 65536 then
    let cs := write8 cs (Z.lor 224 (Z.shiftr rune 12)) in
    let cs := write8 cs (Z.lor 128 (Z.land (Z.shiftr rune 6) 63)) in
    Some (write8 cs (Z.lor 128 (Z.land rune 63)))
  else if rune <? 2097152 then
    let cs := write8 cs (Z.lor 240 (Z.shiftr rune 18)) in
    let cs := write8 cs (Z.lor 128 (Z.land (Z.shiftr rune 12) 63)) in
    let cs := write8 cs (Z.lor 128 (Z.land (Z.shiftr rune 6) 63)) in
    Some (write8 cs (Z.lor 128 (Z.land rune 63)))
  else None.

(** Conversions between [int], [unsigned int] and [uint32_t]. *)
Definition to_uint32 (z : Z) : Z := z mod 4294967296.
Definition to_int32 (z : Z) : Z := (z + 2147483648) mod 4294967296 - 2147483648.

(** ** lexer.c *)

(** Modelled from the spec: [lexer.h] is not part of the sources.  The
    lexer has the fields [lexer_create] sets, but for the option reference,
    which is the parameter [opt] below, and the time snapshot; [diag] is
    the list of the diagnostics emitted so far, oldest first. *)
Record lexer_s := mkLexer {
  reader : reader_s;
  tok : token_s;
  snapshots : list (list token_s);
  diag : list diagnostic
}.

(** The outcome of a lexer computation: a value and the lexer after it;
    [Crash], the run has no defined result: an assertion fails, a null
    pointer is dereferenced or memory is read that was never written; or
    the loop bound reached. *)
Inductive result (A : Type) :=
| Ok (a : A) (l : lexer_s)
| Crash
| Exhausted.

Arguments Ok {A} a l.
Arguments Crash {A}.
Arguments Exhausted {A}.

Definition M (A : Type) : Type := lexer_s -> result A.

Definition ret {A : Type} (a : A) : M A := fun l => Ok a l.

Definition bind {A B : Type} (m : M A) (k : A -> M B) : M B :=
  fun l => match m l with
           | Ok a l' => k a l'
           | Crash => Crash
           | Exhausted => Exhausted
           end.

Definition crash {A : Type} : M A := fun _ => Crash.
Definition exhausted {A : Type} : M A := fun _ => Exhausted.

Declare Scope lexer_scope.
Delimit Scope lexer_scope with lexer.
Notation "x <- m ;; k" := (bind m (fun x => k))
  (at level 61, m at next level, right associativity) : lexer_scope.
Notation "m ;; k" := (bind m (fun _ => k))
  (at level 61, right associativity) : lexer_scope.
Local Open Scope lexer_scope.

Definition set_reader (l : lexer_s) (r : reader_s) : lexer_s :=
  mkLexer r (tok l) (snapshots l) (diag l).

Definition set_tok (l : lexer_s) (t : token_s) : lexer_s :=
  mkLexer (reader l) t (snapshots l) (diag l).

Definition set_snapshots (l : lexer_s) (ss : list (list token_s)) : lexer_s :=
  mkLexer (reader l) (tok l) ss (diag l).

Definition emit (l : lexer_s) (w : list diagnostic) : lexer_s :=
  mkLexer (reader l) (tok l) (snapshots l) (diag l ++ w).

(** [lexer_create]: one empty stash and the token [token_create] returns,
    whose two fields left unwritten hold [bol] and [spaces]. *)
Definition lexer_create (r : reader_s) (bol : bool) (spaces : nat)
  : lexer_s :=
  mkLexer r (token_create bol spaces) [[]] [].

Section Lexer.

Variable U : utils.
Variable opt : option_s.

(** The reader calls of the lexer, on [lexer->reader]. *)
Definition rd_get : M Z := fun l =>
  let '(ch, r, w) := reader_get U opt (reader l) in
  Ok ch (emit (set_reader l r) w).

Definition rd_peek : M Z := fun l =>
  let '(ch, r) := reader_peek U (reader l) in Ok ch (set_reader l r).

Definition rd_unget (ch : Z) : M unit := fun l =>
  match reader_unget (reader l) ch with
  | Some r => Ok tt (set_reader l r)
  | None => Crash
  end.

Definition rd_try (ch : Z) : M bool := fun l =>
  let '(b, r, w) := reader_try U opt (reader l) ch in
  Ok b (emit (set_reader l r) w).

Definition rd_test (ch : Z) : M bool := fun l =>
  let '(b, r) := reader_test U (reader l) ch in Ok b (set_reader l r).

Definition rd_is_empty : M bool := fun l => Ok (reader_is_empty (reader l)) l.

(** [ERRORF] and [WARNINGF]: a diagnostic bound to [lexer->tok]. *)
Definition diag_with_tok (sev : severity) (msg : string) (args : list Z)
  : M unit := fun l =>
  Ok tt (emit l [mkDiag sev msg args (loc_line (loc (tok l)))
                        (loc_column (loc (tok l)))]).

Definition ERRORF := diag_with_tok Error.
Definition WARNINGF := diag_with_tok Warning.

Definition lexer_mark_loc : M unit := fun l =>
  match reader_line (reader l), reader_column (reader l),
        reader_linenote (reader l), reader_filename (reader l) with
  | Some ln, Some col, Some row, Some name =>
      Ok tt (set_tok l (token_mark_loc (tok l) ln col row name))
  | _, _, _, _ => Crash
  end.

Definition lexer_remark_loc : M unit := fun l =>
  match reader_line (reader l), reader_column (reader l),
        reader_linenote (reader l) with
  | Some ln, Some col, Some row =>
      Ok tt (set_tok l (token_remark_loc (tok l) ln col row))
  | _, _, _ => Crash
  end.

Definition lexer_make_token (t : token_type_t) : M (option token_s) :=
  fun l =>
  let cur := set_type (tok l) t in
  let res := token_dup cur in
  match token_init cur with
  | Some cur' => Ok (Some res) (set_tok l cur')
  | None => Crash
  end.

(** [lexer->tok->cs = cstring_cat_ch(lexer->tok->cs, ch)]. *)
Definition cat_ch (ch : Z) : M unit := fun l =>
  match literals (tok l) with
  | Some cs => Ok tt (set_tok l (set_literals (tok l)
                                   (Some (cstring_push_ch cs ch))))
  | None => Crash
  end.

(** [lexer->tok->cs = cstring_append_utf8(lexer->tok->cs, ch)]; the value
    is [false] when the result is [NULL]. *)
Definition append_utf8 (ch : Z) : M bool := fun l =>
  match literals (tok l) with
  | Some cs =>
      let r := cstring_append_utf8 cs (to_uint32 ch) in
      Ok (match r with Some _ => true | None => false end)
         (set_tok l (set_literals (tok l) r))
  | None => Crash
  end.

Definition is_chr (c : Z) (a : ascii) : bool := c =? chr a.

Definition lexer_is_unc (ch : Z) : M bool :=
  if ch =? BACKSLASH then
    b1 <- rd_test (chr "u");;
    b2 <- rd_test (chr "U");;
    ret (b1 || b2)
  else ret false.

Fixpoint skip_white_space_loop (n : nat) : M unit :=
  match n with
  | O => exhausted
  | S n' =>
      ch <- rd_peek;;
      e <- rd_is_empty;;
      if negb (ISSPACE U ch) || e || (ch =? LF) then ret tt
      else
        rd_get;;
        (fun l => Ok tt (set_tok l (set_leading_space (tok l)
                                      (S (leading_space (tok l))))));;
        skip_white_space_loop n'
  end.

Definition lexer_skip_white_space (n : nat) : M bool :=
  skip_white_space_loop n;;
  (fun l => Ok (0 <? leading_space (tok l))%nat l).

(** The two loops of [__lexer_skip_comment__]. *)
Fixpoint skip_line_comment_loop (n : nat) : M bool :=
  match n with
  | O => exhausted
  | S n' =>
      e <- rd_is_empty;;
      if e then ret false
      else
        ch <- rd_peek;;
        if ch =? LF then ret true
        else rd_get;; skip_line_comment_loop n'
  end.

Fixpoint skip_block_comment_loop (n : nat) : M bool :=
  match n with
  | O => exhausted
  | S n' =>
      e <- rd_is_empty;;
      if e then ret false
      else
        ch <- rd_get;;
        closed <- (if is_chr ch "*" then rd_try (chr "/") else ret false);;
        if closed then ret true else skip_block_comment_loop n'
  end.

(** [__lexer_skip_comment__]; leaving the [if] chain without a [return]
    runs into [assert(false)]. *)
Definition lexer_skip_comment (n : nat) : M unit :=
  b <- rd_try (chr "/");;
  if b then
    returned <- skip_line_comment_loop n;;
    if returned then ret tt else crash
  else
    b <- rd_try (chr "*");;
    if b then
      returned <- skip_block_comment_loop n;;
      if returned then ret tt else ERRORF "unknown identifier" []
    else crash.

Fixpoint parse_hex_escaped_loop (n : nat) (hex ch : Z) : M Z :=
  match n with
  | O => exhausted
  | S n' =>
      if ISHEX U ch then
        let hex := to_int32 (Z.shiftl hex 4 + TODIGIT U ch) in
        rd_get;;
        ch <- rd_peek;;
        parse_hex_escaped_loop n' hex ch
      else ret hex
  end.

Definition lexer_parse_hex_escaped (n : nat) : M Z :=
  ch <- rd_peek;;
  (if negb (ISHEX U ch)
   then ERRORF "\x used with no following hex digits" []
   else ret tt);;
  parse_hex_escaped_loop n 0 ch.

Definition lexer_parse_oct_escaped (ch : Z) : M Z :=
  let oct := TODIGIT U ch in
  ch <- rd_peek;;
  if negb (ISOCT U ch) then ret oct
  else
    let oct := to_int32 (Z.shiftl oct 3 + TODIGIT U ch) in
    rd_get;;
    ch <- rd_peek;;
    if negb (ISOCT U ch) then ret oct
    else
      let oct := to_int32 (Z.shiftl oct 3 + TODIGIT U ch) in
      rd_get;;
      ret oct.

(** The [for] loop of [__lexer_parse_unc__] with [len - i] rounds left. *)
Fixpoint parse_unc_loop (rounds : nat) (u : Z) : M Z :=
  match rounds with
  | O => ret u
  | S rounds' =>
      ch <- rd_get;;
      (if negb (ISHEX U ch) then ERRORF "invalid universal character" []
       else ret tt);;
      parse_unc_loop rounds' (to_uint32 (Z.shiftl u 4 + TODIGIT U ch))
  end.

Definition lexer_parse_unc (len : nat) : M Z :=
  if (len =? 4)%nat || (len =? 8)%nat then
    lexer_remark_loc;;
    u <- parse_unc_loop len 0;;
    ret (to_int32 u)
  else crash.

Definition lexer_parse_escaped (n : nat) : M Z :=
  lexer_remark_loc;;
  ch <- rd_get;;
  if (ch =? QUOTE) || (ch =? DQUOTE) || is_chr ch "?" || (ch =? BACKSLASH)
  then ret ch
  else if is_chr ch "a" then ret 7
  else if is_chr ch "b" then ret 8
  else if is_chr ch "f" then ret 12
  else if is_chr ch "n" then ret 10
  else if is_chr ch "r" then ret 13
  else if is_chr ch "t" then ret 9
  else if is_chr ch "v" then ret 11
  else if is_chr ch "e" || is_chr ch "E" then ret 27
  else if is_chr ch "x" then lexer_parse_hex_escaped n
  else if is_chr ch "u" then lexer_parse_unc 4
  else if is_chr ch "U" then lexer_parse_unc 8
  else if in_range (chr "0") (chr "7") ch then lexer_parse_oct_escaped ch
  else WARNINGF "unknown escape character: '%c'" [ch];; ret ch.

(** The loop of [__lexer_parse_number__]. *)
Definition VALID_SIGN (c prevc : Z) : bool :=
  (is_chr c "+" || is_chr c "-")
  && (is_chr prevc "e" || is_chr prevc "E"
      || (is_chr prevc "p" || is_chr prevc "P")).

Definition number_continue (ch prev : Z) : bool :=
  ISIDNUM U ch || is_chr ch "." || VALID_SIGN ch prev || (ch =? QUOTE).

Fixpoint parse_number_loop (n : nat) (prev : Z) : M unit :=
  match n with
  | O => exhausted
  | S n' =>
      ch <- rd_peek;;
      if negb (number_continue ch prev) then ret tt
      else
        cat_ch ch;;
        rd_get;;
        parse_number_loop n' ch
  end.

Definition lexer_parse_number (n : nat) (ch : Z) : M (option token_s) :=
  cat_ch ch;;
  parse_number_loop n (-1);;
  lexer_make_token TOKEN_NUMBER.

(** The loop of [__lexer_parse_character__]: [None] is the [return NULL]
    inside the loop, otherwise the last character read and [parsed]. *)
Fixpoint parse_character_loop (n : nat) (parsed : bool)
  : M (option (Z * bool)) :=
  match n with
  | O => exhausted
  | S n' =>
      ch <- rd_get;;
      if (ch =? QUOTE) || (ch =? LF) || (ch =? EOF) then ret (Some (ch, parsed))
      else if parsed then parse_character_loop n' parsed
      else if ch =? BACKSLASH then
        isunc <- lexer_is_unc ch;;
        ch <- lexer_parse_escaped n';;
        if isunc then
          ok <- append_utf8 ch;;
          if ok then parse_character_loop n' true else ret None
        else cat_ch ch;; parse_character_loop n' true
      else cat_ch ch;; parse_character_loop n' true
  end.

Definition lexer_parse_character (n : nat) (ent : encoding_type_t)
  : M (option token_s) :=
  r <- parse_character_loop n false;;
  match r with
  | None => ret None
  | Some (ch, parsed) =>
      (if negb (ch =? QUOTE) then ERRORF "missing terminating ' character" []
       else ret tt);;
      (if negb parsed then ERRORF "empty character constant" []
       else ret tt);;
      lexer_make_token
        match ent with
        | ENCODING_CHAR16 => TOKEN_CONSTANT_CHAR16
        | ENCODING_CHAR32 => TOKEN_CONSTANT_CHAR32
        | ENCODING_UTF8 => TOKEN_CONSTANT_UTF8CHAR
        | ENCODING_WCHAR => TOKEN_CONSTANT_WCHAR
        | ENCODING_NONE => TOKEN_CONSTANT_CHAR
        end
  end.

Fixpoint parse_string_loop (n : nat) : M (option Z) :=
  match n with
  | O => exhausted
  | S n' =>
      ch <- rd_get;;
      if (ch =? DQUOTE) || (ch =? LF) || (ch =? EOF) then ret (Some ch)
      else if ch =? BACKSLASH then
        isunc <- lexer_is_unc ch;;
        ch <- lexer_parse_escaped n';;
        if isunc then
          ok <- append_utf8 ch;;
          if ok then parse_string_loop n' else ret None
        else cat_ch ch;; parse_string_loop n'
      else cat_ch ch;; parse_string_loop n'
  end.

Definition lexer_parse_string (n : nat) (ent : encoding_type_t)
  : M (option token_s) :=
  r <- parse_string_loop n;;
  match r with
  | None => ret None
  | Some ch =>
      (if negb (ch =? DQUOTE) then ERRORF "unterminated string literal" []
       else ret tt);;
      lexer_make_token
        match ent with
        | ENCODING_CHAR16 => TOKEN_CONSTANT_STRING16
        | ENCODING_CHAR32 => TOKEN_CONSTANT_STRING32
        | ENCODING_UTF8 => TOKEN_CONSTANT_UTF8STRING
        | ENCODING_WCHAR => TOKEN_CONSTANT_WSTRING
        | ENCODING_NONE => TOKEN_CONSTANT_STRING
        end
  end.

(** The loop of [__lexer_parse_identifier__]: [None] is the [return NULL]
    inside the loop, otherwise the character that ended the identifier. *)
Fixpoint parse_identifier_loop (n : nat) : M (option Z) :=
  match n with
  | O => exhausted
  | S n' =>
      ch <- rd_get;;
      if ISIDNUM U ch || is_chr ch "$" || in_range 128 253 ch then
        cat_ch ch;; parse_identifier_loop n'
      else
        isunc <- lexer_is_unc ch;;
        if isunc then
          u <- lexer_parse_escaped n';;
          ok <- append_utf8 u;;
          if ok then parse_identifier_loop n' else ret None
        else ret (Some ch)
  end.

Definition lexer_parse_identifier (n : nat) : M (option token_s) :=
  r <- parse_identifier_loop n;;
  match r with
  | None => ret None
  | Some ch => rd_unget ch;; lexer_make_token TOKEN_IDENTIFIER
  end.

Definition lexer_parse_encoding (ch : Z) : M encoding_type_t :=
  if is_chr ch "u" then
    b <- rd_try (chr "8");;
    ret (if b then ENCODING_UTF8 else ENCODING_CHAR16)
  else if is_chr ch "U" then ret ENCODING_CHAR32
  else if is_chr ch "L" then ret ENCODING_WCHAR
  else crash.

(** [cond ? a : b] on the outcome of a [reader_try]. *)
Definition try_token (ch : Z) (a b : token_type_t) : M (option token_s) :=
  t <- rd_try ch;;
  lexer_make_token (if t then a else b).

(** The [switch] of [lexer_scan] on the character read. *)
Definition lexer_scan_switch (n : nat) (ch : Z) : M (option token_s) :=
  if ch =? LF then lexer_make_token TOKEN_NEW_LINE
  else if is_chr ch "[" then lexer_make_token TOKEN_L_SQUARE
  else if is_chr ch "]" then lexer_make_token TOKEN_R_SQUARE
  else if is_chr ch "(" then lexer_make_token TOKEN_L_PAREN
  else if is_chr ch ")" then lexer_make_token TOKEN_R_PAREN
  else if is_chr ch "{" then lexer_make_token TOKEN_L_BRACE
  else if is_chr ch "}" then lexer_make_token TOKEN_R_BRACE
  else if is_chr ch "." then
    c <- rd_peek;;
    if ISDIGIT U c then lexer_parse_number n ch
    else
      t <- rd_try (chr ".");;
      if t then
        t <- rd_try (chr ".");;
        if t then lexer_make_token TOKEN_ELLIPSIS
        else rd_unget (chr ".");; lexer_make_token TOKEN_PERIOD
      else lexer_make_token TOKEN_PERIOD
  else if is_chr ch "&" then
    t <- rd_try (chr "&");;
    if t then lexer_make_token TOKEN_AMPAMP
    else try_token (chr "=") TOKEN_AMPEQUAL TOKEN_AMP
  else if is_chr ch "*" then try_token (chr "=") TOKEN_STAREQUAL TOKEN_STAR
  else if is_chr ch "+" then
    t <- rd_try (chr "+");;
    if t then lexer_make_token TOKEN_PLUSPLUS
    else try_token (chr "=") TOKEN_PLUSEQUAL TOKEN_PLUS
  else if is_chr ch "-" then
    t <- rd_try (chr ">");;
    if t then lexer_make_token TOKEN_ARROW
    else
      t <- rd_try (chr "-");;
      if t then lexer_make_token TOKEN_MINUSMINUS
      else try_token (chr "=") TOKEN_MINUSEQUAL TOKEN_MINUS
  else if is_chr ch "~" then lexer_make_token TOKEN_TILDE
  else if is_chr ch "!" then
    try_token (chr "=") TOKEN_EXCLAIM TOKEN_EXCLAIMEQUAL
  else if is_chr ch "/" then
    t1 <- rd_test (chr "/");;
    t2 <- rd_test (chr "*");;
    if t1 || t2 then
      lexer_skip_comment n;; lexer_make_token TOKEN_COMMENT
    else try_token (chr "=") TOKEN_SLASHEQUAL TOKEN_SLASH
  else if is_chr ch "%" then
    t <- rd_try (chr "=");;
    if t then lexer_make_token TOKEN_PERCENTEQUAL
    else
      t <- rd_try (chr ">");;
      if t then lexer_make_token TOKEN_R_BRACE
      else
        t <- rd_try (chr ":");;
        if t then
          t <- rd_try (chr "%");;
          if t then
            t <- rd_try (chr ":");;
            if t then lexer_make_token TOKEN_HASHHASH
            else rd_unget (chr "%");; lexer_make_token TOKEN_HASH
          else lexer_make_token TOKEN_HASH
        else lexer_make_token TOKEN_PERCENT
  else if is_chr ch "<" then
    t <- rd_try (chr "<");;
    if t then try_token (chr "=") TOKEN_LESSLESSEQUAL TOKEN_LESSLESS
    else
      t <- rd_try (chr "=");;
      if t then lexer_make_token TOKEN_LESSEQUAL
      else
        t <- rd_try (chr ":");;
        if t then lexer_make_token TOKEN_L_SQUARE
        else try_token (chr "%") TOKEN_L_BRACE TOKEN_LESS
  else if is_chr ch ">" then
    t <- rd_try (chr ">");;
    if t then
      try_token (chr "=") TOKEN_GREATERGREATEREQUAL TOKEN_GREATERGREATER
    else try_token (chr "=") TOKEN_GREATEREQUAL TOKEN_GREATER
  else if is_chr ch "^" then try_token (chr "=") TOKEN_CARETEQUAL TOKEN_CARET
  else if is_chr ch "|" then
    t <- rd_try (chr "|");;
    if t then lexer_make_token TOKEN_PIPEPIPE
    else try_token (chr "=") TOKEN_PIPEEQUAL TOKEN_PIPE
  else if is_chr ch "?" then lexer_make_token TOKEN_QUESTION
  else if is_chr ch ":" then try_token (chr ">") TOKEN_R_SQUARE TOKEN_COLON
  else if is_chr ch ";" then lexer_make_token TOKEN_SEMI
  else if is_chr ch "=" then try_token (chr "=") TOKEN_EQUALEQUAL TOKEN_EQUAL
  else if is_chr ch "," then lexer_make_token TOKEN_COMMA
  else if is_chr ch "#" then try_token (chr "#") TOKEN_HASHHASH TOKEN_HASH
  else if in_range (chr "0") (chr "9") ch then lexer_parse_number n ch
  else if is_chr ch "u" || is_chr ch "U" || is_chr ch "L" then
    ent <- lexer_parse_encoding ch;;
    t <- rd_try DQUOTE;;
    if t then lexer_parse_string n ent
    else
      t <- rd_try QUOTE;;
      if t then lexer_parse_character n ent
      else rd_unget ch;; lexer_parse_identifier n
  else if ch =? QUOTE then lexer_parse_character n ENCODING_NONE
  else if ch =? DQUOTE then lexer_parse_string n ENCODING_NONE
  else if ch =? BACKSLASH then
    t1 <- rd_test (chr "u");;
    t2 <- rd_test (chr "U");;
    if t1 || t2 then lexer_parse_identifier n
    else lexer_make_token TOKEN_BACKSLASH
  else if ch =? EOF then lexer_make_token TOKEN_END
  else if ISALPHA U ch || in_range 128 253 ch || is_chr ch "_"
          || is_chr ch "$" then
    rd_unget ch;; lexer_parse_identifier n
  else crash.

(** [lexer_scan]; [n] bounds each loop the scan runs. *)
Definition lexer_scan (n : nat) : M (option token_s) :=
  lexer_mark_loc;;
  ws <- lexer_skip_white_space n;;
  if ws then lexer_make_token TOKEN_SPACE
  else
    ch <- rd_get;;
    lexer_scan_switch n ch.

Definition is_trivia (t : token_type_t) : bool :=
  match t with
  | TOKEN_SPACE | TOKEN_COMMENT => true
  | _ => false
  end.

(** The [while] loop of [lexer_next]: [tok] is the token last scanned; a
    null token is dereferenced by the loop condition. *)
Fixpoint lexer_next_loop (n : nat) (t : option token_s) (leading : nat)
  : M (token_s * nat) :=
  match t with
  | None => crash
  | Some t =>
      if is_trivia (type t) then
        match n with
        | O => exhausted
        | S n' =>
            t' <- lexer_scan n;;
            lexer_next_loop n' t' (S leading)
        end
      else ret (t, leading)
  end.

(** Modelled from the spec: [token.h] is not part of the sources.
    [token_words] is [sizeof(struct token_s)] in units of
    [sizeof(token_t)], the size of a pointer; the structure holds a kind,
    three pointers, a flag and a count, so it is 2 or more. *)
Variable token_words : nat.

(** Modelled from the spec: [array.h] is not part of the sources; it is
    taken as the dynamic array of the spec, a buffer of elements of the
    size given to [array_create_n], where [array_push] returns the address
    of the element after the last one, [array_pop] drops the last element
    and [array_prototype(a, T)] is the buffer read as an array of [T].

    What [array_prototype(tokens, token_t)[i]] reads from a stash:
    [__lexer_make_stash__] creates a stash with elements of
    [sizeof(struct token_s)] bytes, and [lexer_untread] stores the pointer
    to the token it is given at the start of the element [array_push]
    returns, so the token pushed as number [k], counting from 0, is at
    word [k * token_words].  The index [i] counts words of pointer size:
    word [i] holds the token number [i / token_words] when [token_words]
    divides [i], and was never written otherwise.  [tokens] lists the most
    recently pushed first. *)
Definition stash_word (tokens : list token_s) (i : nat) : option token_s :=
  if (i mod token_words =? 0)%nat
  then nth_error (rev tokens) (i / token_words)
  else None.

(** [lexer_next]; the stashes list the most recently pushed first.  With
    [n] tokens on the active stash the code reads word [n - 1] and then
    drops the last element. *)
Definition lexer_next (n : nat) : M token_s := fun l =>
  match snapshots l with
  | [] => Crash
  | (t0 :: tokens) :: rest =>
      match stash_word (t0 :: tokens) (length tokens) with
      | Some t => Ok t (set_snapshots l (tokens :: rest))
      | None => Crash
      end
  | [] :: _ =>
      match reader_line (reader l) with
      | None => Crash
      | Some ln =>
          let bol := (ln =? 1)%nat in
          (t <- lexer_scan n;;
           r <- lexer_next_loop n t 0;;
           let '(t, leading) := r in
           ret (set_leading_space (set_begin_of_line t bol) leading)) l
      end
  end.

Definition lexer_untread (t : token_s) : M bool := fun l =>
  if token_type_t_beq (type t) TOKEN_END then Crash
  else
    match snapshots l with
    | [] => Crash
    | tokens :: rest => Ok true (set_snapshots l ((t :: tokens) :: rest))
    end.

Definition lexer_peek (n : nat) : M token_s :=
  t <- lexer_next n;;
  (if negb (token_type_t_beq (type t) TOKEN_END)
   then lexer_untread t else ret true);;
  ret t.

Definition lexer_stash : M bool := fun l =>
  Ok true (set_snapshots l ([] :: snapshots l)).

Definition lexer_unstash : M unit := fun l =>
  match snapshots l with
  | [] => Crash
  | _ :: rest => Ok tt (set_snapshots l rest)
  end.

End Lexer.

(** The lexer over the in-memory string [s], as [lexer_create] on a reader
    holding that one stream leaves it when the memory of its token held
    [bol] and [spaces] in the two fields [token_create] does not write. *)
Definition lexer_on (bol : bool) (spaces : nat) (s : string) : lexer_s :=
  lexer_create (reader_push reader_create (list_byte_of_string s))
               bol spaces.

(** The same when that memory held zeros: the flag is clear and the space
    count is 0. *)
Definition lexer_of (s : string) : lexer_s := lexer_on false 0 s.

(** ** Observations used by the statements *)

(** The put-back stash holds no character. *)
Definition stash_is_empty (s : stream_s) : bool :=
  match stashed s with
  | None => true
  | Some cs => (cstring_length cs =? 0)%nat
  end.

(** [k] consecutive [reader_peek] calls: the values and the reader. *)
Fixpoint reader_peeks (U : utils) (k : nat) (r : reader_s)
  : list Z * reader_s :=
  match k with
  | O => ([], r)
  | S k' =>
      let '(ch, r1) := reader_peek U r in
      let '(chs, r2) := reader_peeks U k' r1 in
      (ch :: chs, r2)
  end.

(** [k] consecutive [reader_get] calls: the characters delivered, the
    reader and the warnings. *)
Fixpoint reader_gets (U : utils) (opt : option_s) (k : nat) (r : reader_s)
  : list Z * reader_s * list diagnostic :=
  match k with
  | O => ([], r, [])
  | S k' =>
      let '(ch, r1, w1) := reader_get U opt r in
      let '(chs, r2, w2) := reader_gets U opt k' r1 in
      (ch :: chs, r2, w1 ++ w2)
  end.

(** The characters a stream delivers to consecutive gets, up to and
    including the first end-of-input, within [k] gets. *)
Fixpoint delivered (U : utils) (opt : option_s) (k : nat) (s : stream_s)
  : list Z :=
  match k with
  | O => []
  | S k' =>
      let '(ch, s', _) := stream_next U opt s in
      if ch =? EOF then [ch] else ch :: delivered U opt k' s'
  end.

(** [k] consecutive [lexer_scan] calls: the tokens in order. *)
Fixpoint lexer_scans (U : utils) (opt : option_s) (k n : nat)
  : M (list (option token_s)) :=
  match k with
  | O => ret []
  | S k' =>
      (t <- lexer_scan U opt n;;
       ts <- lexer_scans U opt k' n;;
       ret (t :: ts))%lexer
  end.

(** Kind and literal bytes of a token returned by the lexer. *)
Definition kind_and_literal (t : option token_s)
  : option (token_type_t * list byte) :=
  option_map (fun t => (type t, literal_bytes t)) t.

(** The value a lexer computation returned, if it returned. *)
Definition returned {A : Type} (r : result A) : option A :=
  match r with
  | Ok a _ => Some a
  | _ => None
  end.

(** Kinds and literals of the tokens of [k] consecutive scans. *)
Definition scanned (U : utils) (opt : option_s) (k n : nat) (l : lexer_s)
  : option (list (option (token_type_t * list byte))) :=
  option_map (map kind_and_literal) (returned (lexer_scans U opt k n l)).

(** The diagnostics emitted by a lexer computation. *)
Definition emitted {A : Type} (r : result A) : option (list diagnostic) :=
  match r with
  | Ok _ l => Some (diag l)
  | _ => None
  end.

(** No option set. *)
Definition no_options : option_s := mkOption false false.

(** The lexer over the bytes [s], the two fields of its token that
    [token_create] does not write holding zeros. *)
Definition lexer_of_bytes (s : list byte) : lexer_s :=
  lexer_create (reader_push reader_create s) false 0.

(** Horizontal white space: white space other than the line terminators. *)
Definition horizontal (U : utils) (b : byte) : Prop :=
  ISSPACE U (Z_of_byte b) = true /\ Z_of_byte b <> CR /\ Z_of_byte b <> LF.

(** A physical line terminator at the head of [l], and what follows it. *)
Inductive line_terminator : list byte -> list byte -> Prop :=
| term_lf : forall rest, line_terminator (x0a :: rest) rest
| term_crlf : forall rest, line_terminator (x0d :: x0a :: rest) rest
| term_cr : forall rest, hd_error rest <> Some x0a ->
    line_terminator (x0d :: rest) rest.

(** The characters of [chs] are accepted one after the other by the loop
    condition of the pp-number, [prev] being the one accepted before. *)
Fixpoint number_chars (U : utils) (prev : Z) (chs : list Z) : bool :=
  match chs with
  | [] => true
  | c :: chs' => number_continue U c prev && number_chars U c chs'
  end.

(** The scan starts a pp-number: the character read is a digit, or a
    period with a digit next. *)
Definition starts_number (U : utils) (ch : Z) (r : reader_s) : bool :=
  in_range (chr "0") (chr "9") ch
  || (is_chr ch "." && ISDIGIT U (fst (reader_peek U r))).

(** No asterisk among the bytes the stream has still to read. *)
Definition no_asterisk_ahead (s : stream_s) : Prop :=
  forall (p : nat) (b : byte),
  (pc s <= p)%nat -> nth_error (text s) p = Some b -> b <> x2a.

(** A bound on the number of characters other than end-of-input a reader
    still delivers. *)
Definition stream_measure (s : stream_s) : nat :=
  (match stashed s with None => 0 | Some cs => 2 * cstring_length cs end
   + 2 * (pe s - pc s)
   + (if ((lastch s =? LF) || (lastch s =? EOF))%Z then 0 else 1))%nat.

Definition reader_measure (r : reader_s) : nat :=
  match streams r with
  | [] => 0%nat
  | s :: _ => stream_measure s
  end.

(** * Further models and observations *)

(** ** reader.c: [linenote2cs] *)

(** The scan of [linenote2cs] from the pointer [p] over the bytes [l] that
    remain up to the end of the text, where the terminating zero stops
    it. *)
Fixpoint linenote_end (l : list byte) (p : nat) : nat :=
  match l with
  | [] => p
  | b :: l' =>
      let c := Z_of_byte b in
      if c =? NUL then p
      else if (c =? CR) || (c =? LF) then p
      else linenote_end l' (p + 1)
  end.

(** [linenote2cs]: the bytes of the text from [linenote] up to the first
    carriage return, line feed or zero. *)
Definition linenote2cs (s : stream_s) (linenote : nat) : cstring :=
  let p := linenote_end (skipn linenote (text s)) linenote in
  firstn (p - linenote) (skipn linenote (text s)).

(** Consecutive [reader_unget] calls, for the characters of [chs] in
    order. *)
Fixpoint reader_ungets (r : reader_s) (chs : list Z) : option reader_s :=
  match chs with
  | [] => Some r
  | c :: chs' =>
      match reader_unget r c with
      | Some r1 => reader_ungets r1 chs'
      | None => None
      end
  end.

(** The bytes of the put-back stash, the oldest first. *)
Definition stash_bytes (s : stream_s) : cstring :=
  match stashed s with
  | None => []
  | Some cs => cs
  end.

(** The positional data of a stream are consistent: the line start is not
    past the cursor, the cursor not past the end, lines and columns count
    from 1, and the line start is the beginning of the text or follows a
    carriage return or line feed. *)
Definition stream_wf (s : stream_s) : Prop :=
  (line_note s <= pc s)%nat /\ (pc s <= pe s)%nat /\
  (1 <= line s)%nat /\ (1 <= column s)%nat /\
  (line_note s = 0%nat \/
   exists b, nth_error (text s) (line_note s - 1) = Some b /\
             (b = x0d \/ b = x0a)).

(** Consecutive [lexer_untread] calls, for the tokens of [ts] in order. *)
Fixpoint lexer_untreads (ts : list token_s) : M unit :=
  match ts with
  | [] => ret tt
  | t :: ts' => (lexer_untread t;; lexer_untreads ts')%lexer
  end.

(** A token of the kind [k] without literal, location or flags. *)
Definition sample_token (k : token_type_t) : token_s :=
  mkToken k None source_location_create false 0 None.

(** The characters an identifier goes on with: the condition of the loop
    of [__lexer_parse_identifier__]. *)
Definition identifier_continue (U : utils) (c : Z) : bool :=
  ISIDNUM U c || is_chr c "$" || in_range 128 253 c.

(** The bytes that are no white space and start no token: the control
    characters but for the white space ones, the at sign, the backquote,
    the delete character and the bytes 0xFE and 0xFF. *)
Definition bytes_without_token : list Z :=
  [0; 1; 2; 3; 4; 5; 6; 7; 8; 14; 15; 16; 17; 18; 19; 20; 21; 22; 23; 24;
   25; 26; 27; 28; 29; 30; 31; 64; 96; 127; 254; 255].

(** The lexer has read its input to the end: the stream on top of the
    reader has nothing put back, its cursor is at the end of the text and
    the last character it delivered is a newline or end-of-input; the token
    in progress has no space count and no literal byte. *)
Definition at_end_of_input (l : lexer_s) : Prop :=
  exists (s : stream_s) (rest : list stream_s),
    streams (reader l) = s :: rest /\
    stash_is_empty s = true /\ (pe s <= pc s)%nat /\
    (lastch s = LF \/ lastch s = EOF) /\
    leading_space (tok l) = 0%nat /\ literals (tok l) = Some [].

(** ** encoding.c: decoding *)

(** [__count_leading_ones__]: the loop runs [i] from 7 down to 0; [k] is
    [i + 1].  Only the low eight bits of [ch] are looked at, so the result
    does not depend on how an [int] is converted to [char]. *)
Fixpoint count_leading_ones_loop (ch : Z) (k : nat) : Z :=
  match k with
  | O => 8
  | S i =>
      if Z.land ch (Z.shiftl 1 (Z.of_nat i)) =? 0 then 7 - Z.of_nat i
      else count_leading_ones_loop ch i
  end.

Definition count_leading_ones (ch : Z) : Z := count_leading_ones_loop ch 8.

(** [utf8_rune_size]. *)
Definition utf8_rune_size (ch : Z) : Z :=
  let step := count_leading_ones ch in
  if step =? 0 then 1 else step.

(** [__write16__] and [__write32__]: little endian; the parameter is
    converted to [uint16_t], respectively [uint32_t]. *)
Definition write16 (cs : cstring) (u : Z) : cstring :=
  let u := u mod 65536 in
  let cs := cstring_push_ch cs (Z.land u 255) in
  cstring_push_ch cs (Z.shiftr u 8).

Definition write32 (cs : cstring) (u : Z) : cstring :=
  let u := to_uint32 u in
  let cs := write16 cs (Z.land u 65535) in
  write16 cs (Z.shiftr u 16).

Section Runes.

(** Whether plain [char] is signed is implementation-defined. *)
Variable char_is_signed : bool.

(** The value of a byte read as a [char]. *)
Definition char_of_byte (b : byte) : Z :=
  let z := Z_of_byte b in
  if char_is_signed && (128 <=? z) then z - 256 else z.

(** The value of [s[i]] for [char *s]; the byte after the last one of a
    [cstring_t] is its terminating zero. *)
Definition char_at (s : list byte) (i : nat) : Z :=
  char_of_byte (nth i s x00).

(** [__parse_rune__]: the rune and its size, [None] for [false]. *)
Definition parse_rune (s : list byte) (n : Z) : option (Z * nat) :=
  let len := count_leading_ones (char_at s 0) in
  if len =? 0 then Some (to_uint32 (char_at s 0), 1%nat)
  else if n <? len then None
  else if negb (forallb (fun i => Z.land (char_at s i) 192 =? 128)
                        (seq 1 (Z.to_nat len - 1)))
  then None
  else if len =? 2 then
    Some (Z.lor (Z.shiftl (Z.land (char_at s 0) 31) 6)
                (Z.land (char_at s 1) 63), 2%nat)
  else if len =? 3 then
    Some (Z.lor (Z.lor (Z.shiftl (Z.land (char_at s 0) 15) 12)
                       (Z.shiftl (Z.land (char_at s 1) 63) 6))
                (Z.land (char_at s 2) 63), 3%nat)
  else if len =? 4 then
    Some (Z.lor (Z.lor (Z.lor (Z.shiftl (Z.land (char_at s 0) 7) 18)
                              (Z.shiftl (Z.land (char_at s 1) 63) 12))
                       (Z.shiftl (Z.land (char_at s 2) 63) 6))
                (Z.land (char_at s 3) 63), 4%nat)
  else None.

(** The code units [cstring_cast_to_utf16] writes for one rune. *)
Definition write_utf16 (to : cstring) (rune : Z) : cstring :=
  if rune <? 65536 then write16 to rune
  else
    let to := write16 to (Z.shiftr rune 10 + 55232) in
    write16 to (Z.land rune 1023 + 56320).

(** The loop of [cstring_cast_to_utf16]; the outer [None] is the loop
    bound reached, the inner one the null pointer returned. *)
Fixpoint cast_to_utf16_loop (fuel : nat) (cs : cstring) (i : nat)
  (to : cstring) : option (option cstring) :=
  match fuel with
  | O => None
  | S fuel' =>
      if (i <? cstring_length cs)%nat then
        match parse_rune (skipn i cs) (Z.of_nat (cstring_length cs - i)) with
        | None => Some None
        | Some (rune, rune_size) =>
            cast_to_utf16_loop fuel' cs (i + rune_size) (write_utf16 to rune)
        end
      else Some (Some to)
  end.

Definition cstring_cast_to_utf16 (cs : cstring) : option (option cstring) :=
  cast_to_utf16_loop (S (cstring_length cs)) cs 0
    (cstring_new_n_empty (cstring_length cs * 2)).

(** The loop of [cstring_cast_to_utf32]: every round passes [cs] itself
    to [__parse_rune__], not [&cs[i]]. *)
Fixpoint cast_to_utf32_loop (fuel : nat) (cs : cstring) (i : nat)
  (to : cstring) : option (option cstring) :=
  match fuel with
  | O => None
  | S fuel' =>
      if (i <? cstring_length cs)%nat then
        match parse_rune cs (Z.of_nat (cstring_length cs - i)) with
        | None => Some None
        | Some (rune, rune_size) =>
            cast_to_utf32_loop fuel' cs (i + rune_size) (write32 to rune)
        end
      else Some (Some to)
  end.

Definition cstring_cast_to_utf32 (cs : cstring) : option (option cstring) :=
  cast_to_utf32_loop (S (cstring_length cs)) cs 0
    (cstring_new_n_empty (cstring_length cs * 4)).

End Runes.

(** The bytes [cstring_append_utf8] writes for [rune]; none for a rune it
    rejects. *)
Definition utf8_bytes (rune : Z) : list byte :=
  match cstring_append_utf8 [] rune with
  | Some cs => cs
  | None => []
  end.

(** The two bytes of a 16-bit code unit, low byte first. *)
Definition le16 (u : Z) : list byte := [byte_of_Z (u mod 256); byte_of_Z (u / 256)].

(** ** cstring.h: the header *)

(** [cstring_header_t]: the length of the string, the number of bytes
    left unused, and the buffer, which holds the string, its terminating
    zero and the unused bytes.  [size_t] is taken to be 64 bits wide. *)
Record cstring_header_s := mkHeader {
  hdr_length : Z;
  hdr_unused : Z;
  hdr_buffer : list byte
}.

(** Conversion to [size_t]. *)
Definition to_size (z : Z) : Z := z mod 18446744073709551616.

(** [buf[i] = b]; the model leaves the buffer as it is when [i] is outside
    of it. *)
Definition buffer_set (buf : list byte) (i : nat) (b : byte) : list byte :=
  if (i <? length buf)%nat then firstn i buf ++ b :: skipn (S i) buf
  else buf.

(** [strlen]: the number of bytes before the first zero byte. *)
Fixpoint strlen (buf : list byte) : nat :=
  match buf with
  | [] => 0%nat
  | b :: buf' => if Z_of_byte b =? 0 then 0%nat else S (strlen buf')
  end.

(** [cstring_sizeof]; [sizeof_header] is [sizeof(cstring_header_t)]. *)
Definition hdr_sizeof (sizeof_header : Z) (hdr : cstring_header_s) : Z :=
  to_size (to_size (sizeof_header + hdr_length hdr) + hdr_unused hdr).

(** [cstring_pop_ch] on the header. *)
Definition hdr_pop_ch (hdr : cstring_header_s) : Z * cstring_header_s :=
  if 0 <? hdr_length hdr then
    let i := Z.to_nat (hdr_length hdr - 1) in
    let ch := nth i (hdr_buffer hdr) x00 in
    (Z_of_byte ch,
     mkHeader (to_size (hdr_length hdr - 1)) (to_size (hdr_unused hdr + 1))
              (buffer_set (hdr_buffer hdr) i x00))
  else (EOF, hdr).

(** [cstring_update_length]. *)
Definition hdr_update_length (hdr : cstring_header_s) : cstring_header_s :=
  let n := Z.of_nat (strlen (hdr_buffer hdr)) in
  mkHeader n (to_size (hdr_unused hdr + to_size (hdr_length hdr - n)))
           (hdr_buffer hdr).

(** [cstring_clear] on the header. *)
Definition hdr_clear (hdr : cstring_header_s) : cstring_header_s :=
  mkHeader 0 (to_size (hdr_unused hdr + hdr_length hdr))
           (buffer_set (hdr_buffer hdr) 0 x00).

(** The string a header holds: the first [length] bytes of its buffer. *)
Definition hdr_string (hdr : cstring_header_s) : cstring :=
  firstn (Z.to_nat (hdr_length hdr)) (hdr_buffer hdr).

(** A header as [cstring_sizeof] reads it: the buffer has room for the
    string, the unused bytes and the terminating zero, which follows the
    string, and the sizes fit [size_t]. *)
Definition hdr_wf (hdr : cstring_header_s) : Prop :=
  0 <= hdr_length hdr /\ 0 <= hdr_unused hdr /\
  hdr_length hdr + hdr_unused hdr + 1 = Z.of_nat (length (hdr_buffer hdr)) /\
  nth (Z.to_nat (hdr_length hdr)) (hdr_buffer hdr) x00 = x00 /\
  hdr_length hdr + hdr_unused hdr < 18446744073709551615.

(** The value [__lexer_parse_unc__] accumulates over the characters it
    reads, before the conversion to [int]. *)
Definition unc_value (U : utils) (chs : list Z) : Z :=
  fold_left (fun u ch => to_uint32 (Z.shiftl u 4 + TODIGIT U ch)) chs 0.

(** The computation [m] leaves the stashes of the lexer as they were. *)
Definition keeps_snapshots {A : Type} (m : M A) : Prop :=
  forall (l : lexer_s) (a : A) (l' : lexer_s),
    m l = Ok a l' -> snapshots l' = snapshots l.

(** * Properties *)

(** Case analysis on the condition of the first conditional of the goal. *)
Ltac case_if :=
  match goal with
  | |- context [if ?c then _ else _] => destruct c
  end.

(** ** Characters *)

Lemma Z_of_byte_range (b : byte) : 0 <= Z_of_byte b < 256.
Proof.
  unfold Z_of_byte. pose proof (Byte.to_N_bounded b). lia.
Qed.

Lemma Z_of_byte_not_EOF (b : byte) : (Z_of_byte b =? EOF) = false.
Proof.
  pose proof (Z_of_byte_range b). unfold EOF. lia.
Qed.

Lemma byte_of_Z_of_byte (b : byte) : byte_of_Z (Z_of_byte b) = b.
Proof.
  unfold byte_of_Z. pose proof (Z_of_byte_range b) as R.
  rewrite Z.mod_small by exact R.
  unfold Z_of_byte. rewrite N2Z.id, Byte.of_to_N. reflexivity.
Qed.

Lemma nth_pred_length_last {A : Type} (l : list A) (d : A) :
  nth (length l - 1) l d = last l d.
Proof.
  induction l as [|a [|b l'] IH]; try reflexivity.
  change (last (a :: b :: l') d) with (last (b :: l') d).
  rewrite <- IH. simpl. now rewrite Nat.sub_0_r.
Qed.

(** ** The reader *)

Section ReaderFacts.

Variable U : utils.
Variable opt : option_s.

Lemma deref_text (s s0 : stream_s) (p : nat) :
  text s0 = text s -> deref s0 p = deref s p.
Proof. intros E. unfold deref. now rewrite E. Qed.

(** A splice leaves the stream stepped by one line, with the cursor past
    the line terminator. *)
Lemma next_splice_loop_inl (s : stream_s) (l : list byte) :
  forall (p step : nat) (s' : stream_s) (w : list diagnostic),
  next_splice_loop U opt s l p step = inl (s', w) ->
  exists q, (p <= q)%nat /\ s' = STREAM_STEP_BY_LINE (set_pc s (q + 1)).
Proof.
  induction l as [|b l IH]; intros p step s' w H; simpl in H.
  - discriminate.
  - destruct (ISSPACE U (Z_of_byte b)); [|discriminate].
    destruct ((Z_of_byte b =? CR) || (Z_of_byte b =? LF)).
    + destruct ((Z_of_byte b =? CR) && (deref s (p + 1) =? LF));
        inversion H; subst; eexists; (split; [|reflexivity]); lia.
    + apply IH in H. destruct H as [q [Hq E]]. exists q. split; [lia|exact E].
Qed.

(** The scratch loop of peek follows the loop of get. *)
Lemma splice_loops_agree (s s0 : stream_s) (l : list byte) :
  text s0 = text s ->
  forall p step : nat,
  match next_splice_loop U opt s l p step with
  | inl (s', _) => peek_splice_loop U s0 l p = inl (pc s')
  | inr q => peek_splice_loop U s0 l p = inr q
  end.
Proof.
  intros E. induction l as [|b l IH]; intros p step; simpl.
  - reflexivity.
  - destruct (ISSPACE U (Z_of_byte b)); [|reflexivity].
    destruct ((Z_of_byte b =? CR) || (Z_of_byte b =? LF)).
    + rewrite (deref_text s s0 _ E).
      destruct ((Z_of_byte b =? CR) && (deref s (p + 1) =? LF)); reflexivity.
    + apply IH.
Qed.

Lemma nextch_peekch (fuel : nat) :
  forall s s0 : stream_s,
  text s0 = text s -> lastch s0 = lastch s ->
  fst (fst (nextch U opt fuel s)) = peekch U fuel s0 (pc s).
Proof.
  induction fuel as [|fuel IH]; intros s s0 Et El.
  all: assert (Ep : pe s0 = pe s) by (unfold pe; now rewrite Et).
  all: cbn [nextch peekch]; rewrite Ep, El, (deref_text s s0 _ Et).
  all: destruct (pe s <=? pc s)%nat; [reflexivity|].
  all: destruct (deref s (pc s) =? CR) eqn:Hcr; [reflexivity|].
  all: destruct (deref s (pc s) =? LF) eqn:Hlf;
    [apply Z.eqb_eq in Hlf; cbn; exact Hlf|].
  all: cbn [orb]; destruct (deref s (pc s) =? BACKSLASH); [|reflexivity].
  all: rewrite Et.
  all: pose proof (splice_loops_agree (set_pc s (pc s + 1)) s0
                     (skipn (pc s + 1) (text s)) Et (pc s + 1)%nat 0%nat) as A.
  all: cbn [pc set_pc text] in *.
  all: destruct (next_splice_loop U opt (set_pc s (pc s + 1))
                   (skipn (pc s + 1) (text s)) (pc s + 1) 0)
         as [[s' w]|q] eqn:Hloop; rewrite A.
  all: try (change (pe (set_pc s (pc s + 1))) with (pe s);
            destruct (q =? pe s)%nat; reflexivity).
  - reflexivity.
  - apply next_splice_loop_inl in Hloop. destruct Hloop as [q [_ ->]].
    specialize (IH (STREAM_STEP_BY_LINE
                      (set_pc (set_pc s (pc s + 1)) (q + 1))) s0 Et El).
    destruct (nextch U opt fuel _) as [[c s2] w2]. exact IH.
Qed.


Lemma deref_range (s : stream_s) (p : nat) : 0 <= deref s p < 256.
Proof.
  unfold deref. destruct (nth_error (text s) p) as [b|].
  - apply Z_of_byte_range.
  - unfold NUL. lia.
Qed.

Lemma deref_in_text (s : stream_s) (p : nat) :
  (p < pe s)%nat -> exists b, nth_error (text s) p = Some b /\ deref s p = Z_of_byte b.
Proof.
  intros H. unfold deref. destruct (nth_error (text s) p) as [b|] eqn:E.
  - now exists b.
  - apply nth_error_None in E. unfold pe in H. lia.
Qed.

(** The bound [S (pe - pc)] on the restarts is never reached: any two
    bounds above [pe - pc] give the same outcome. *)
Lemma nextch_fuel (n : nat) :
  forall (m : nat) (s : stream_s),
  (pe s - pc s < n)%nat -> (pe s - pc s < m)%nat ->
  nextch U opt n s = nextch U opt m s.
Proof.
  induction n as [|n IH]; intros m s Hn Hm; [lia|].
  destruct m as [|m]; [lia|].
  cbn [nextch].
  destruct (pe s <=? pc s)%nat eqn:Hend; [reflexivity|].
  apply Nat.leb_gt in Hend.
  destruct (deref s (pc s) =? CR); [reflexivity|].
  destruct (deref s (pc s) =? LF); [reflexivity|].
  destruct (deref s (pc s) =? BACKSLASH); [|reflexivity].
  destruct (next_splice_loop U opt _ _ _ _) as [[s' w]|q] eqn:Hloop;
    [|reflexivity].
  apply next_splice_loop_inl in Hloop. destruct Hloop as [q [Hq ->]].
  cbn [pc set_pc] in Hq.
  rewrite (IH m); [reflexivity| |];
    unfold pe in *; cbn [pc text set_pc STREAM_STEP_BY_LINE]; lia.
Qed.

(** What one run from [nextch] to [done] does to the stream. *)
Lemma nextch_inv (fuel : nat) :
  forall (s : stream_s) (ch : Z) (s' : stream_s) (w : list diagnostic),
  (pe s - pc s < fuel)%nat ->
  nextch U opt fuel s = (ch, s', w) ->
  text s' = text s /\ stashed s' = stashed s /\ lastch s' = lastch s /\
  fn s' = fn s /\ (line s <= line s')%nat /\
  ((pc s < pe s)%nat -> (pc s < pc s')%nat) /\
  ((pe s <= pc s)%nat -> s' = s /\ (ch = EOF \/ ch = LF)) /\
  (ch = EOF -> lastch s = LF \/ lastch s = EOF) /\
  (ch = EOF \/ ch = LF \/
   exists p b,
     (pc s <= p)%nat /\ nth_error (text s) p = Some b /\ ch = Z_of_byte b).
Proof.
  induction fuel as [|fuel IH]; intros s ch s' w Hf H; [lia|].
  cbn [nextch] in H.
  destruct (pe s <=? pc s)%nat eqn:Hend.
  - apply Nat.leb_le in Hend. inversion H; subst; clear H.
    repeat split; try reflexivity; try lia.
    + destruct ((lastch s' =? LF) || (lastch s' =? EOF)); auto.
    + destruct (lastch s' =? LF) eqn:E1; [apply Z.eqb_eq in E1; auto|].
      destruct (lastch s' =? EOF) eqn:E2; [apply Z.eqb_eq in E2; auto|].
      cbn. unfold LF, EOF. intros; discriminate.
    + destruct ((lastch s' =? LF) || (lastch s' =? EOF)); auto.
  - apply Nat.leb_gt in Hend.
    pose proof (deref_range s (pc s)) as R.
    destruct (deref_in_text s (pc s) Hend) as [b [Hb Eb]].
    destruct (deref s (pc s) =? CR) eqn:Hcr.
    { inversion H; subst; clear H.
      case_if;
        cbn; repeat split; try lia; try (unfold LF, EOF; intros; discriminate);
        auto. }
    destruct (deref s (pc s) =? LF) eqn:Hlf.
    { apply Z.eqb_eq in Hlf. inversion H; subst; clear H.
      cbn; repeat split; try lia;
        try (rewrite Hlf; unfold LF, EOF; intros; discriminate); auto. }
    destruct (deref s (pc s) =? BACKSLASH) eqn:Hbs.
    2:{ inversion H; subst; clear H.
        cbn; repeat split; try lia.
        - unfold EOF. intros; lia.
        - right; right. exists (pc s), b. rewrite <- Eb. auto. }
    destruct (next_splice_loop U opt _ _ _ _) as [[s1 w1]|q] eqn:Hloop.
    + apply next_splice_loop_inl in Hloop. destruct Hloop as [q [Hq ->]].
      cbn [pc set_pc] in Hq.
      destruct (nextch U opt fuel _) as [[c2 s2] w2] eqn:Hrec.
      inversion H; subst; clear H.
      apply IH in Hrec;
        [|unfold pe in *; cbn [pc text set_pc STREAM_STEP_BY_LINE]; lia].
      cbn [pc text set_pc STREAM_STEP_BY_LINE stashed lastch fn line] in Hrec.
      unfold pe in *. cbn [pc text set_pc STREAM_STEP_BY_LINE] in Hrec.
      destruct Hrec as (Ht & Hs & Hl & Hfn & Hln & Hpc & Hat & He & Hc).
      repeat split; auto; try lia.
      * intros _.
        destruct (Nat.lt_ge_cases (q + 1) (length (text s))) as [Hlt|Hge].
        -- specialize (Hpc Hlt). lia.
        -- destruct (Hat Hge) as [-> _]. cbn. lia.
      * destruct Hc as [Hc|[Hc|[p [b' [Hp [Hb' Hc]]]]]]; auto.
        right; right. exists p, b'. repeat split; auto. lia.
    + change (pe (set_pc s (pc s + 1))) with (pe s) in H.
      destruct (q =? pe s)%nat eqn:Hq.
      * apply Nat.eqb_eq in Hq. inversion H; subst; clear H.
        cbn; repeat split; try lia; try (unfold LF, EOF; intros; discriminate);
          auto.
      * inversion H; subst; clear H.
        cbn; repeat split; try lia.
        -- unfold EOF. intros; lia.
        -- right; right. exists (pc s), b. rewrite <- Eb. auto.
Qed.


Lemma stream_pop_empty (s : stream_s) :
  stash_is_empty s = true -> stream_pop s = (EOF, s).
Proof.
  unfold stash_is_empty, stream_pop, cstring_length.
  destruct (stashed s) as [cs|]; [|reflexivity].
  intros H. apply Nat.eqb_eq in H. rewrite H. reflexivity.
Qed.

Lemma stream_next_fresh (s : stream_s) :
  stash_is_empty s = true ->
  stream_next U opt s =
  let '(ch, s2, w) := nextch U opt (S (pe s - pc s)) s in
  (ch, set_lastch s2 ch, w).
Proof.
  intros H. unfold stream_next. rewrite (stream_pop_empty s H).
  reflexivity.
Qed.

Lemma stream_next_stashed (s : stream_s) (cs : cstring) :
  stashed s = Some cs -> (0 < length cs)%nat ->
  stream_next U opt s =
  (Z_of_byte (last cs x00),
   set_lastch (set_stashed s (Some (removelast cs))) (Z_of_byte (last cs x00)),
   []).
Proof.
  intros E H. unfold stream_next, stream_pop, cstring_pop_ch, cstring_length.
  rewrite E.
  destruct (length cs <=? 0)%nat eqn:E1; [apply Nat.leb_le in E1; lia|].
  destruct (0 <? length cs)%nat eqn:E2; [|apply Nat.ltb_ge in E2; lia].
  rewrite Z_of_byte_not_EOF. reflexivity.
Qed.

Lemma stash_cases (s : stream_s) :
  stash_is_empty s = true \/
  exists cs, stashed s = Some cs /\ (0 < length cs)%nat.
Proof.
  unfold stash_is_empty, cstring_length.
  destruct (stashed s) as [cs|]; [|now left].
  destruct (length cs) eqn:E; [now left|].
  right. exists cs. split; [reflexivity|lia].
Qed.

(** Peek computes the character the next get delivers, on the stream it
    was given. *)
Lemma stream_peek_next (s : stream_s) :
  stream_peek U s = (fst (fst (stream_next U opt s)), s).
Proof.
  destruct (stash_cases s) as [H|[cs [E H]]].
  - rewrite (stream_next_fresh s H).
    pose proof (nextch_peekch (S (pe s - pc s)) s s eq_refl eq_refl) as A.
    destruct (nextch U opt (S (pe s - pc s)) s) as [[ch s2] w].
    cbn [fst] in *. rewrite A.
    unfold stream_peek, stash_is_empty in *.
    destruct (stashed s) as [cs|]; [|reflexivity].
    apply Nat.eqb_eq in H. rewrite H. reflexivity.
  - rewrite (stream_next_stashed s cs E H). cbn [fst].
    unfold stream_peek, cstring_length. rewrite E.
    destruct (0 <? length cs)%nat eqn:E2; [|apply Nat.ltb_ge in E2; lia].
    now rewrite nth_pred_length_last.
Qed.

Lemma reader_peek_get (r : reader_s) :
  reader_peek U r = (fst (fst (reader_get U opt r)), r).
Proof.
  unfold reader_peek, reader_get. destruct r as [[|s rest]]; cbn [streams].
  - reflexivity.
  - rewrite (stream_peek_next s).
    destruct (stream_next U opt s) as [[ch s'] w]. reflexivity.
Qed.

Lemma reader_peeks_repeat (k : nat) (r : reader_s) :
  reader_peeks U k r = (repeat (fst (fst (reader_get U opt r))) k, r).
Proof.
  induction k as [|k IH]; cbn [reader_peeks repeat].
  - reflexivity.
  - rewrite reader_peek_get, IH. reflexivity.
Qed.

(** At the end of the text, with nothing put back, get depends on the
    last delivered character only. *)
Lemma stream_next_at_end (s : stream_s) :
  stash_is_empty s = true -> (pe s <= pc s)%nat ->
  stream_next U opt s =
  let ch := if (lastch s =? LF) || (lastch s =? EOF) then EOF else LF in
  (ch, set_lastch s ch, []).
Proof.
  intros H E. rewrite (stream_next_fresh s H). cbn [nextch].
  apply Nat.leb_le in E. rewrite E. reflexivity.
Qed.

Lemma stream_next_inv (s : stream_s) (ch : Z) (s' : stream_s)
  (w : list diagnostic) :
  stash_is_empty s = true ->
  stream_next U opt s = (ch, s', w) ->
  stash_is_empty s' = true /\ text s' = text s /\ lastch s' = ch /\
  (line s <= line s')%nat /\
  ((pc s < pe s)%nat -> (pc s < pc s')%nat) /\
  ((pe s <= pc s)%nat -> pc s' = pc s) /\
  (ch = EOF -> lastch s = LF \/ lastch s = EOF) /\
  (ch = EOF \/ ch = LF \/
   exists p b,
     (pc s <= p)%nat /\ nth_error (text s) p = Some b /\ ch = Z_of_byte b).
Proof.
  intros H E. rewrite (stream_next_fresh s H) in E.
  destruct (nextch U opt (S (pe s - pc s)) s) as [[c s2] w2] eqn:N.
  inversion E; subst; clear E.
  apply nextch_inv in N; [|lia].
  destruct N as (Ht & Hs & Hl & Hfn & Hln & Hpc & Hat & He & Hc).
  unfold stash_is_empty in *. cbn [set_lastch stashed text lastch line pc].
  rewrite Hs. repeat split; auto.
  intros Hge. now destruct (Hat Hge) as [-> _].
Qed.

End ReaderFacts.

Section ReaderClaims.

Variable U : utils.
Variable opt : option_s.

(** C4.  For every reader state, peek returns exactly the value an
    immediately following get would return and gives back the reader it
    was called on, every stream with its cursor, line, column, line start,
    put-back stash and last delivered character unchanged; hence any
    number of consecutive peeks all return that same value. *)
Theorem peek_agrees_with_get_and_keeps_state (r : reader_s) (k : nat) :
  reader_peek U r = (fst (fst (reader_get U opt r)), r) /\
  reader_peeks U k r = (repeat (fst (fst (reader_get U opt r))) k, r).
Proof.
  split.
  - apply reader_peek_get.
  - apply reader_peeks_repeat.
Qed.

Lemma last_cons_default {A : Type} (l : list A) :
  forall a d : A, last (a :: l) d = last l a.
Proof.
  induction l as [|b l IH]; intros a d; [reflexivity|].
  change (last (a :: b :: l) d) with (last (b :: l) d).
  now rewrite (IH b d), (IH b a).
Qed.

Lemma delivered_at_end (k : nat) (s : stream_s) :
  stash_is_empty s = true -> (pe s <= pc s)%nat ->
  lastch s = LF \/ lastch s = EOF ->
  delivered U opt (S k) s = [EOF].
Proof.
  intros H E L. cbn [delivered].
  rewrite (stream_next_at_end U opt s H E).
  assert (C : (lastch s =? LF) || (lastch s =? EOF) = true).
  { destruct L as [-> | ->]; reflexivity. }
  rewrite C. reflexivity.
Qed.

(** The characters delivered from a stream with nothing put back end with
    end-of-input, and what precedes it is a newline. *)
Lemma delivered_ends (k : nat) :
  forall s : stream_s,
  stash_is_empty s = true -> (pe s - pc s + 2 <= k)%nat ->
  exists pre,
    delivered U opt k s = pre ++ [EOF] /\
    (last pre (lastch s) = LF \/ (pre = [] /\ lastch s = EOF)).
Proof.
  induction k as [|k IH]; intros s H Hk; [lia|].
  cbn [delivered].
  destruct (stream_next U opt s) as [[ch s'] w] eqn:N.
  pose proof (stream_next_inv U opt s ch s' w H N)
    as (Hs & Ht & Hl & _ & Hpc & _ & He & _).
  destruct (ch =? EOF) eqn:Hch.
  - apply Z.eqb_eq in Hch. exists []. split; [now rewrite Hch|].
    destruct (He Hch) as [L|L]; [left; exact L|right; auto].
  - apply Z.eqb_neq in Hch.
    destruct (Nat.lt_ge_cases (pc s) (pe s)) as [Hlt|Hge].
    + specialize (Hpc Hlt).
      destruct (IH s' Hs) as [pre [Hd Hp]].
      { unfold pe in *. rewrite Ht. lia. }
      exists (ch :: pre). split; [cbn; now rewrite Hd|].
      left. destruct Hp as [Hp|[-> Hp]].
      * rewrite Hl in Hp. now rewrite last_cons_default.
      * congruence.
    + rewrite (stream_next_at_end U opt s H Hge) in N.
      cbv zeta in N. inversion N; subst; clear N.
      destruct ((lastch s =? LF) || (lastch s =? EOF)); [congruence|].
      destruct k as [|k]; [lia|].
      exists [LF]. split; [|left; reflexivity].
      rewrite delivered_at_end; auto.
Qed.

(** C3.  With the put-back stash empty and the cursor at the end of the
    buffer, get returns end-of-input when the previously delivered
    character was a newline or end-of-input and a synthesized newline
    otherwise, and the get after it returns end-of-input, so exactly one
    newline is synthesized; the characters delivered from any stream, the
    empty one included, end with a newline followed by end-of-input. *)
Theorem get_at_end_of_buffer :
  (forall s : stream_s,
     stash_is_empty s = true -> (pe s <= pc s)%nat ->
     let ch := if (lastch s =? LF) || (lastch s =? EOF) then EOF else LF in
     stream_next U opt s = (ch, set_lastch s ch, []) /\
     fst (fst (stream_next U opt (set_lastch s ch))) = EOF) /\
  (forall (name : string) (txt : list byte),
     exists pre,
       delivered U opt (length txt + 2) (stream_init name txt)
       = pre ++ [LF; EOF]).
Proof.
  split.
  - intros s H E ch. split.
    + apply (stream_next_at_end U opt s H E).
    + rewrite stream_next_at_end; auto.
      subst ch. cbn [lastch set_lastch fst].
      destruct ((lastch s =? LF) || (lastch s =? EOF)); reflexivity.
  - intros name txt.
    destruct (delivered_ends (length txt + 2) (stream_init name txt))
      as [pre [Hd Hp]].
    + reflexivity.
    + unfold pe. cbn. lia.
    + cbn [lastch stream_init] in Hp.
      destruct Hp as [Hp|[_ Hp]]; [|discriminate].
      destruct pre as [|c pre] using rev_ind; [discriminate|].
      rewrite last_last in Hp. subst c.
      exists pre. rewrite Hd, <- app_assoc. reflexivity.
Qed.

End ReaderClaims.

Lemma get_at_end_of_buffer_witness :
  let s := stream_init "<string>" [] in
  stash_is_empty s = true /\ (pe s <= pc s)%nat /\
  stream_next ctype (no_options) s = (LF, set_lastch s LF, []) /\
  fst (fst (stream_next ctype no_options (set_lastch s LF))) = EOF.
Proof.
  intros s.
  assert (H1 : stash_is_empty s = true) by reflexivity.
  assert (H2 : (pe s <= pc s)%nat) by (apply Nat.le_refl).
  split; [exact H1|]. split; [exact H2|].
  exact (proj1 (get_at_end_of_buffer ctype no_options) s H1 H2).
Defined.

(** ** Line and column tracking *)

Section Position.

Variable U : utils.
Variable opt : option_s.

Lemma skipn_succ {A : Type} (p : nat) (l : list A) (a : A) (l' : list A) :
  skipn p l = a :: l' -> skipn (p + 1) l = l'.
Proof.
  intros E. rewrite Nat.add_comm, <- skipn_skipn, E. reflexivity.
Qed.

Lemma deref_skipn (s : stream_s) (p i : nat) :
  deref s (p + i) =
  match nth_error (skipn p (text s)) i with
  | Some b => Z_of_byte b
  | None => NUL
  end.
Proof. unfold deref. now rewrite nth_error_skipn. Qed.

Lemma Z_of_byte_inj (a b : byte) : Z_of_byte a = Z_of_byte b -> a = b.
Proof.
  intros E. rewrite <- (byte_of_Z_of_byte a), <- (byte_of_Z_of_byte b).
  now rewrite E.
Qed.

(** Horizontal white space up to the end of the text: the loop runs off
    the end. *)
Lemma next_splice_loop_runs_off (s : stream_s) (ws : list byte) :
  Forall (horizontal U) ws ->
  forall p step : nat,
  next_splice_loop U opt s ws p step = inr (p + length ws)%nat.
Proof.
  induction 1 as [|b ws [Hsp [Hcr Hlf]] _ IH]; intros p step; cbn.
  - now rewrite Nat.add_0_r.
  - rewrite Hsp.
    apply Z.eqb_neq in Hcr, Hlf. rewrite Hcr, Hlf. cbn.
    rewrite IH. f_equal. lia.
Qed.

(** Horizontal white space and then a line terminator: the loop splices,
    leaving the cursor where the text after the terminator begins. *)
Lemma next_splice_loop_splices (s : stream_s) (nl rest : list byte) :
  ISSPACE U CR = true -> ISSPACE U LF = true ->
  line_terminator nl rest ->
  forall ws : list byte, Forall (horizontal U) ws ->
  forall p step : nat,
  skipn p (text s) = ws ++ nl ->
  exists w,
    next_splice_loop U opt s (ws ++ nl) p step =
    inl (STREAM_STEP_BY_LINE
           (set_pc s (p + length ws + (length nl - length rest))), w).
Proof.
  intros Scr Slf T. induction 1 as [|b ws [Hsp [Hcr Hlf]] _ IH];
    intros p step E.
  - cbn [app length] in *. rewrite Nat.add_0_r.
    pose proof (deref_skipn s p 1) as D. rewrite E in D.
    destruct T as [rest|rest|rest Hhd]; cbn [next_splice_loop].
    + replace (length (x0a :: rest) - length rest)%nat with 1%nat
        by (cbn [length]; lia).
      change (Z_of_byte x0a) with LF. rewrite Slf.
      change ((LF =? CR) || (LF =? LF)) with true.
      change ((LF =? CR) && (deref s (p + 1) =? LF)) with false.
      cbv iota beta. eexists. reflexivity.
    + replace (length (x0d :: x0a :: rest) - length rest)%nat with 2%nat
        by (cbn [length]; lia).
      change (Z_of_byte x0d) with CR. rewrite Scr.
      cbn [nth_error] in D. change (Z_of_byte x0a) with LF in D. rewrite D.
      change ((CR =? CR) || (CR =? LF)) with true.
      change ((CR =? CR) && (LF =? LF)) with true.
      cbv iota beta. rewrite <- Nat.add_assoc. eexists. reflexivity.
    + replace (length (x0d :: rest) - length rest)%nat with 1%nat
        by (cbn [length]; lia).
      change (Z_of_byte x0d) with CR. rewrite Scr.
      assert (F : (deref s (p + 1) =? LF) = false).
      { rewrite D. cbn [nth_error]. destruct rest as [|b rest]; [reflexivity|].
        apply Z.eqb_neq. intros C.
        change LF with (Z_of_byte x0a) in C. apply Z_of_byte_inj in C.
        apply Hhd. cbn. now rewrite C. }
      rewrite F.
      change ((CR =? CR) || (CR =? LF)) with true.
      change ((CR =? CR) && false) with false.
      cbv iota beta. eexists. reflexivity.
  - cbn [app next_splice_loop]. rewrite Hsp.
    apply Z.eqb_neq in Hcr, Hlf. rewrite Hcr, Hlf. cbn [orb].
    destruct (IH (p + 1)%nat step) as [w Hw].
    { apply (skipn_succ _ _ _ _ E). }
    exists w. rewrite Hw. cbn [length].
    replace (p + 1 + length ws)%nat with (p + S (length ws))%nat by lia.
    reflexivity.
Qed.


Lemma line_terminator_length (nl rest : list byte) :
  line_terminator nl rest -> (length rest < length nl)%nat.
Proof. destruct 1; cbn [length]; lia. Qed.

Lemma nextch_fresh_byte (fuel : nat) (s : stream_s) (b : byte) :
  nth_error (text s) (pc s) = Some b ->
  (pe s <=? pc s)%nat = false /\ deref s (pc s) = Z_of_byte b.
Proof.
  intros E. split.
  - apply Nat.leb_gt. unfold pe. apply nth_error_Some. congruence.
  - unfold deref. now rewrite E.
Qed.

Lemma stream_next_ordinary (s : stream_s) (b : byte) :
  stash_is_empty s = true ->
  nth_error (text s) (pc s) = Some b ->
  Z_of_byte b <> CR -> Z_of_byte b <> LF -> Z_of_byte b <> BACKSLASH ->
  stream_next U opt s =
  (Z_of_byte b,
   set_lastch (incr_column (set_pc s (pc s + 1))) (Z_of_byte b), []).
Proof.
  intros H E Hcr Hlf Hbs.
  rewrite (stream_next_fresh U opt s H).
  destruct (nextch_fresh_byte 0 s b E) as [Hend Hc].
  cbn [nextch]. rewrite Hend, Hc.
  apply Z.eqb_neq in Hcr, Hlf, Hbs. rewrite Hcr, Hlf, Hbs. reflexivity.
Qed.

Lemma stream_next_newline (s : stream_s) (b : byte) :
  stash_is_empty s = true ->
  nth_error (text s) (pc s) = Some b ->
  Z_of_byte b = CR \/ Z_of_byte b = LF ->
  exists p,
    stream_next U opt s =
    (LF, set_lastch (STREAM_STEP_BY_LINE (set_pc s p)) LF, []).
Proof.
  intros H E Hc.
  rewrite (stream_next_fresh U opt s H).
  destruct (nextch_fresh_byte 0 s b E) as [Hend Hd].
  cbn [nextch]. rewrite Hend, Hd.
  destruct Hc as [-> | ->].
  - change (CR =? CR) with true. cbv iota.
    case_if;
      eexists; reflexivity.
  - eexists; reflexivity.
Qed.

Lemma stream_next_splice (s : stream_s) (b : byte) (ws nl rest : list byte) :
  stash_is_empty s = true ->
  nth_error (text s) (pc s) = Some b ->
  Z_of_byte b = BACKSLASH ->
  ISSPACE U CR = true -> ISSPACE U LF = true ->
  skipn (pc s + 1) (text s) = ws ++ nl ->
  Forall (horizontal U) ws -> line_terminator nl rest ->
  fst (stream_next U opt s) =
  fst (stream_next U opt
         (STREAM_STEP_BY_LINE (set_pc s (pe s - length rest)))).
Proof.
  intros H E Hb Scr Slf Hs Hws Hnl.
  rewrite (stream_next_fresh U opt s H).
  destruct (nextch_fresh_byte 0 s b E) as [Hend Hd].
  cbn [nextch]. rewrite Hend, Hd, Hb.
  change (BACKSLASH =? CR) with false.
  change (BACKSLASH =? LF) with false.
  change (BACKSLASH =? BACKSLASH) with true. cbv iota.
  change (pc (set_pc s (pc s + 1))) with (pc s + 1)%nat.
  change (text (set_pc s (pc s + 1))) with (text s).
  rewrite Hs.
  destruct (next_splice_loop_splices (set_pc s (pc s + 1)) nl rest
              Scr Slf Hnl ws Hws (pc s + 1)%nat 0%nat Hs) as [w Hw].
  rewrite Hw. clear Hw.
  pose proof (line_terminator_length nl rest Hnl) as Hlen.
  apply Nat.leb_gt in Hend.
  assert (L : (length (text s) - (pc s + 1) = length ws + length nl)%nat).
  { rewrite <- length_skipn, Hs. apply length_app. }
  replace (pc s + 1 + length ws + (length nl - length rest))%nat
    with (pe s - length rest)%nat by (unfold pe in *; lia).
  change (set_pc (set_pc s (pc s + 1)) (pe s - length rest))
    with (set_pc s (pe s - length rest)).
  set (s1 := STREAM_STEP_BY_LINE (set_pc s (pe s - length rest))).
  rewrite (stream_next_fresh U opt s1 H).
  rewrite (nextch_fuel U opt (pe s - pc s) (S (pe s1 - pc s1)) s1);
    [|unfold pe in *; subst s1; cbn [pc text set_pc STREAM_STEP_BY_LINE]; lia
     |lia].
  destruct (nextch U opt (S (pe s1 - pc s1)) s1) as [[c2 s2] w2].
  reflexivity.
Qed.

Lemma stream_next_backslash_eof (s : stream_s) (b : byte) :
  stash_is_empty s = true ->
  nth_error (text s) (pc s) = Some b ->
  Z_of_byte b = BACKSLASH ->
  Forall (horizontal U) (skipn (pc s + 1) (text s)) ->
  fst (stream_next U opt s) = (LF, set_lastch (set_pc s (pe s)) LF).
Proof.
  intros H E Hb Hws.
  rewrite (stream_next_fresh U opt s H).
  destruct (nextch_fresh_byte 0 s b E) as [Hend Hd].
  cbn [nextch]. rewrite Hend, Hd, Hb.
  change (BACKSLASH =? CR) with false.
  change (BACKSLASH =? LF) with false.
  change (BACKSLASH =? BACKSLASH) with true. cbv iota.
  change (pc (set_pc s (pc s + 1))) with (pc s + 1)%nat.
  change (text (set_pc s (pc s + 1))) with (text s).
  rewrite (next_splice_loop_runs_off _ _ Hws).
  apply Nat.leb_gt in Hend.
  replace (pc s + 1 + length (skipn (pc s + 1) (text s)))%nat with (pe s)
    by (rewrite length_skipn; unfold pe in *; lia).
  change (pe (set_pc s (pc s + 1))) with (pe s).
  rewrite Nat.eqb_refl. reflexivity.
Qed.

(** C6, as the code has it.  For every get that takes a fresh byte from
    the stream buffer (put-back stash empty): a byte that is neither a line
    terminator nor a backslash is delivered with the column increased by
    exactly one and the line unchanged; a carriage return or line feed
    delivers a newline and leaves the column at 1 and the line increased by
    exactly one; a backslash followed by horizontal white space and a line
    terminator splices: the line is stepped by exactly one and the column
    reset to 1, and the get goes on as a get from the position after the
    terminator; a backslash followed by horizontal white space up to the end
    of the file delivers a synthesized newline and leaves line and column
    unchanged. *)
Theorem fresh_byte_line_and_column (s : stream_s) (b : byte) :
  stash_is_empty s = true ->
  nth_error (text s) (pc s) = Some b ->
  let c := Z_of_byte b in
  let ch := fst (fst (stream_next U opt s)) in
  let s' := snd (fst (stream_next U opt s)) in
  (c <> CR -> c <> LF -> c <> BACKSLASH ->
     ch = c /\ column s' = S (column s) /\ line s' = line s) /\
  (c = CR \/ c = LF ->
     ch = LF /\ column s' = 1%nat /\ line s' = S (line s)) /\
  (c = BACKSLASH -> ISSPACE U CR = true -> ISSPACE U LF = true ->
     forall ws nl rest : list byte,
     skipn (pc s + 1) (text s) = ws ++ nl ->
     Forall (horizontal U) ws -> line_terminator nl rest ->
     let s1 := STREAM_STEP_BY_LINE (set_pc s (pe s - length rest)) in
     line s1 = S (line s) /\ column s1 = 1%nat /\
     ch = fst (fst (stream_next U opt s1)) /\
     s' = snd (fst (stream_next U opt s1))) /\
  (c = BACKSLASH -> Forall (horizontal U) (skipn (pc s + 1) (text s)) ->
     ch = LF /\ column s' = column s /\ line s' = line s /\ pc s' = pe s).
Proof.
  intros H E c ch s'. subst c ch s'. split; [|split; [|split]].
  - intros Hcr Hlf Hbs.
    rewrite (stream_next_ordinary s b H E Hcr Hlf Hbs). auto.
  - intros Hc. destruct (stream_next_newline s b H E Hc) as [p ->]. auto.
  - intros Hb Scr Slf ws nl rest Hs Hws Hnl s1.
    rewrite (stream_next_splice s b ws nl rest H E Hb Scr Slf Hs Hws Hnl).
    auto.
  - intros Hb Hws. rewrite (stream_next_backslash_eof s b H E Hb Hws). auto.
Qed.

End Position.

Lemma fresh_byte_line_and_column_witness :
  let s := stream_init "<string>" (list_byte_of_string "a+") in
  let t := stream_init "<string>" [x5c; x20; x0a; x62] in
  (stash_is_empty s = true /\
   nth_error (text s) (pc s) = Some x61 /\
   fst (fst (stream_next ctype no_options s)) = chr "a" /\
   column (snd (fst (stream_next ctype no_options s))) = 2%nat /\
   line (snd (fst (stream_next ctype no_options s))) = 1%nat) /\
  (stash_is_empty t = true /\
   nth_error (text t) (pc t) = Some x5c /\
   skipn (pc t + 1) (text t) = [x20] ++ [x0a; x62] /\
   Forall (horizontal ctype) [x20] /\
   line_terminator [x0a; x62] [x62] /\
   let t1 := STREAM_STEP_BY_LINE (set_pc t (pe t - length [x62])) in
   line t1 = 2%nat /\ column t1 = 1%nat /\
   fst (fst (stream_next ctype no_options t))
   = fst (fst (stream_next ctype no_options t1)) /\
   snd (fst (stream_next ctype no_options t))
   = snd (fst (stream_next ctype no_options t1))).
Proof.
  intros s t.
  assert (H1 : stash_is_empty s = true) by reflexivity.
  assert (H2 : nth_error (text s) (pc s) = Some x61) by reflexivity.
  assert (K1 : stash_is_empty t = true) by reflexivity.
  assert (K2 : nth_error (text t) (pc t) = Some x5c) by reflexivity.
  assert (K3 : skipn (pc t + 1) (text t) = [x20] ++ [x0a; x62])
    by reflexivity.
  assert (K4 : Forall (horizontal ctype) [x20]).
  { repeat constructor; discriminate. }
  assert (K5 : line_terminator [x0a; x62] [x62]) by constructor.
  split.
  - split; [exact H1|]. split; [exact H2|].
    apply (proj1 (fresh_byte_line_and_column ctype no_options s x61 H1 H2));
      discriminate.
  - split; [exact K1|]. split; [exact K2|]. split; [exact K3|].
    split; [exact K4|]. split; [exact K5|].
    exact (proj1 (proj2 (proj2
             (fresh_byte_line_and_column ctype no_options t x5c K1 K2)))
             eq_refl eq_refl eq_refl [x20] [x0a; x62] [x62] K3 K4 K5).
Defined.

(** C6 as stated fails where a newline is synthesized for a backslash at
    the end of the file: on the two bytes [a] and backslash, the second get
    takes the backslash from the buffer and delivers a newline, and the
    column is 2 and the line still 1. *)
Lemma backslash_at_end_of_file_keeps_position :
  let s0 := stream_init "<string>" [x61; x5c] in
  let s1 := snd (fst (stream_next ctype no_options s0)) in
  let ch := fst (fst (stream_next ctype no_options s1)) in
  let s2 := snd (fst (stream_next ctype no_options s1)) in
  stash_is_empty s1 = true /\ nth_error (text s1) (pc s1) = Some x5c /\
  ch = LF /\
  ~ (column s2 = 1%nat /\ line s2 = S (line s1)).
Proof.
  cbv zeta. repeat split; try reflexivity.
  vm_compute. intros [C _]. discriminate C.
Qed.

(** ** The token dictionary *)

(** C7.  The dictionary spells [TOKEN_L_PAREN] as the closing parenthesis
    and [TOKEN_R_PAREN] as the opening one: the two spellings are
    exchanged. *)
Theorem paren_spellings_exchanged :
  dictionary_search token_dictionary TOKEN_L_PAREN
  = Some (mkEntry TOKEN_L_PAREN "TOKEN_L_PAREN" ")") /\
  dictionary_search token_dictionary TOKEN_R_PAREN
  = Some (mkEntry TOKEN_R_PAREN "TOKEN_R_PAREN" "(") /\
  token_original TOKEN_L_PAREN = Some ")"%string /\
  token_original TOKEN_R_PAREN = Some "("%string.
Proof. repeat split; reflexivity. Qed.

(** ** Scanning *)

(** C1.  When the scan has read the exclamation mark it munches a following
    equals sign, but the two kinds are exchanged: with the equals sign
    next, which is consumed, the token is [TOKEN_EXCLAIM]; with anything
    else next, which is left in place, it is [TOKEN_EXCLAIMEQUAL]. *)
Theorem exclaim_kinds_exchanged
  (U : utils) (opt : option_s) (n : nat) (l : lexer_s) (cs : cstring) :
  literals (tok l) = Some cs ->
  let next := fst (fst (reader_get U opt (reader l))) in
  exists (t : token_s) (l' : lexer_s),
    lexer_scan_switch U opt n (chr "!") l = Ok (Some t) l' /\
    type t = (if next =? chr "=" then TOKEN_EXCLAIM
              else TOKEN_EXCLAIMEQUAL) /\
    reader l' = (if next =? chr "="
                 then snd (fst (reader_get U opt (reader l)))
                 else reader l).
Proof.
  intros Hcs next. subst next.
  change (lexer_scan_switch U opt n (chr "!") l)
    with (try_token U opt (chr "=") TOKEN_EXCLAIM TOKEN_EXCLAIMEQUAL l).
  unfold try_token, bind, rd_try, reader_try.
  rewrite (reader_peek_get U opt (reader l)).
  destruct (reader_get U opt (reader l)) as [[c r1] w].
  cbn [fst snd].
  destruct (c =? chr "=");
    unfold lexer_make_token, token_init; cbn [tok literals set_type emit
      set_reader set_tok]; rewrite Hcs;
    eexists; eexists; repeat split.
Qed.

Lemma exclaim_kinds_exchanged_witness :
  let l := match rd_get ctype no_options (lexer_of "!=") with
           | Ok _ l => l
           | _ => lexer_of "!="
           end in
  literals (tok l) = Some [] /\
  fst (fst (reader_get ctype no_options (reader l))) = chr "=" /\
  exists (t : token_s) (l' : lexer_s),
    lexer_scan_switch ctype no_options 0 (chr "!") l = Ok (Some t) l' /\
    type t = TOKEN_EXCLAIM /\
    reader l' = snd (fst (reader_get ctype no_options (reader l))).
Proof.
  intros l.
  assert (H : literals (tok l) = Some []) by reflexivity.
  split; [exact H|]. split; [reflexivity|].
  exact (exclaim_kinds_exchanged ctype no_options 0 l [] H).
Defined.

(** The scans of the inputs [!=] and [!x]. *)
Example scan_exclaim (n : nat) :
  scanned ctype no_options 2 (3 + n) (lexer_of "!=")
  = Some [Some (TOKEN_EXCLAIM, []); Some (TOKEN_NEW_LINE, [])] /\
  scanned ctype no_options 2 (3 + n) (lexer_of "!x")
  = Some [Some (TOKEN_EXCLAIMEQUAL, []);
          Some (TOKEN_IDENTIFIER, list_byte_of_string "x")].
Proof. split; vm_compute; reflexivity. Qed.

(** C5, as the code has it.  Whatever the memory of the token held in
    the flag that [token_create] does not write: when the space count,
    which it does not write either, starts at 0, the scans of the input
    [i++] produce the identifier [i], [TOKEN_PLUSPLUS], the
    [TOKEN_NEW_LINE] of the newline the reader synthesizes at the end of
    the input, and [TOKEN_END]; when it starts at anything else, every
    scan returns [TOKEN_SPACE], since nothing ever resets the count. *)
Theorem scan_i_plus_plus (bol : bool) (spaces n : nat) :
  scanned ctype no_options 4 (3 + n) (lexer_on bol spaces "i++")
  = Some (if (spaces =? 0)%nat
          then [Some (TOKEN_IDENTIFIER, list_byte_of_string "i");
                Some (TOKEN_PLUSPLUS, []);
                Some (TOKEN_NEW_LINE, []);
                Some (TOKEN_END, [])]
          else repeat (Some (TOKEN_SPACE, [])) 4).
Proof. destruct spaces; vm_compute; reflexivity. Qed.

(** C5 as stated fails: for no loop bound and no content of the memory of
    the token are the first three scans of [i++] the identifier,
    [TOKEN_PLUSPLUS] and [TOKEN_END]. *)
Lemma scan_i_plus_plus_not_three_tokens :
  ~ exists (bol : bool) (spaces n : nat),
      scanned ctype no_options 3 n (lexer_on bol spaces "i++")
      = Some [Some (TOKEN_IDENTIFIER, list_byte_of_string "i");
              Some (TOKEN_PLUSPLUS, []);
              Some (TOKEN_END, [])].
Proof.
  intros (bol & [|spaces] & [|[|[|n]]] & H); vm_compute in H;
    discriminate H.
Qed.

(** C8.  On the input made of one apostrophe the outcome hangs on the
    space count of the token, which [token_create] does not write and
    [lexer_scan] reads first.  When the memory held 0 there, the first
    scan returns one [TOKEN_CONSTANT_CHAR] token without literal bytes and
    emits exactly two diagnostics, for the missing terminating quote and
    for the empty character constant, and the next scan returns
    [TOKEN_END] and emits nothing.  When it held anything else, the first
    scan returns [TOKEN_SPACE], and so does the second, and no diagnostic
    is emitted. *)
Theorem scan_lone_quote (bol : bool) (spaces n : nat) :
  let l := lexer_on bol spaces "'" in
  scanned ctype no_options 1 (2 + n) l
  = Some [Some (if (spaces =? 0)%nat then TOKEN_CONSTANT_CHAR
                else TOKEN_SPACE, [])] /\
  option_map (map (fun t => option_map literals t))
    (returned (lexer_scans ctype no_options 1 (2 + n) l))
  = Some [Some None] /\
  emitted (lexer_scans ctype no_options 1 (2 + n) l)
  = Some (if (spaces =? 0)%nat
          then [mkDiag Error "missing terminating ' character" [] 1 1;
                mkDiag Error "empty character constant" [] 1 1]
          else []) /\
  scanned ctype no_options 2 (2 + n) l
  = Some (if (spaces =? 0)%nat
          then [Some (TOKEN_CONSTANT_CHAR, []); Some (TOKEN_END, [])]
          else [Some (TOKEN_SPACE, []); Some (TOKEN_SPACE, [])]) /\
  emitted (lexer_scans ctype no_options 2 (2 + n) l)
  = emitted (lexer_scans ctype no_options 1 (2 + n) l).
Proof. destruct spaces; repeat split; vm_compute; reflexivity. Qed.

(** ** Block comments *)

Section BlockComment.

Variable U : utils.
Variable opt : option_s.

(** With a stream on the reader, nothing put back and no asterisk ahead,
    the loop over a block comment never returns: it reaches every bound. *)
Lemma skip_block_comment_loop_diverges (n : nat) :
  forall (l : lexer_s) (s : stream_s) (rest : list stream_s),
  streams (reader l) = s :: rest ->
  stash_is_empty s = true ->
  no_asterisk_ahead s ->
  skip_block_comment_loop U opt n l = Exhausted.
Proof.
  induction n as [|n IH]; intros l s rest Hr Hs Ht; [reflexivity|].
  cbn [skip_block_comment_loop]. unfold bind at 1.
  unfold rd_is_empty, reader_is_empty. rewrite Hr. cbn [length Nat.eqb].
  unfold bind at 1. unfold rd_get, reader_get. rewrite Hr.
  destruct (stream_next U opt s) as [[ch s'] w] eqn:N.
  destruct (stream_next_inv U opt s ch s' w Hs N)
    as (Hs' & Ht' & _ & _ & Hlt & Hge & _ & Hc).
  assert (Hstar : is_chr ch "*" = false).
  { unfold is_chr. apply Z.eqb_neq. intros C.
    destruct Hc as [-> | [-> | [p [b [Hp [Hb ->]]]]]]; try discriminate C.
    change (chr "*") with (Z_of_byte x2a) in C. apply Z_of_byte_inj in C.
    exact (Ht p b Hp Hb C). }
  rewrite Hstar. unfold bind, ret.
  apply (IH _ s' rest); [reflexivity|exact Hs'|].
  intros p b Hp Hb. rewrite Ht' in Hb. apply (Ht p b); [|exact Hb].
  destruct (Nat.lt_ge_cases (pc s) (pe s)) as [L|G].
  - specialize (Hlt L). lia.
  - rewrite (Hge G) in Hp. exact Hp.
Qed.

End BlockComment.

(** C2.  On an input that opens a block comment and has no asterisk after
    it, so that the comment is never closed, the scan does not return: for
    every bound on its loops the bound is reached.  The loop is left only
    when the reader has no stream, and no get removes a stream. *)
Theorem unterminated_block_comment_never_returns
  (body : list byte) (n : nat) :
  Forall (fun b => b <> x2a) body ->
  lexer_scan ctype no_options n (lexer_of_bytes (x2f :: x2a :: body))
  = Exhausted.
Proof.
  intros Hb. destruct n as [|n]; [reflexivity|].
  unfold lexer_scan, lexer_of_bytes, lexer_scan_switch, lexer_skip_comment.
  cbv -[skip_block_comment_loop].
  erewrite skip_block_comment_loop_diverges;
    [reflexivity|reflexivity|reflexivity|].
  intros [|[|p]] b Hp E; cbn in Hp; try lia.
  cbn in E. apply nth_error_In in E. rewrite Forall_forall in Hb.
  exact (Hb b E).
Qed.

Lemma unterminated_block_comment_never_returns_witness :
  Forall (fun b => b <> x2a) [] /\
  forall n : nat, lexer_scan ctype no_options n (lexer_of "/*") = Exhausted.
Proof.
  assert (H : Forall (fun b : byte => b <> x2a) []) by constructor.
  split; [exact H|].
  intros n. exact (unterminated_block_comment_never_returns [] n H).
Defined.

(** ** The beginning-of-line flag *)

(** C10.  A token that next produces by scanning, the active stash being
    empty, has its beginning-of-line flag set if and only if the line
    number of the reader is 1 when next is called, whatever precedes the
    token on its line. *)
Theorem next_flag_is_reader_on_line_one
  (U : utils) (opt : option_s) (token_words n : nat) (l l' : lexer_s)
  (t : token_s) (rest : list (list token_s)) :
  snapshots l = [] :: rest ->
  lexer_next U opt token_words n l = Ok t l' ->
  exists ln : nat,
    reader_line (reader l) = Some ln /\
    begin_of_line t = (ln =? 1)%nat.
Proof.
  intros Hs H. unfold lexer_next in H. rewrite Hs in H.
  destruct (reader_line (reader l)) as [ln|]; [|discriminate].
  exists ln. split; [reflexivity|].
  unfold bind in H.
  destruct (lexer_scan U opt n l) as [t0 l0| |]; try discriminate.
  destruct (lexer_next_loop U opt n t0 0 l0) as [[t1 lead] l1| |];
    try discriminate.
  unfold ret in H. inversion H; subst. reflexivity.
Qed.

Lemma next_flag_is_reader_on_line_one_witness :
  exists (t1 t2 t3 t4 : token_s) (l1 l2 l3 l4 : lexer_s),
    lexer_next ctype no_options 6 3 (lexer_of_bytes [x61; x2b; x0a; x62])
    = Ok t1 l1 /\
    lexer_next ctype no_options 6 3 l1 = Ok t2 l2 /\
    lexer_next ctype no_options 6 3 l2 = Ok t3 l3 /\
    lexer_next ctype no_options 6 3 l3 = Ok t4 l4 /\
    snapshots l1 = [[]] /\ snapshots l3 = [[]] /\
    [type t1; type t2; type t3; type t4]
    = [TOKEN_IDENTIFIER; TOKEN_PLUS; TOKEN_NEW_LINE; TOKEN_IDENTIFIER] /\
    reader_line (reader l1) = Some 1%nat /\ begin_of_line t2 = true /\
    reader_line (reader l3) = Some 2%nat /\ begin_of_line t4 = false.
Proof.
  pose (l0 := lexer_of_bytes [x61; x2b; x0a; x62]).
  let v := eval vm_compute in (lexer_next ctype no_options 6 3 l0) in
  match v with Ok ?t ?l => pose (t1 := t); pose (l1 := l) end.
  let v := eval vm_compute in (lexer_next ctype no_options 6 3 l1) in
  match v with Ok ?t ?l => pose (t2 := t); pose (l2 := l) end.
  let v := eval vm_compute in (lexer_next ctype no_options 6 3 l2) in
  match v with Ok ?t ?l => pose (t3 := t); pose (l3 := l) end.
  let v := eval vm_compute in (lexer_next ctype no_options 6 3 l3) in
  match v with Ok ?t ?l => pose (t4 := t); pose (l4 := l) end.
  assert (E2 : lexer_next ctype no_options 6 3 l1 = Ok t2 l2)
    by (vm_compute; reflexivity).
  assert (E4 : lexer_next ctype no_options 6 3 l3 = Ok t4 l4)
    by (vm_compute; reflexivity).
  exists t1, t2, t3, t4, l1, l2, l3, l4.
  split; [vm_compute; reflexivity|].
  split; [exact E2|].
  split; [vm_compute; reflexivity|].
  split; [exact E4|].
  do 4 (split; [reflexivity|]).
  split.
  - destruct (next_flag_is_reader_on_line_one ctype no_options 6 3
                l1 l2 t2 [] eq_refl E2) as [ln [Hl Hb]].
    rewrite Hb. vm_compute in Hl. inversion Hl. reflexivity.
  - split; [reflexivity|].
    destruct (next_flag_is_reader_on_line_one ctype no_options 6 3
                l3 l4 t4 [] eq_refl E4) as [ln [Hl Hb]].
    rewrite Hb. vm_compute in Hl. inversion Hl. reflexivity.
Defined.

(** ** Preprocessing numbers *)

Section Number.

Variable U : utils.
Variable opt : option_s.

Hypothesis ISIDNUM_EOF : ISIDNUM U EOF = false.

Lemma number_continue_EOF (prev : Z) : number_continue U EOF prev = false.
Proof.
  unfold number_continue. rewrite ISIDNUM_EOF. reflexivity.
Qed.

Lemma length_removelast_pred {A : Type} (l : list A) :
  length (removelast l) = (length l - 1)%nat.
Proof.
  rewrite removelast_firstn_len, length_firstn. lia.
Qed.

(** Every get that delivers a character other than end-of-input brings
    the stream closer to its end. *)
Lemma stream_next_measure (s : stream_s) (ch : Z) (s' : stream_s)
  (w : list diagnostic) :
  stream_next U opt s = (ch, s', w) -> ch <> EOF ->
  (stream_measure s' < stream_measure s)%nat.
Proof.
  intros N Hch. unfold stream_measure.
  destruct (stash_cases s) as [H|[cs [E H]]].
  - pose proof (stream_next_inv U opt s ch s' w H N)
      as (Hs' & Ht' & Hl' & _ & Hlt & Hge & _ & _).
    assert (Z0 : match stashed s with
                 | None => 0%nat
                 | Some cs => (2 * cstring_length cs)%nat
                 end = 0%nat).
    { unfold stash_is_empty in H. destruct (stashed s); [|reflexivity].
      apply Nat.eqb_eq in H. now rewrite H. }
    assert (Z1 : match stashed s' with
                 | None => 0%nat
                 | Some cs => (2 * cstring_length cs)%nat
                 end = 0%nat).
    { unfold stash_is_empty in Hs'. destruct (stashed s'); [|reflexivity].
      apply Nat.eqb_eq in Hs'. now rewrite Hs'. }
    rewrite Z0, Z1. unfold pe in *. rewrite Ht'.
    destruct (Nat.lt_ge_cases (pc s) (length (text s))) as [L|G].
    + specialize (Hlt L).
      destruct ((lastch s' =? LF) || (lastch s' =? EOF));
        destruct ((lastch s =? LF) || (lastch s =? EOF)); lia.
    + rewrite (Hge G).
      rewrite (stream_next_at_end U opt s H G) in N. cbv zeta in N.
      destruct ((lastch s =? LF) || (lastch s =? EOF)) eqn:C;
        inversion N; subst; [congruence|].
      cbn [lastch set_lastch]. change ((LF =? LF) || (LF =? EOF)) with true.
      cbv iota. lia.
  - rewrite (stream_next_stashed U opt s cs E H) in N.
    inversion N; subst; clear N.
    cbn [stashed set_lastch set_stashed pe pc text lastch].
    rewrite E. unfold cstring_length. rewrite length_removelast_pred.
    unfold pe. cbn [text set_lastch set_stashed].
    case_if;
      destruct ((lastch s =? LF) || (lastch s =? EOF)); lia.
Qed.

Lemma reader_get_measure (r : reader_s) (ch : Z) (r' : reader_s)
  (w : list diagnostic) :
  reader_get U opt r = (ch, r', w) -> ch <> EOF ->
  (reader_measure r' < reader_measure r)%nat.
Proof.
  unfold reader_get, reader_measure. destruct r as [[|s rest]]; cbn [streams].
  - intros E. inversion E; subst. unfold EOF. congruence.
  - destruct (stream_next U opt s) as [[c s'] w'] eqn:N.
    intros E Hch. inversion E; subst; clear E. cbn [streams].
    exact (stream_next_measure s ch s' w N Hch).
Qed.

(** The loop of the pp-number accepts the longest run of characters its
    condition admits, consumes exactly that run and appends it to the
    literal. *)
Lemma parse_number_loop_run (n : nat) :
  forall (prev : Z) (l : lexer_s) (cs : cstring),
  literals (tok l) = Some cs ->
  (reader_measure (reader l) < n)%nat ->
  exists (k : nat) (l' : lexer_s),
    let '(chs, r', w) := reader_gets U opt k (reader l) in
    number_chars U prev chs = true /\
    number_continue U (fst (fst (reader_get U opt r'))) (last chs prev)
    = false /\
    parse_number_loop U opt n prev l = Ok tt l' /\
    reader l' = r' /\ diag l' = diag l ++ w /\
    literals (tok l') = Some (cs ++ map byte_of_Z chs).
Proof.
  induction n as [|n IH]; intros prev l cs Hcs Hn; [lia|].
  cbn [parse_number_loop]. unfold bind at 1. unfold rd_peek.
  rewrite (reader_peek_get U opt (reader l)).
  destruct (reader_get U opt (reader l)) as [[c r1] w1] eqn:G.
  cbn [fst].
  destruct (number_continue U c prev) eqn:C; cbn [negb].
  - assert (Hc : c <> EOF).
    { intros ->. rewrite number_continue_EOF in C. discriminate. }
    pose proof (reader_get_measure _ _ _ _ G Hc) as Hm.
    unfold bind at 1. unfold cat_ch at 1.
    cbn [tok set_reader]. rewrite Hcs.
    unfold bind at 1. unfold rd_get at 1.
    cbn [reader set_reader set_tok]. rewrite G.
    set (l2 := emit _ w1).
    destruct (IH c l2 (cstring_push_ch cs c)) as [k [l' Hk]].
    { reflexivity. }
    { cbn [reader l2 emit set_reader]. lia. }
    exists (S k), l'. cbn [reader_gets]. rewrite G.
    cbn [reader l2 emit set_reader] in Hk.
    destruct (reader_gets U opt k r1) as [[chs r'] w'].
    destruct Hk as (Hchs & Hstop & Hrun & Hr & Hd & Hlit).
    repeat split.
    + cbn [number_chars]. now rewrite C, Hchs.
    + now rewrite last_cons_default.
    + exact Hrun.
    + exact Hr.
    + rewrite Hd. cbn [diag l2 emit set_reader set_tok].
      now rewrite app_assoc.
    + rewrite Hlit. unfold cstring_push_ch. cbn [map].
      now rewrite <- app_assoc.
  - exists 0%nat, (set_reader l (reader l)). cbn [reader_gets].
    rewrite G. cbn [fst last number_chars map].
    repeat split; auto.
    + cbn. now rewrite app_nil_r.
    + cbn. now rewrite app_nil_r.
Qed.


Lemma lexer_parse_number_run (n : nat) (ch : Z) (l : lexer_s) (cs : cstring) :
  literals (tok l) = Some cs ->
  (reader_measure (reader l) < n)%nat ->
  exists (k : nat) (t : token_s) (l' : lexer_s),
    let '(chs, r', w) := reader_gets U opt k (reader l) in
    number_chars U (-1) chs = true /\
    number_continue U (fst (fst (reader_get U opt r'))) (last chs (-1))
    = false /\
    lexer_parse_number U opt n ch l = Ok (Some t) l' /\
    type t = TOKEN_NUMBER /\
    literals t = Some (cs ++ byte_of_Z ch :: map byte_of_Z chs) /\
    reader l' = r' /\ diag l' = diag l ++ w.
Proof.
  intros Hcs Hn.
  unfold lexer_parse_number. unfold bind at 1. unfold cat_ch. rewrite Hcs.
  set (l1 := set_tok l _).
  destruct (parse_number_loop_run n (-1) l1 (cstring_push_ch cs ch))
    as [k [l2 Hk]]; [reflexivity|exact Hn|].
  cbn [reader l1 set_tok] in Hk.
  destruct (reader_gets U opt k (reader l)) as [[chs r'] w] eqn:G.
  destruct Hk as (Hchs & Hstop & Hrun & Hr & Hd & Hlit).
  unfold bind. rewrite Hrun. unfold lexer_make_token, token_init.
  cbn [literals set_type]. rewrite Hlit.
  eexists k, _, _. rewrite G.
  repeat split; try eassumption.
  unfold token_dup. cbn [literals set_type]. rewrite Hlit.
  unfold cstring_push_ch, cstring_length.
  rewrite <- app_assoc. cbn [app].
  destruct (length (cs ++ byte_of_Z ch :: map byte_of_Z chs)) eqn:L.
  - rewrite length_app in L. cbn [length] in L. lia.
  - reflexivity.
Qed.

Lemma set_reader_same (l : lexer_s) : set_reader l (reader l) = l.
Proof. now destruct l. Qed.

Lemma scan_switch_number (n : nat) (ch : Z) (l : lexer_s) :
  starts_number U ch (reader l) = true ->
  lexer_scan_switch U opt n ch l = lexer_parse_number U opt n ch l.
Proof.
  unfold starts_number. intros H. apply orb_true_iff in H.
  destruct H as [H|H].
  - unfold in_range in H. apply andb_true_iff in H. destruct H as [H1 H2].
    apply Z.leb_le in H1, H2. change (chr "0") with 48 in H1.
    change (chr "9") with 57 in H2.
    assert (D : ch = 48 \/ ch = 49 \/ ch = 50 \/ ch = 51 \/ ch = 52 \/
                ch = 53 \/ ch = 54 \/ ch = 55 \/ ch = 56 \/ ch = 57) by lia.
    repeat (destruct D as [-> | D]; [reflexivity|]). subst ch. reflexivity.
  - apply andb_true_iff in H. destruct H as [H1 H2].
    unfold is_chr in H1. apply Z.eqb_eq in H1. subst ch.
    change (lexer_scan_switch U opt n (chr ".") l)
      with ((c <- rd_peek U;;
             if ISDIGIT U c then lexer_parse_number U opt n (chr ".")
             else
               t <- rd_try U opt (chr ".");;
               if t then
                 t <- rd_try U opt (chr ".");;
                 if t then lexer_make_token TOKEN_ELLIPSIS
                 else rd_unget (chr ".");; lexer_make_token TOKEN_PERIOD
               else lexer_make_token TOKEN_PERIOD) l).
    unfold bind at 1. unfold rd_peek.
    rewrite (reader_peek_get U opt (reader l)) in *. cbn [fst] in H2.
    rewrite H2, set_reader_same. reflexivity.
Qed.

(** C9, as the code has it.  When the scan starts a pp-number (an initial
    digit, or a period followed by a digit), the literal of the resulting
    [TOKEN_NUMBER] is the initial character followed by the longest run of
    logical characters each of which is an [ISIDNUM] character (alphabetic,
    digit or underscore), a period, a single quote, or a sign immediately
    preceded by one of [e], [E], [p], [P]; that run is consumed and nothing
    past it.  The dollar sign, the bytes 0x80..0xFD and the universal
    character names end the number. *)
Theorem pp_number_literal_is_longest_run
  (n : nat) (ch : Z) (l : lexer_s) (cs : cstring) :
  starts_number U ch (reader l) = true ->
  literals (tok l) = Some cs ->
  (reader_measure (reader l) < n)%nat ->
  exists (k : nat) (t : token_s) (l' : lexer_s),
    let '(chs, r', w) := reader_gets U opt k (reader l) in
    number_chars U (-1) chs = true /\
    number_continue U (fst (fst (reader_get U opt r'))) (last chs (-1))
    = false /\
    lexer_scan_switch U opt n ch l = Ok (Some t) l' /\
    type t = TOKEN_NUMBER /\
    literals t = Some (cs ++ byte_of_Z ch :: map byte_of_Z chs) /\
    reader l' = r' /\ diag l' = diag l ++ w.
Proof.
  intros Hstart Hcs Hn.
  rewrite (scan_switch_number n ch l Hstart).
  exact (lexer_parse_number_run n ch l cs Hcs Hn).
Qed.

End Number.

(** C9 as stated fails on the dollar sign, an identifier-continue
    character: the scan of [1$] returns the number [1] and leaves the
    dollar sign to the next token. *)
Lemma pp_number_stops_at_dollar :
  scanned ctype no_options 2 3 (lexer_of "1$")
  = Some [Some (TOKEN_NUMBER, list_byte_of_string "1");
          Some (TOKEN_IDENTIFIER, list_byte_of_string "$")] /\
  scanned ctype no_options 1 3 (lexer_of "1$")
  <> Some [Some (TOKEN_NUMBER, list_byte_of_string "1$")].
Proof. split; [vm_compute; reflexivity|vm_compute; discriminate]. Qed.

Lemma pp_number_literal_is_longest_run_witness :
  let l := match rd_get ctype no_options (lexer_of "1e+5$") with
           | Ok _ l => l
           | _ => lexer_of "1e+5$"
           end in
  ISIDNUM ctype EOF = false /\
  starts_number ctype (chr "1") (reader l) = true /\
  literals (tok l) = Some [] /\
  (reader_measure (reader l) < 10)%nat /\
  returned (lexer_scan_switch ctype no_options 10 (chr "1") l)
  = Some (Some (mkToken TOKEN_NUMBER (Some (list_byte_of_string "1e+5"))
                        source_location_create false 0 None)) /\
  exists (k : nat) (t : token_s) (l' : lexer_s),
    let '(chs, r', w) := reader_gets ctype no_options k (reader l) in
    number_chars ctype (-1) chs = true /\
    number_continue ctype (fst (fst (reader_get ctype no_options r')))
      (last chs (-1)) = false /\
    lexer_scan_switch ctype no_options 10 (chr "1") l = Ok (Some t) l' /\
    type t = TOKEN_NUMBER /\
    literals t = Some ([] ++ byte_of_Z (chr "1") :: map byte_of_Z chs) /\
    reader l' = r' /\ diag l' = diag l ++ w.
Proof.
  intros l.
  assert (H1 : ISIDNUM ctype EOF = false) by reflexivity.
  assert (H2 : starts_number ctype (chr "1") (reader l) = true)
    by reflexivity.
  assert (H3 : literals (tok l) = Some []) by reflexivity.
  assert (H4 : (reader_measure (reader l) < 10)%nat)
    by (vm_compute; lia).
  split; [exact H1|]. split; [exact H2|]. split; [exact H3|].
  split; [exact H4|]. split; [vm_compute; reflexivity|].
  exact (pp_number_literal_is_longest_run ctype no_options H1
           10%nat (chr "1") l [] H2 H3 H4).
Defined.

(** * Further properties *)

(** ** Putting characters back *)

Lemma Z_of_byte_of_Z (z : Z) : Z_of_byte (byte_of_Z z) = z mod 256.
Proof.
  unfold byte_of_Z, Z_of_byte.
  pose proof (Z.mod_pos_bound z 256 ltac:(lia)) as B.
  destruct (Byte.of_N (Z.to_N (z mod 256))) as [b|] eqn:E.
  - apply Byte.to_of_N in E. rewrite E. apply Z2N.id. lia.
  - apply Byte.of_N_None_iff in E. lia.
Qed.

Section Unget.

Variable U : utils.
Variable opt : option_s.

Lemma stream_next_push (s : stream_s) (ch : Z) :
  stream_next U opt (stream_push s ch) =
  (ch mod 256,
   set_lastch (set_stashed s (Some (stash_bytes s))) (ch mod 256), []).
Proof.
  rewrite (stream_next_stashed U opt (stream_push s ch)
             (cstring_push_ch (stash_bytes s) ch)).
  - unfold cstring_push_ch. rewrite last_last, removelast_last, Z_of_byte_of_Z.
    reflexivity.
  - unfold stream_push, stash_bytes, cstring_new_n_empty.
    destruct (stashed s); reflexivity.
  - unfold cstring_push_ch. rewrite length_app. cbn. lia.
Qed.

Lemma reader_gets_snoc (k : nat) :
  forall r : reader_s,
  reader_gets U opt (k + 1) r =
  let '(chs, r1, w1) := reader_gets U opt k r in
  let '(c, r2, w2) := reader_get U opt r1 in
  (chs ++ [c], r2, w1 ++ w2).
Proof.
  induction k as [|k IH]; intros r; cbn [reader_gets Nat.add].
  - destruct (reader_get U opt r) as [[c r2] w2]. cbn.
    now rewrite app_nil_r.
  - destruct (reader_get U opt r) as [[c0 r0] w0].
    rewrite IH.
    destruct (reader_gets U opt k r0) as [[chs r1] w1].
    destruct (reader_get U opt r1) as [[c r2] w2].
    cbn. now rewrite app_assoc.
Qed.

(** Characters put back are delivered again last in, first out, as
    unsigned bytes, without a warning, and the gets that take them leave
    the text, the cursor, the line, the column, the line start and the
    older stash as they were; the last delivered character is the one put
    back first. *)
Theorem unget_then_get_is_lifo
  (chs : list Z) :
  forall (r : reader_s) (s : stream_s) (rest : list stream_s),
  streams r = s :: rest ->
  Forall (fun c => c <> EOF /\ c <> NUL) chs ->
  exists (r1 : reader_s) (s2 : stream_s),
    reader_ungets r chs = Some r1 /\
    reader_gets U opt (length chs) r1
    = (rev (map (fun c => c mod 256) chs), mkReader (s2 :: rest), []) /\
    text s2 = text s /\ pc s2 = pc s /\ line s2 = line s /\
    column s2 = column s /\ line_note s2 = line_note s /\
    stash_bytes s2 = stash_bytes s /\
    lastch s2 = match chs with [] => lastch s | c :: _ => c mod 256 end.
Proof.
  induction chs as [|c chs IH]; intros r s rest Hr Hall.
  - exists r, s. cbn. destruct r as [ss]. cbn in Hr. subst ss.
    repeat split; reflexivity.
  - inversion Hall as [|c' chs' [Hc1 Hc2] Hall']; subst.
    cbn [reader_ungets]. unfold reader_unget. rewrite Hr.
    apply Z.eqb_neq in Hc1, Hc2. rewrite Hc1, Hc2. cbn [negb andb].
    destruct (IH (mkReader (stream_push s c :: rest)) (stream_push s c) rest
                eq_refl Hall')
      as (r1 & s2 & Hu & Hg & Ht & Hp & Hl & Hcol & Hn & Hst & Hlast).
    assert (Hst2 : stashed s2 = Some (stash_bytes s ++ [byte_of_Z c])).
    { unfold stash_bytes in Hst at 1. cbn in Hst.
      destruct (stashed s2) as [cs2|].
      - subst cs2. unfold stash_bytes, cstring_new_n_empty.
        destruct (stashed s); reflexivity.
      - exfalso. unfold cstring_push_ch in Hst.
        destruct (match stashed s with
                  | Some cs => cs
                  | None => cstring_new_n_empty STREAM_STASHED_DEPTH
                  end); discriminate Hst. }
    exists r1,
      (set_lastch (set_stashed s2 (Some (stash_bytes s))) (c mod 256)).
    split; [exact Hu|].
    split.
    + replace (length (c :: chs)) with (length chs + 1)%nat
        by (cbn [length]; lia).
      rewrite reader_gets_snoc, Hg.
      unfold reader_get. cbn [streams].
      rewrite (stream_next_stashed U opt s2 _ Hst2)
        by (rewrite length_app; cbn; lia).
      rewrite last_last, removelast_last, Z_of_byte_of_Z.
      cbn [map rev app]. reflexivity.
    + cbn [text pc line column line_note set_lastch set_stashed lastch].
      repeat split; try assumption.
Qed.

End Unget.

Lemma unget_then_get_is_lifo_witness :
  let r := reader_push reader_create (list_byte_of_string "xy") in
  Forall (fun c => c <> EOF /\ c <> NUL) [chr "a"; chr "b"] /\
  exists (r1 : reader_s) (s2 : stream_s),
    reader_ungets r [chr "a"; chr "b"] = Some r1 /\
    reader_gets ctype no_options 2 r1
    = ([chr "b"; chr "a"], mkReader [s2], []) /\
    pc s2 = 0%nat /\ column s2 = 1%nat.
Proof.
  intros r.
  assert (H : Forall (fun c => c <> EOF /\ c <> NUL) [chr "a"; chr "b"]).
  { repeat constructor; discriminate. }
  split; [exact H|].
  destruct (unget_then_get_is_lifo ctype no_options [chr "a"; chr "b"]
              r _ [] eq_refl H)
    as (r1 & s2 & Hu & Hg & _ & Hp & _ & Hc & _).
  exists r1, s2. repeat split; assumption.
Defined.

(** ** What a get does to a stream *)

Section GetFootprint.

Variable U : utils.
Variable opt : option_s.

(** [reader_try] consumes the next logical character exactly when it is
    the expected one, and otherwise leaves the reader as it was. *)
Theorem reader_try_consumes_on_match (r : reader_s) (ch : Z) :
  reader_try U opt r ch =
  let '(c, r', w) := reader_get U opt r in
  if c =? ch then (true, r', w) else (false, r, []).
Proof.
  unfold reader_try. rewrite (reader_peek_get U opt r).
  destruct (reader_get U opt r) as [[c r'] w]. reflexivity.
Qed.

Lemma next_splice_loop_inl_at (s : stream_s) (l : list byte) :
  forall (p step : nat) (s' : stream_s) (w : list diagnostic),
  skipn p (text s) = l ->
  next_splice_loop U opt s l p step = inl (s', w) ->
  exists (q : nat) (b : byte),
    (p <= q)%nat /\ nth_error (text s) q = Some b /\
    (b = x0d \/ b = x0a) /\
    s' = STREAM_STEP_BY_LINE (set_pc s (q + 1)).
Proof.
  induction l as [|b l IH]; intros p step s' w E H; cbn [next_splice_loop] in H.
  - discriminate.
  - assert (Hb : nth_error (text s) p = Some b).
    { rewrite <- hd_error_skipn, E. reflexivity. }
    destruct (ISSPACE U (Z_of_byte b)); [|discriminate].
    destruct (Z_of_byte b =? CR) eqn:Hcr; cbn [orb andb] in H.
    + destruct (deref s (p + 1) =? LF) eqn:Hlf; inversion H; subst; clear H.
      * unfold deref in Hlf.
        destruct (nth_error (text s) (p + 1)) as [b'|] eqn:Hb';
          [|discriminate].
        apply Z.eqb_eq in Hlf. change LF with (Z_of_byte x0a) in Hlf.
        apply Z_of_byte_inj in Hlf. subst b'.
        exists (p + 1)%nat, x0a. repeat split; auto. lia.
      * apply Z.eqb_eq in Hcr. change CR with (Z_of_byte x0d) in Hcr.
        apply Z_of_byte_inj in Hcr. subst b.
        exists p, x0d. repeat split; auto.
    + destruct (Z_of_byte b =? LF) eqn:Hlf.
      * inversion H; subst; clear H.
        apply Z.eqb_eq in Hlf. change LF with (Z_of_byte x0a) in Hlf.
        apply Z_of_byte_inj in Hlf. subst b.
        exists p, x0a. repeat split; auto.
      * apply IH in H; [|exact (skipn_succ _ _ _ _ E)].
        destruct H as (q & b' & Hq & Hn & Hb' & Hs).
        exists q, b'. repeat split; auto. lia.
Qed.

Lemma stream_wf_step (s : stream_s) (p : nat) (b : byte) :
  stream_wf s -> nth_error (text s) p = Some b -> (b = x0d \/ b = x0a) ->
  stream_wf (STREAM_STEP_BY_LINE (set_pc s (p + 1))).
Proof.
  intros (H1 & H2 & H3 & H4 & H5) Hb Hc.
  assert (Hp : (p < pe s)%nat).
  { unfold pe. apply nth_error_Some. congruence. }
  unfold stream_wf, pe in *.
  cbn [line_note pc text line column STREAM_STEP_BY_LINE set_pc].
  repeat split; try lia.
  right. exists b. replace (p + 1 - 1)%nat with p by lia. auto.
Qed.

Lemma nextch_wf (fuel : nat) :
  forall (s : stream_s) (ch : Z) (s' : stream_s) (w : list diagnostic),
  stream_wf s -> nextch U opt fuel s = (ch, s', w) -> stream_wf s'.
Proof.
  induction fuel as [|fuel IH]; intros s ch s' w W H;
    cbn [nextch] in H.
  all: destruct (pe s <=? pc s)%nat eqn:Hend;
    [inversion H; subst; exact W|].
  all: apply Nat.leb_gt in Hend.
  all: destruct (deref_in_text s (pc s) Hend) as [b [Hb Eb]].
  all: destruct (deref s (pc s) =? CR) eqn:Hcr.
  1,3: apply Z.eqb_eq in Hcr; rewrite Eb in Hcr;
    change CR with (Z_of_byte x0d) in Hcr; apply Z_of_byte_inj in Hcr;
    subst b; inversion H; subst; clear H;
    cbn [pc set_pc];
    destruct (deref (set_pc s (pc s + 1)) (pc s + 1) =? LF) eqn:Hlf;
    [ unfold deref in Hlf; cbn [text set_pc] in Hlf;
      destruct (nth_error (text s) (pc s + 1)) as [b'|] eqn:Hb';
        [|discriminate];
      apply Z.eqb_eq in Hlf; change LF with (Z_of_byte x0a) in Hlf;
      apply Z_of_byte_inj in Hlf; subst b';
      change (set_pc (set_pc s (pc s + 1)) (pc s + 1 + 1))
        with (set_pc s (pc s + 1 + 1));
      apply (stream_wf_step s (pc s + 1) x0a W Hb'); auto
    | apply (stream_wf_step s (pc s) x0d W Hb); auto ].
  all: destruct (deref s (pc s) =? LF) eqn:Hlf.
  1,3: apply Z.eqb_eq in Hlf; rewrite Eb in Hlf;
    change LF with (Z_of_byte x0a) in Hlf; apply Z_of_byte_inj in Hlf;
    subst b; inversion H; subst; clear H;
    apply (stream_wf_step s (pc s) x0a W Hb); auto.
  all: assert (W1 : stream_wf (set_pc s (pc s + 1)))
    by (destruct W as (H1 & H2 & H3 & H4 & H5); unfold stream_wf, pe in *;
        cbn [line_note pc text line column set_pc]; repeat split; auto; lia).
  all: destruct (deref s (pc s) =? BACKSLASH);
    [|inversion H; subst; clear H;
      destruct W1 as (H1 & H2 & H3 & H4 & H5); unfold stream_wf, pe in *;
      cbn [line_note pc text line column set_pc incr_column] in *;
      repeat split; auto; lia].
  all: destruct (next_splice_loop U opt _ _ _ _) as [[s1 w1]|q] eqn:Hloop.
  all: try (apply next_splice_loop_inl_at in Hloop; [|reflexivity];
            destruct Hloop as (q & b' & Hq & Hn & Hb' & ->);
            cbn [text set_pc] in Hn;
            change (set_pc (set_pc s (pc s + 1)) (q + 1))
              with (set_pc s (q + 1)) in H;
            pose proof (stream_wf_step s q b' W Hn Hb') as W2).
  - inversion H; subst. exact W2.
  - change (pe (set_pc s (pc s + 1))) with (pe s) in H.
    destruct (q =? pe s)%nat eqn:Hq; inversion H; subst; clear H;
      [|exact W1].
    apply Nat.eqb_eq in Hq. subst q.
    destruct W as (H1 & H2 & H3 & H4 & H5). unfold stream_wf, pe in *.
    cbn [line_note pc text line column set_pc]. repeat split; auto; lia.
  - destruct (nextch U opt fuel _) as [[c2 s2] w2] eqn:Hrec.
    inversion H; subst; clear H. exact (IH _ _ _ _ W2 Hrec).
  - change (pe (set_pc s (pc s + 1))) with (pe s) in H.
    destruct (q =? pe s)%nat eqn:Hq; inversion H; subst; clear H;
      [|exact W1].
    apply Nat.eqb_eq in Hq. subst q.
    destruct W as (H1 & H2 & H3 & H4 & H5). unfold stream_wf, pe in *.
    cbn [line_note pc text line column set_pc]. repeat split; auto; lia.
Qed.

(** The positional data of a stream stay consistent: a fresh stream has
    them so, and every get and every unget keeps the cursor between the
    line start and the end of the text, the line and the column at 1 or
    more, and the line start at the beginning of the text or just past a
    carriage return or line feed. *)
Theorem stream_positions_stay_consistent :
  (forall (name : string) (txt : list byte),
     stream_wf (stream_init name txt)) /\
  (forall s : stream_s,
     stream_wf s -> stream_wf (snd (fst (stream_next U opt s)))) /\
  (forall (s : stream_s) (ch : Z),
     stream_wf s -> stream_wf (stream_push s ch)).
Proof.
  split; [|split].
  - intros name txt. unfold stream_wf, pe. cbn. repeat split; auto; lia.
  - intros s W. unfold stream_next.
    destruct (stream_pop s) as [c s1] eqn:P.
    assert (W1 : stream_wf s1).
    { unfold stream_pop in P. destruct (stashed s) as [cs|];
        [|inversion P; subst; exact W].
      destruct (cstring_length cs <=? 0)%nat; [inversion P; subst; exact W|].
      destruct (cstring_pop_ch cs) as [c' cs'].
      inversion P; subst. exact W. }
    destruct (negb (c =? EOF)); [exact W1|].
    destruct (nextch U opt (S (pe s1 - pc s1)) s1) as [[c2 s2] w2] eqn:N.
    cbn [fst snd]. apply (nextch_wf _ _ _ _ _ W1) in N. exact N.
  - intros s ch W. exact W.
Qed.

End GetFootprint.

Lemma stream_positions_stay_consistent_witness :
  let s := stream_init "<string>" [x61; x0d; x0a; x62] in
  let s1 := snd (fst (stream_next ctype no_options s)) in
  let s2 := snd (fst (stream_next ctype no_options s1)) in
  stream_wf s1 /\ stream_wf s2 /\
  (line s2, column s2, pc s2, line_note s2) = (2, 1, 3, 3)%nat.
Proof.
  intros s s1 s2.
  pose proof (stream_positions_stay_consistent ctype no_options)
    as (Hi & Hn & _).
  assert (W1 : stream_wf s1) by (apply Hn, Hi).
  assert (W2 : stream_wf s2) by (apply Hn, W1).
  split; [exact W1|]. split; [exact W2|]. reflexivity.
Defined.

Section Delivery.

Variable U : utils.
Variable opt : option_s.

Lemma nextch_delivers (fuel : nat) :
  forall s : stream_s,
  let ch := fst (fst (nextch U opt fuel s)) in
  ch <> CR /\ -1 <= ch < 256.
Proof.
  induction fuel as [|fuel IH]; intros s; cbn zeta; cbn [nextch].
  all: destruct (pe s <=? pc s)%nat;
    [destruct ((lastch s =? LF) || (lastch s =? EOF)); cbn;
     unfold CR, LF, EOF; (split; [discriminate|lia])|].
  all: pose proof (deref_range s (pc s)) as R.
  all: destruct (deref s (pc s) =? CR) eqn:Hcr;
    [cbn; unfold CR, LF; split; [discriminate|lia]|].
  all: apply Z.eqb_neq in Hcr.
  all: destruct (deref s (pc s) =? LF);
    [cbn; split; [exact Hcr|lia]|].
  all: destruct (deref s (pc s) =? BACKSLASH); [|cbn; split; [exact Hcr|lia]].
  all: destruct (next_splice_loop U opt _ _ _ _) as [[s1 w1]|q].
  all: try (destruct (q =? pe (set_pc s (pc s + 1)))%nat; cbn;
            unfold CR, LF; (split; [try discriminate; exact Hcr|lia])).
  - cbn. unfold CR, EOF. split; [discriminate|lia].
  - specialize (IH s1). cbn zeta in IH.
    destruct (nextch U opt fuel s1) as [[c2 s2] w2]. exact IH.
Qed.

(** A get delivers end-of-input or an unsigned byte, and a get that reads
    the buffer (nothing put back) never delivers a carriage return:
    carriage returns are canonicalized to newlines or spliced away. *)
Theorem get_delivers_canonical_characters (s : stream_s) :
  let ch := fst (fst (stream_next U opt s)) in
  -1 <= ch < 256 /\ (stash_is_empty s = true -> ch <> CR).
Proof.
  cbn zeta. destruct (stash_cases s) as [H|[cs [E H]]].
  - rewrite (stream_next_fresh U opt s H).
    pose proof (nextch_delivers (S (pe s - pc s)) s) as D. cbn zeta in D.
    destruct (nextch U opt (S (pe s - pc s)) s) as [[c s2] w].
    cbn [fst] in *. split; [apply D|intros _; apply D].
  - rewrite (stream_next_stashed U opt s cs E H). cbn [fst].
    pose proof (Z_of_byte_range (last cs x00)). split; [lia|].
    intros He. unfold stash_is_empty, cstring_length in He.
    rewrite E in He. apply Nat.eqb_eq in He. lia.
Qed.

Lemma stream_next_footprint (s : stream_s) :
  let ch := fst (fst (stream_next U opt s)) in
  let s' := snd (fst (stream_next U opt s)) in
  text s' = text s /\ fn s' = fn s /\
  (pc s <= pc s')%nat /\ (line s <= line s')%nat /\ lastch s' = ch.
Proof.
  cbn zeta. destruct (stash_cases s) as [H|[cs [E H]]].
  - rewrite (stream_next_fresh U opt s H).
    destruct (nextch U opt (S (pe s - pc s)) s) as [[c s2] w] eqn:N.
    apply nextch_inv in N; [|lia].
    destruct N as (Ht & _ & _ & Hfn & Hln & Hlt & Hge & _ & _).
    cbn [fst snd text fn pc line lastch set_lastch].
    repeat split; auto.
    destruct (Nat.lt_ge_cases (pc s) (pe s)) as [L|G].
    + specialize (Hlt L). lia.
    + destruct (Hge G) as [-> _]. lia.
  - rewrite (stream_next_stashed U opt s cs E H).
    cbn [fst snd text fn pc line lastch set_lastch set_stashed].
    repeat split; auto.
Qed.

(** No get changes the text or the name of the stream or moves the cursor
    or the line counter backwards, and every get records the character it
    delivers as the last delivered one. *)
Theorem get_never_goes_back (s : stream_s) :
  let ch := fst (fst (stream_next U opt s)) in
  let s' := snd (fst (stream_next U opt s)) in
  text s' = text s /\ fn s' = fn s /\
  (pc s <= pc s')%nat /\ (line s <= line s')%nat /\ lastch s' = ch.
Proof. exact (stream_next_footprint s). Qed.

End Delivery.

(** ** The line of a diagnostic *)

Lemma linenote_end_spec (l : list byte) :
  forall p : nat,
  exists k : nat,
    linenote_end l p = (p + k)%nat /\ (k <= length l)%nat /\
    Forall (fun b => Z_of_byte b <> NUL /\ Z_of_byte b <> CR /\
                     Z_of_byte b <> LF) (firstn k l) /\
    match nth_error l k with
    | Some b => Z_of_byte b = NUL \/ Z_of_byte b = CR \/ Z_of_byte b = LF
    | None => True
    end.
Proof.
  induction l as [|b l IH]; intros p; cbn [linenote_end].
  - exists 0%nat. cbn. repeat split; auto; try lia.
  - destruct (Z_of_byte b =? NUL) eqn:H0.
    { exists 0%nat. apply Z.eqb_eq in H0. cbn. repeat split; auto; try lia. }
    destruct (Z_of_byte b =? CR) eqn:H1.
    { exists 0%nat. apply Z.eqb_eq in H1. cbn. repeat split; auto; try lia. }
    destruct (Z_of_byte b =? LF) eqn:H2.
    { exists 0%nat. apply Z.eqb_eq in H2. cbn. repeat split; auto; try lia. }
    cbn [orb]. destruct (IH (p + 1)%nat) as (k & Hk & Hl & Hall & Hn).
    exists (S k). cbn [length firstn nth_error].
    apply Z.eqb_neq in H0, H1, H2.
    repeat split; auto; try lia.
Qed.

(** The line [linenote2cs] returns for a diagnostic is the longest run of
    bytes from the given line start that holds no carriage return, no line
    feed and no zero byte: it stops at the first of these or at the end of
    the text. *)
Theorem linenote2cs_is_the_line (s : stream_s) (linenote : nat) :
  let cs := linenote2cs s linenote in
  firstn (length cs) (skipn linenote (text s)) = cs /\
  Forall (fun b => Z_of_byte b <> NUL /\ Z_of_byte b <> CR /\
                   Z_of_byte b <> LF) cs /\
  match nth_error (text s) (linenote + length cs) with
  | Some b => Z_of_byte b = NUL \/ Z_of_byte b = CR \/ Z_of_byte b = LF
  | None => True
  end.
Proof.
  cbn zeta. unfold linenote2cs.
  destruct (linenote_end_spec (skipn linenote (text s)) linenote)
    as (k & Hk & Hl & Hall & Hn).
  rewrite Hk. replace (linenote + k - linenote)%nat with k by lia.
  assert (L : length (firstn k (skipn linenote (text s))) = k).
  { rewrite length_firstn. lia. }
  rewrite L. repeat split; auto.
  rewrite nth_error_skipn in Hn. exact Hn.
Qed.

Lemma get_delivers_canonical_characters_witness :
  let s := stream_init "<string>" [x0d; x61] in
  stash_is_empty s = true /\
  fst (fst (stream_next ctype no_options s)) <> CR.
Proof.
  cbv zeta. split; [reflexivity|].
  exact (proj2 (get_delivers_canonical_characters ctype no_options
                  (stream_init "<string>" [x0d; x61])) eq_refl).
Defined.

(** ** The stashes are out of reach of a scan *)

Create HintDb ks.

Lemma ks_ret {A : Type} (a : A) : keeps_snapshots (ret a).
Proof. intros l a' l' H. inversion H. reflexivity. Qed.

Lemma ks_crash {A : Type} : keeps_snapshots (@crash A).
Proof. intros l a l' H. discriminate H. Qed.

Lemma ks_exhausted {A : Type} : keeps_snapshots (@exhausted A).
Proof. intros l a l' H. discriminate H. Qed.

Lemma ks_bind {A B : Type} (m : M A) (k : A -> M B) :
  keeps_snapshots m -> (forall a, keeps_snapshots (k a)) ->
  keeps_snapshots (bind m k).
Proof.
  intros Hm Hk l b l' H. unfold bind in H.
  destruct (m l) as [a l1| |] eqn:E; try discriminate.
  rewrite (Hk a l1 b l' H). exact (Hm l a l1 E).
Qed.

#[local] Hint Resolve ks_ret ks_crash ks_exhausted : ks.

(** A primitive that returns the lexer with the reader, the token in
    progress or the diagnostics replaced. *)
Ltac ks_prim :=
  let H := fresh "H" in
  intros ? ? ? H; cbv beta in H;
  repeat match type of H with
         | context [match ?x with _ => _ end] => destruct x
         end;
  try discriminate H; inversion H; reflexivity.

Ltac ks :=
  repeat first
    [ solve [auto with ks]
    | apply ks_bind; [|intros ?; cbv beta]
    | match goal with
      | |- keeps_snapshots (if ?c then _ else _) => destruct c
      | |- keeps_snapshots (match ?x with _ => _ end) => destruct x
      end
    | solve [ks_prim] ].

Section KeepsSnapshots.

Variable U : utils.
Variable opt : option_s.

Lemma ks_rd_get : keeps_snapshots (rd_get U opt).
Proof. unfold rd_get. ks_prim. Qed.

Lemma ks_rd_peek : keeps_snapshots (rd_peek U).
Proof. unfold rd_peek. ks_prim. Qed.

Lemma ks_rd_unget (ch : Z) : keeps_snapshots (rd_unget ch).
Proof. unfold rd_unget. ks_prim. Qed.

Lemma ks_rd_try (ch : Z) : keeps_snapshots (rd_try U opt ch).
Proof. unfold rd_try. ks_prim. Qed.

Lemma ks_rd_test (ch : Z) : keeps_snapshots (rd_test U ch).
Proof. unfold rd_test. ks_prim. Qed.

Lemma ks_rd_is_empty : keeps_snapshots rd_is_empty.
Proof. unfold rd_is_empty. ks_prim. Qed.

Lemma ks_diag_with_tok (sev : severity) (msg : string) (args : list Z) :
  keeps_snapshots (diag_with_tok sev msg args).
Proof. unfold diag_with_tok. ks_prim. Qed.

Lemma ks_ERRORF (msg : string) (args : list Z) :
  keeps_snapshots (ERRORF msg args).
Proof. apply ks_diag_with_tok. Qed.

Lemma ks_WARNINGF (msg : string) (args : list Z) :
  keeps_snapshots (WARNINGF msg args).
Proof. apply ks_diag_with_tok. Qed.

Lemma ks_lexer_mark_loc : keeps_snapshots lexer_mark_loc.
Proof. unfold lexer_mark_loc. ks_prim. Qed.

Lemma ks_lexer_remark_loc : keeps_snapshots lexer_remark_loc.
Proof. unfold lexer_remark_loc. ks_prim. Qed.

Lemma ks_lexer_make_token (t : token_type_t) :
  keeps_snapshots (lexer_make_token t).
Proof. unfold lexer_make_token. ks_prim. Qed.

Lemma ks_cat_ch (ch : Z) : keeps_snapshots (cat_ch ch).
Proof. unfold cat_ch. ks_prim. Qed.

Lemma ks_append_utf8 (ch : Z) : keeps_snapshots (append_utf8 ch).
Proof. unfold append_utf8. ks_prim. Qed.

#[local] Hint Resolve ks_rd_get ks_rd_peek ks_rd_unget ks_rd_try ks_rd_test
  ks_rd_is_empty ks_ERRORF ks_WARNINGF ks_lexer_mark_loc
  ks_lexer_remark_loc ks_lexer_make_token ks_cat_ch ks_append_utf8 : ks.

Lemma ks_lexer_is_unc (ch : Z) : keeps_snapshots (lexer_is_unc U ch).
Proof. unfold lexer_is_unc. ks. Qed.

Lemma ks_skip_white_space_loop (n : nat) :
  keeps_snapshots (skip_white_space_loop U opt n).
Proof. induction n as [|n IH]; cbn [skip_white_space_loop]; ks. Qed.

Lemma ks_lexer_skip_white_space (n : nat) :
  keeps_snapshots (lexer_skip_white_space U opt n).
Proof.
  unfold lexer_skip_white_space. pose proof (ks_skip_white_space_loop n). ks.
Qed.

Lemma ks_skip_line_comment_loop (n : nat) :
  keeps_snapshots (skip_line_comment_loop U opt n).
Proof. induction n as [|n IH]; cbn [skip_line_comment_loop]; ks. Qed.

Lemma ks_skip_block_comment_loop (n : nat) :
  keeps_snapshots (skip_block_comment_loop U opt n).
Proof. induction n as [|n IH]; cbn [skip_block_comment_loop]; ks. Qed.

#[local] Hint Resolve ks_lexer_is_unc ks_lexer_skip_white_space
  ks_skip_line_comment_loop ks_skip_block_comment_loop : ks.

Lemma ks_lexer_skip_comment (n : nat) :
  keeps_snapshots (lexer_skip_comment U opt n).
Proof. unfold lexer_skip_comment. ks. Qed.

Lemma ks_parse_hex_escaped_loop (n : nat) :
  forall hex ch : Z, keeps_snapshots (parse_hex_escaped_loop U opt n hex ch).
Proof. induction n as [|n IH]; intros hex ch; cbn [parse_hex_escaped_loop]; ks. Qed.

#[local] Hint Resolve ks_lexer_skip_comment ks_parse_hex_escaped_loop : ks.

Lemma ks_lexer_parse_hex_escaped (n : nat) :
  keeps_snapshots (lexer_parse_hex_escaped U opt n).
Proof. unfold lexer_parse_hex_escaped. ks. Qed.

Lemma ks_lexer_parse_oct_escaped (ch : Z) :
  keeps_snapshots (lexer_parse_oct_escaped U opt ch).
Proof. unfold lexer_parse_oct_escaped. cbv zeta. ks. Qed.

Lemma ks_parse_unc_loop (rounds : nat) :
  forall u : Z, keeps_snapshots (parse_unc_loop U opt rounds u).
Proof. induction rounds as [|n IH]; intros u; cbn [parse_unc_loop]; ks. Qed.

#[local] Hint Resolve ks_lexer_parse_hex_escaped ks_lexer_parse_oct_escaped
  ks_parse_unc_loop : ks.

Lemma ks_lexer_parse_unc (len : nat) :
  keeps_snapshots (lexer_parse_unc U opt len).
Proof. unfold lexer_parse_unc. ks. Qed.

#[local] Hint Resolve ks_lexer_parse_unc : ks.

Lemma ks_lexer_parse_escaped (n : nat) :
  keeps_snapshots (lexer_parse_escaped U opt n).
Proof. unfold lexer_parse_escaped. ks. Qed.

Lemma ks_parse_number_loop (n : nat) :
  forall prev : Z, keeps_snapshots (parse_number_loop U opt n prev).
Proof. induction n as [|n IH]; intros prev; cbn [parse_number_loop]; ks. Qed.

#[local] Hint Resolve ks_lexer_parse_escaped ks_parse_number_loop : ks.

Lemma ks_lexer_parse_number (n : nat) (ch : Z) :
  keeps_snapshots (lexer_parse_number U opt n ch).
Proof. unfold lexer_parse_number. ks. Qed.

Lemma ks_parse_character_loop (n : nat) :
  forall parsed : bool,
  keeps_snapshots (parse_character_loop U opt n parsed).
Proof.
  induction n as [|n IH]; intros parsed; cbn [parse_character_loop]; ks.
Qed.

Lemma ks_parse_string_loop (n : nat) :
  keeps_snapshots (parse_string_loop U opt n).
Proof. induction n as [|n IH]; cbn [parse_string_loop]; ks. Qed.

Lemma ks_parse_identifier_loop (n : nat) :
  keeps_snapshots (parse_identifier_loop U opt n).
Proof. induction n as [|n IH]; cbn [parse_identifier_loop]; ks. Qed.

#[local] Hint Resolve ks_lexer_parse_number ks_parse_character_loop
  ks_parse_string_loop ks_parse_identifier_loop : ks.

Lemma ks_lexer_parse_character (n : nat) (ent : encoding_type_t) :
  keeps_snapshots (lexer_parse_character U opt n ent).
Proof. unfold lexer_parse_character. ks. Qed.

Lemma ks_lexer_parse_string (n : nat) (ent : encoding_type_t) :
  keeps_snapshots (lexer_parse_string U opt n ent).
Proof. unfold lexer_parse_string. ks. Qed.

Lemma ks_lexer_parse_identifier (n : nat) :
  keeps_snapshots (lexer_parse_identifier U opt n).
Proof. unfold lexer_parse_identifier. ks. Qed.

Lemma ks_lexer_parse_encoding (ch : Z) :
  keeps_snapshots (lexer_parse_encoding U opt ch).
Proof. unfold lexer_parse_encoding. ks. Qed.

Lemma ks_try_token (ch : Z) (a b : token_type_t) :
  keeps_snapshots (try_token U opt ch a b).
Proof. unfold try_token. ks. Qed.

#[local] Hint Resolve ks_lexer_parse_character ks_lexer_parse_string
  ks_lexer_parse_identifier ks_lexer_parse_encoding ks_try_token : ks.

Lemma ks_lexer_scan_switch (n : nat) (ch : Z) :
  keeps_snapshots (lexer_scan_switch U opt n ch).
Proof. unfold lexer_scan_switch. ks. Qed.

#[local] Hint Resolve ks_lexer_scan_switch : ks.

Lemma ks_lexer_scan (n : nat) : keeps_snapshots (lexer_scan U opt n).
Proof. unfold lexer_scan. ks. Qed.

#[local] Hint Resolve ks_lexer_scan : ks.

Lemma ks_lexer_next_loop (n : nat) :
  forall (t : option token_s) (leading : nat),
  keeps_snapshots (lexer_next_loop U opt n t leading).
Proof.
  induction n as [|n IH]; intros t leading;
    destruct t as [t|]; cbn [lexer_next_loop]; ks.
Qed.

End KeepsSnapshots.

(** ** The token stash *)

Section Stash.

Variable U : utils.
Variable opt : option_s.
Variable token_words : nat.

Lemma set_snapshots_same (l : lexer_s) (ss : list (list token_s)) :
  set_snapshots (set_snapshots l ss) (snapshots l) = l.
Proof. now destruct l. Qed.

Lemma lexer_untread_pushes (t : token_s) (l : lexer_s)
  (top : list token_s) (rest : list (list token_s)) :
  snapshots l = top :: rest -> type t <> TOKEN_END ->
  lexer_untread t l = Ok true (set_snapshots l ((t :: top) :: rest)).
Proof.
  intros Hs Ht. unfold lexer_untread. rewrite Hs.
  destruct (type t); try reflexivity. congruence.
Qed.

Lemma lexer_untreads_push (ts : list token_s) :
  forall (l : lexer_s) (top : list token_s) (rest : list (list token_s)),
  snapshots l = top :: rest ->
  Forall (fun t => type t <> TOKEN_END) ts ->
  lexer_untreads ts l = Ok tt (set_snapshots l ((rev ts ++ top) :: rest)).
Proof.
  induction ts as [|t ts IH]; intros l top rest Hs Hall.
  - cbn. unfold ret. rewrite <- Hs. now destruct l.
  - inversion Hall as [|t' ts' Ht Hall']; subst.
    cbn [lexer_untreads]. unfold bind.
    rewrite (lexer_untread_pushes t l top rest Hs Ht).
    rewrite (IH (set_snapshots l ((t :: top) :: rest)) (t :: top) rest
               eq_refl Hall').
    cbn [rev]. rewrite <- app_assoc. reflexivity.
Qed.

(** The word read for a stash of one token is that token. *)
Lemma lexer_next_single (n : nat) (l : lexer_s) (t : token_s)
  (rest : list (list token_s)) :
  snapshots l = [t] :: rest ->
  lexer_next U opt token_words n l = Ok t (set_snapshots l ([] :: rest)).
Proof.
  intros Hs. unfold lexer_next, stash_word. rewrite Hs. cbn [length].
  rewrite Nat.Div0.mod_0_l, Nat.Div0.div_0_l. reflexivity.
Qed.

(** The word read for a stash of two or more tokens is no part of the
    element pushed last. *)
Lemma stash_word_deeper (t t1 : token_s) (top : list token_s) :
  (2 <= token_words)%nat ->
  (length (t1 :: top) / token_words < length (t1 :: top))%nat /\
  stash_word token_words (t :: t1 :: top) (length (t1 :: top))
  = if (length (t1 :: top) mod token_words =? 0)%nat
    then Some (nth (length (t1 :: top) / token_words) (rev (t1 :: top)) t)
    else None.
Proof.
  intros HW.
  assert (D : (length (t1 :: top) / token_words < length (t1 :: top))%nat).
  { apply Nat.div_lt; cbn [length]; lia. }
  split; [exact D|]. unfold stash_word.
  destruct (length (t1 :: top) mod token_words =? 0)%nat; [|reflexivity].
  change (rev (t :: t1 :: top)) with (rev (t1 :: top) ++ [t]).
  rewrite nth_error_app1 by (rewrite length_rev; exact D).
  apply nth_error_nth'. rewrite length_rev. exact D.
Qed.

(** A token pushed back with [lexer_untread] is the one the following
    [lexer_next] returns only when the active stash was empty; the lexer
    is then as it was before.  When the stash held tokens already, the
    word [lexer_next] reads is not the one [lexer_untread] wrote: it is
    the start of an element pushed earlier when the size of a token, in
    words, divides the number of tokens the stash held, and the token of
    that element is returned in place of the one pushed back, which is
    dropped; otherwise the word was never written and the result is not
    defined. *)
Theorem untread_then_next_returns_the_token_at_depth_one
  (n : nat) (t : token_s) (l : lexer_s) (top : list token_s)
  (rest : list (list token_s)) :
  snapshots l = top :: rest ->
  type t <> TOKEN_END ->
  (2 <= token_words)%nat ->
  (lexer_untread t;; lexer_next U opt token_words n) l
  = match top with
    | [] => Ok t l
    | _ :: _ =>
        if (length top mod token_words =? 0)%nat
        then Ok (nth (length top / token_words) (rev top) t) l
        else Crash
    end /\
  (top = [] \/ (length top / token_words < length top)%nat).
Proof.
  intros Hs Ht HW. unfold bind.
  rewrite (lexer_untread_pushes t l top rest Hs Ht).
  destruct top as [|t1 top].
  - split; [|left; reflexivity].
    rewrite (lexer_next_single n (set_snapshots l ([t] :: rest)) t rest
               eq_refl).
    cbn [set_snapshots reader tok diag]. rewrite <- Hs. now destruct l.
  - destruct (stash_word_deeper t t1 top HW) as [D E].
    split; [|right; exact D].
    unfold lexer_next. cbn [snapshots set_snapshots]. rewrite E.
    destruct (length (t1 :: top) mod token_words =? 0)%nat; [|reflexivity].
    cbn [set_snapshots reader tok diag]. rewrite <- Hs. now destruct l.
Qed.

(** A [lexer_next] that scans leaves the stashes as they were. *)
Lemma lexer_next_scan_keeps_stashes (n : nat) (l l' : lexer_s)
  (t : token_s) (rest : list (list token_s)) :
  snapshots l = [] :: rest ->
  lexer_next U opt token_words n l = Ok t l' ->
  snapshots l' = [] :: rest.
Proof.
  intros Hs H. unfold lexer_next in H. rewrite Hs in H.
  destruct (reader_line (reader l)) as [ln|]; [|discriminate].
  rewrite <- Hs. revert H. generalize t l'. generalize l.
  change (keeps_snapshots
            (t0 <- lexer_scan U opt n;;
             r <- lexer_next_loop U opt n t0 0;;
             (let '(t1, leading) := r in
              ret (set_leading_space
                     (set_begin_of_line t1 (ln =? 1)%nat) leading)))).
  apply ks_bind; [apply ks_lexer_scan|]. intros t0.
  apply ks_bind; [apply ks_lexer_next_loop|]. intros [t1 leading].
  apply ks_ret.
Qed.

(** A peek on an active stash of at most one token that returns a token
    other than the end token leaves it alone on the active stash: peeking
    again returns the same token and changes nothing, and the next that
    follows returns it without reading. *)
Theorem lexer_peek_is_idempotent
  (n : nat) (l l1 : lexer_s) (t : token_s) (top : list token_s)
  (rest : list (list token_s)) :
  snapshots l = top :: rest ->
  (length top <= 1)%nat ->
  lexer_peek U opt token_words n l = Ok t l1 ->
  type t <> TOKEN_END ->
  lexer_peek U opt token_words n l1 = Ok t l1 /\
  exists l2 : lexer_s,
    lexer_next U opt token_words n l1 = Ok t l2 /\
    reader l2 = reader l1 /\ diag l2 = diag l1 /\ tok l2 = tok l1.
Proof.
  intros Hs Hlen H Ht. unfold lexer_peek, bind in H.
  destruct (lexer_next U opt token_words n l) as [t0 l0| |] eqn:N;
    try discriminate.
  assert (S0 : snapshots l0 = [] :: rest).
  { destruct top as [|t1 [|t2 top]]; [| |cbn in Hlen; lia].
    - exact (lexer_next_scan_keeps_stashes n l l0 t0 rest Hs N).
    - rewrite (lexer_next_single n l t1 rest Hs) in N.
      inversion N; subst. reflexivity. }
  destruct (token_type_t_beq (type t0) TOKEN_END) eqn:B; cbn [negb] in H.
  - unfold ret in H. inversion H; subst; clear H.
    destruct (type t); try discriminate B. congruence.
  - rewrite (lexer_untread_pushes t0 l0 [] rest S0) in H
      by (intros E; rewrite E in B; discriminate B).
    unfold ret in H. inversion H; subst; clear H.
    assert (P : lexer_next U opt token_words n
                  (set_snapshots l0 ([t] :: rest))
                = Ok t (set_snapshots l0 ([] :: rest))).
    { rewrite (lexer_next_single n (set_snapshots l0 ([t] :: rest)) t rest
                 eq_refl).
      now destruct l0. }
    split.
    + unfold lexer_peek, bind. rewrite P, B. cbn [negb].
      rewrite (lexer_untread_pushes t (set_snapshots l0 ([] :: rest))
                 [] rest eq_refl Ht).
      unfold ret. now destruct l0.
    + eexists. split; [exact P|]. repeat split.
Qed.

(** Whatever is pushed back between a stash and the matching unstash is
    dropped by the unstash, which leaves the lexer as it was before the
    stash. *)
Theorem stash_untread_unstash_restores
  (ts : list token_s) (l : lexer_s) :
  Forall (fun t => type t <> TOKEN_END) ts ->
  (lexer_stash;; lexer_untreads ts;; lexer_unstash) l = Ok tt l.
Proof.
  intros Hall. unfold bind at 1. unfold lexer_stash.
  unfold bind.
  rewrite (lexer_untreads_push ts (set_snapshots l ([] :: snapshots l))
             [] (snapshots l) eq_refl Hall).
  unfold lexer_unstash. cbn [snapshots set_snapshots].
  now destruct l.
Qed.

End Stash.

Lemma untread_then_next_returns_the_token_at_depth_one_witness :
  let l := lexer_of "x" in
  let t := sample_token TOKEN_PLUS in
  (lexer_untread t;; lexer_next ctype no_options 6 0) l = Ok t l /\
  (lexer_untread (sample_token TOKEN_SEMI);; lexer_untread t;;
   lexer_next ctype no_options 6 0) l = Crash.
Proof.
  intros l t.
  assert (Ht : type t <> TOKEN_END) by discriminate.
  split.
  - exact (proj1 (untread_then_next_returns_the_token_at_depth_one
                    ctype no_options 6 0 t l [] [] eq_refl Ht ltac:(lia))).
  - unfold bind at 1.
    change (lexer_untread (sample_token TOKEN_SEMI) l)
      with (Ok true (set_snapshots l [[sample_token TOKEN_SEMI]])).
    cbv iota beta.
    exact (proj1 (untread_then_next_returns_the_token_at_depth_one
                    ctype no_options 6 0 t
                    (set_snapshots l [[sample_token TOKEN_SEMI]])
                    [sample_token TOKEN_SEMI] [] eq_refl Ht ltac:(lia))).
Defined.

Lemma lexer_peek_is_idempotent_witness :
  exists (t : token_s) (l1 : lexer_s),
    snapshots (lexer_of "x+") = [[]] /\
    lexer_peek ctype no_options 6 3 (lexer_of "x+") = Ok t l1 /\
    (type t, literal_bytes t) = (TOKEN_IDENTIFIER, list_byte_of_string "x") /\
    lexer_peek ctype no_options 6 3 l1 = Ok t l1.
Proof.
  let v := eval vm_compute in
    (lexer_peek ctype no_options 6 3 (lexer_of "x+")) in
  match v with Ok ?t ?l => pose (t1 := t); pose (l1 := l) end.
  assert (E : lexer_peek ctype no_options 6 3 (lexer_of "x+") = Ok t1 l1)
    by (vm_compute; reflexivity).
  assert (N : type t1 <> TOKEN_END) by discriminate.
  exists t1, l1. split; [reflexivity|]. split; [exact E|].
  split; [reflexivity|].
  exact (proj1 (lexer_peek_is_idempotent ctype no_options 6 3
                  (lexer_of "x+") l1 t1 [] [] eq_refl ltac:(cbn; lia) E N)).
Defined.

Lemma stash_untread_unstash_restores_witness :
  let ts := [sample_token TOKEN_PLUS; sample_token TOKEN_SEMI] in
  Forall (fun t => type t <> TOKEN_END) ts /\
  (lexer_stash;; lexer_untreads ts;; lexer_unstash) (lexer_of "x")
  = Ok tt (lexer_of "x").
Proof.
  intros ts.
  assert (H : Forall (fun t => type t <> TOKEN_END) ts).
  { repeat constructor; discriminate. }
  split; [exact H|].
  exact (stash_untread_unstash_restores ts (lexer_of "x") H).
Defined.

(** ** White space and line comments *)

Section Trivia.

Variable U : utils.
Variable opt : option_s.

Hypothesis ISSPACE_EOF : ISSPACE U EOF = false.



Lemma stream_next_not_EOF (s : stream_s) :
  lastch s <> LF -> lastch s <> EOF ->
  fst (fst (stream_next U opt s)) <> EOF.
Proof.
  intros H1 H2.
  destruct (stash_cases s) as [H|[cs [E H]]].
  - destruct (stream_next U opt s) as [[ch s'] w] eqn:N.
    pose proof (stream_next_inv U opt s ch s' w H N)
      as (_ & _ & _ & _ & _ & _ & He & _).
    cbn [fst]. intros C. destruct (He C); contradiction.
  - rewrite (stream_next_stashed U opt s cs E H). cbn [fst].
    pose proof (Z_of_byte_range (last cs x00)). unfold EOF. lia.
Qed.

Lemma skip_line_comment_loop_run (n : nat) :
  forall (l : lexer_s) (s : stream_s) (rest : list stream_s),
  streams (reader l) = s :: rest ->
  lastch s <> LF -> lastch s <> EOF ->
  (reader_measure (reader l) < n)%nat ->
  exists (k : nat) (l' : lexer_s),
    let '(chs, r', w) := reader_gets U opt k (reader l) in
    Forall (fun c => c <> LF) chs /\
    fst (fst (reader_get U opt r')) = LF /\
    skip_line_comment_loop U opt n l = Ok true l' /\
    reader l' = r' /\ diag l' = diag l ++ w /\ tok l' = tok l.
Proof.
  induction n as [|n IH]; intros l s rest Hr H1 H2 Hn; [lia|].
  cbn [skip_line_comment_loop]. unfold bind at 1. unfold rd_is_empty.
  unfold reader_is_empty. rewrite Hr. cbn [length Nat.eqb].
  unfold bind at 1. unfold rd_peek.
  rewrite (reader_peek_get U opt (reader l)).
  destruct (reader_get U opt (reader l)) as [[c r1] w1] eqn:G.
  cbn [fst]. destruct (c =? LF) eqn:C.
  - apply Z.eqb_eq in C. subst c.
    exists 0%nat, (set_reader l (reader l)). cbn [reader_gets].
    rewrite G. cbn [fst]. rewrite set_reader_same.
    repeat split; auto. now rewrite app_nil_r.
  - apply Z.eqb_neq in C.
    assert (Hs : exists s1, r1 = mkReader (s1 :: rest) /\ lastch s1 = c /\
                            c <> EOF).
    { unfold reader_get in G. rewrite Hr in G.
      pose proof (stream_next_not_EOF s H1 H2) as NE.
      pose proof (stream_next_footprint U opt s) as M. cbn zeta in M.
      destruct (stream_next U opt s) as [[c' s1] w'].
      inversion G; subst. exists s1. cbn [fst snd] in *.
      repeat split; auto. apply M. }
    destruct Hs as (s1 & -> & Hl & Hc).
    pose proof (reader_get_measure U opt _ _ _ _ G Hc) as Hm.
    unfold bind at 1. unfold rd_get at 1. cbn [reader set_reader]. rewrite G.
    set (l2 := emit _ w1).
    destruct (IH l2 s1 rest) as [k [l' Hk]]; try reflexivity;
      try congruence.
    { subst l2. cbn [reader emit set_reader]. lia. }
    exists (S k), l'. cbn [reader_gets]. rewrite G.
    subst l2. cbn [reader emit set_reader] in Hk.
    destruct (reader_gets U opt k (mkReader (s1 :: rest))) as [[chs r'] w'].
    destruct Hk as (Hall & Hstop & Hrun & Hr' & Hd & Htok).
    repeat split; auto.
    rewrite Hd. cbn [diag emit set_reader]. now rewrite app_assoc.
Qed.

Lemma literal_bytes_dup (tk : token_s) (cs : cstring) :
  literals tk = Some cs -> literal_bytes (token_dup tk) = cs.
Proof.
  intros H. unfold literal_bytes, token_dup. cbn [literals]. rewrite H.
  unfold cstring_length. destruct cs; reflexivity.
Qed.


(** A line comment: when the scan has read a slash and the next character
    is a slash too, the comment is skipped up to but not including the
    newline that ends it, whatever the text, and the [TOKEN_COMMENT]
    returned carries no byte of the comment. *)
Theorem line_comment_stops_before_newline
  (n : nat) (l : lexer_s) (s : stream_s) (rest : list stream_s)
  (cs : cstring) :
  streams (reader l) = s :: rest ->
  fst (fst (reader_get U opt (reader l))) = chr "/" ->
  literals (tok l) = Some cs ->
  (reader_measure (reader l) < n)%nat ->
  exists (k : nat) (t : token_s) (l' : lexer_s),
    let '(chs, r', w) := reader_gets U opt (S k) (reader l) in
    hd EOF chs = chr "/" /\ Forall (fun c => c <> LF) (tl chs) /\
    fst (fst (reader_get U opt r')) = LF /\
    lexer_scan_switch U opt n (chr "/") l = Ok (Some t) l' /\
    type t = TOKEN_COMMENT /\ literal_bytes t = cs /\
    reader l' = r' /\ diag l' = diag l ++ w.
Proof.
  intros Hr Hnext Hcs Hn.
  change (lexer_scan_switch U opt n (chr "/") l)
    with ((t1 <- rd_test U (chr "/");;
           t2 <- rd_test U (chr "*");;
           if t1 || t2 then
             lexer_skip_comment U opt n;; lexer_make_token TOKEN_COMMENT
           else try_token U opt (chr "=") TOKEN_SLASHEQUAL TOKEN_SLASH) l).
  unfold bind at 1. unfold rd_test, reader_test.
  rewrite (reader_peek_get U opt (reader l)), Hnext, set_reader_same.
  change (chr "/" =? chr "/") with true. cbv iota.
  unfold bind at 1. rewrite (reader_peek_get U opt (reader l)).
  rewrite set_reader_same. cbn [orb].
  unfold bind at 1. unfold lexer_skip_comment.
  unfold bind at 1. unfold rd_try, reader_try.
  rewrite (reader_peek_get U opt (reader l)), Hnext.
  change (chr "/" =? chr "/") with true. cbv iota.
  destruct (reader_get U opt (reader l)) as [[c r1] w1] eqn:G.
  cbn [fst] in Hnext. subst c.
  assert (Hs : exists s1, r1 = mkReader (s1 :: rest) /\ lastch s1 = chr "/").
  { unfold reader_get in G. rewrite Hr in G.
    pose proof (stream_next_footprint U opt s) as M. cbn zeta in M.
    destruct (stream_next U opt s) as [[c' s1] w'].
    inversion G; subst. exists s1. cbn [fst snd] in *.
    split; [reflexivity|apply M]. }
  destruct Hs as (s1 & -> & Hl).
  assert (Hc : chr "/" <> EOF) by discriminate.
  pose proof (reader_get_measure U opt _ _ _ _ G Hc) as Hm.
  set (l1 := emit _ w1).
  destruct (skip_line_comment_loop_run n l1 s1 rest) as [k [l2 Hk]];
    try reflexivity.
  { rewrite Hl. discriminate. }
  { rewrite Hl. discriminate. }
  { subst l1. cbn [reader emit set_reader]. lia. }
  subst l1. cbn [reader emit set_reader diag] in Hk.
  destruct (reader_gets U opt k (mkReader (s1 :: rest)))
    as [[chs r'] w'] eqn:Gk.
  destruct Hk as (Hall & Hstop & Hrun & Hr' & Hd & Htok).
  unfold bind. rewrite Hrun. unfold ret.
  unfold lexer_make_token, token_init. cbn [literals set_type].
  cbn [tok emit set_reader] in Htok. rewrite Htok, Hcs.
  eexists k, _, _. cbn [reader_gets]. rewrite G, Gk. cbn [hd tl].
  repeat split; try eassumption; try reflexivity.
  - apply literal_bytes_dup. cbn [literals set_type]. exact Hcs.
  - cbn [diag set_tok]. rewrite Hd. now rewrite app_assoc.
Qed.

End Trivia.


Lemma line_comment_stops_before_newline_witness :
  let l := match rd_get ctype no_options (lexer_of "// a") with
           | Ok _ l => l
           | _ => lexer_of "// a"
           end in
  fst (fst (reader_get ctype no_options (reader l))) = chr "/" /\
  literals (tok l) = Some [] /\
  (reader_measure (reader l) < 10)%nat /\
  returned (lexer_scan_switch ctype no_options 10 (chr "/") l)
  = Some (Some (mkToken TOKEN_COMMENT None source_location_create
                        false 0 None)) /\
  exists (k : nat) (t : token_s) (l' : lexer_s),
    let '(chs, r', w) := reader_gets ctype no_options (S k) (reader l) in
    hd EOF chs = chr "/" /\ Forall (fun c => c <> LF) (tl chs) /\
    fst (fst (reader_get ctype no_options r')) = LF /\
    lexer_scan_switch ctype no_options 10 (chr "/") l = Ok (Some t) l' /\
    type t = TOKEN_COMMENT /\ literal_bytes t = [] /\
    reader l' = r' /\ diag l' = diag l ++ w.
Proof.
  intros l.
  assert (H1 : fst (fst (reader_get ctype no_options (reader l))) = chr "/")
    by reflexivity.
  assert (H2 : literals (tok l) = Some []) by reflexivity.
  assert (H3 : (reader_measure (reader l) < 10)%nat) by (vm_compute; lia).
  split; [exact H1|]. split; [exact H2|]. split; [exact H3|].
  split; [vm_compute; reflexivity|].
  exact (line_comment_stops_before_newline ctype no_options 10 l
           _ [] [] eq_refl H1 H2 H3).
Defined.

(** ** String literals and character constants *)

Section Literals.

Variable U : utils.
Variable opt : option_s.

Lemma reader_gets_cons (k : nat) (r : reader_s) (a : Z) (chs : list Z)
  (r' : reader_s) (w : list diagnostic) :
  reader_gets U opt (S k) r = (a :: chs, r', w) ->
  exists r1 w1 w2,
    reader_get U opt r = (a, r1, w1) /\
    reader_gets U opt k r1 = (chs, r', w2) /\ w = w1 ++ w2.
Proof.
  cbn [reader_gets].
  destruct (reader_get U opt r) as [[c0 r1] w1].
  destruct (reader_gets U opt k r1) as [[chs2 r2] w2] eqn:G2.
  intros E. inversion E; subst. exists r1, w1, w2. repeat split.
  exact G2.
Qed.

Lemma parse_string_loop_plain (chs : list Z) :
  forall (n : nat) (l : lexer_s) (cs : cstring) (c : Z) (r' : reader_s)
         (w : list diagnostic),
  literals (tok l) = Some cs ->
  reader_gets U opt (length chs + 1) (reader l) = (chs ++ [c], r', w) ->
  Forall (fun a => a <> DQUOTE /\ a <> LF /\ a <> EOF /\ a <> BACKSLASH) chs ->
  c = DQUOTE \/ c = LF \/ c = EOF ->
  (length chs < n)%nat ->
  exists l' : lexer_s,
    parse_string_loop U opt n l = Ok (Some c) l' /\
    reader l' = r' /\ diag l' = diag l ++ w /\
    tok l' = set_literals (tok l) (Some (cs ++ map byte_of_Z chs)).
Proof.
  induction chs as [|a chs IH]; intros n l cs c r' w Hcs Hg Hall Hc Hn;
    (destruct n as [|n]; [cbn [length] in Hn; lia|]);
    cbn [length Nat.add app] in Hg;
    apply reader_gets_cons in Hg;
    destruct Hg as (r1 & w1 & w2 & G & Gk & ->);
    cbn [parse_string_loop]; unfold bind at 1; unfold rd_get; rewrite G.
  - cbn [reader_gets] in Gk. inversion Gk; subst; clear Gk.
    assert (T : (c =? DQUOTE) || (c =? LF) || (c =? EOF) = true).
    { destruct Hc as [-> | [-> | ->]]; reflexivity. }
    rewrite T. unfold ret. eexists. split; [reflexivity|].
    cbn [reader diag tok emit set_reader]. rewrite !app_nil_r.
    repeat split. destruct (tok l); cbn in *. now subst.
  - inversion Hall as [|a' chs' (A1 & A2 & A3 & A4) Hall']; subst.
    apply Z.eqb_neq in A1, A2, A3, A4. rewrite A1, A2, A3, A4. cbn [orb].
    unfold bind at 1. unfold cat_ch. cbn [tok emit set_reader]. rewrite Hcs.
    set (l2 := set_tok _ _).
    destruct (IH n l2 (cstring_push_ch cs a) c r' w2) as (l' & Hrun & Hr & Hd & Ht);
      auto.
    { cbn [length] in Hn. lia. }
    exists l'. split; [exact Hrun|].
    subst l2. cbn [diag tok set_tok emit set_reader] in *.
    repeat split; auto.
    + rewrite Hd. now rewrite app_assoc.
    + rewrite Ht. unfold set_literals, cstring_push_ch. cbn.
      now rewrite <- app_assoc.
Qed.

(** A string literal without backslashes: when the scan has read the
    opening double quote and the characters delivered next are [chs]
    followed by [c], where no character of [chs] is a double quote, a
    newline, end-of-input or a backslash and [c] is one of the first
    three, the token is a [TOKEN_CONSTANT_STRING] whose literal is [chs];
    [c] is consumed too, and the diagnostic for the unterminated literal is
    emitted exactly when [c] is not the closing quote. *)
Theorem string_literal_without_escapes
  (n : nat) (l : lexer_s) (cs : cstring) (chs : list Z) (c : Z)
  (r' : reader_s) (w : list diagnostic) :
  literals (tok l) = Some cs ->
  reader_gets U opt (length chs + 1) (reader l) = (chs ++ [c], r', w) ->
  Forall (fun a => a <> DQUOTE /\ a <> LF /\ a <> EOF /\ a <> BACKSLASH) chs ->
  c = DQUOTE \/ c = LF \/ c = EOF ->
  (length chs < n)%nat ->
  exists (t : token_s) (l' : lexer_s),
    lexer_scan_switch U opt n DQUOTE l = Ok (Some t) l' /\
    type t = TOKEN_CONSTANT_STRING /\
    literal_bytes t = cs ++ map byte_of_Z chs /\
    reader l' = r' /\
    diag l' = diag l ++ w ++
      (if c =? DQUOTE then []
       else [mkDiag Error "unterminated string literal" []
                    (loc_line (loc (tok l))) (loc_column (loc (tok l)))]).
Proof.
  intros Hcs Hg Hall Hc Hn.
  change (lexer_scan_switch U opt n DQUOTE l)
    with (lexer_parse_string U opt n ENCODING_NONE l).
  destruct (parse_string_loop_plain chs n l cs c r' w Hcs Hg Hall Hc Hn)
    as (l1 & Hrun & Hr & Hd & Ht).
  unfold lexer_parse_string, bind. rewrite Hrun.
  destruct (c =? DQUOTE); cbn [negb].
  - unfold ret, lexer_make_token, token_init.
    cbn [literals set_type]. rewrite Ht. cbn [literals set_literals].
    eexists _, _. repeat split.
    + apply literal_bytes_dup. reflexivity.
    + exact Hr.
    + cbn [diag set_tok]. now rewrite Hd, app_nil_r.
  - unfold ERRORF, diag_with_tok, lexer_make_token, token_init.
    cbn [literals set_type tok emit]. rewrite Ht. cbn [literals set_literals].
    eexists _, _. repeat split.
    + apply literal_bytes_dup. reflexivity.
    + exact Hr.
    + cbn [diag set_tok emit loc]. now rewrite Hd, app_assoc.
Qed.

Lemma parse_character_loop_parsed (chs : list Z) :
  forall (n : nat) (l : lexer_s) (c : Z) (r' : reader_s)
         (w : list diagnostic),
  reader_gets U opt (length chs + 1) (reader l) = (chs ++ [c], r', w) ->
  Forall (fun a => a <> QUOTE /\ a <> LF /\ a <> EOF) chs ->
  c = QUOTE \/ c = LF \/ c = EOF ->
  (length chs < n)%nat ->
  exists l' : lexer_s,
    parse_character_loop U opt n true l = Ok (Some (c, true)) l' /\
    reader l' = r' /\ diag l' = diag l ++ w /\ tok l' = tok l.
Proof.
  induction chs as [|a chs IH]; intros n l c r' w Hg Hall Hc Hn;
    (destruct n as [|n]; [cbn [length] in Hn; lia|]);
    cbn [length Nat.add app] in Hg;
    apply reader_gets_cons in Hg;
    destruct Hg as (r1 & w1 & w2 & G & Gk & ->);
    cbn [parse_character_loop]; unfold bind at 1; unfold rd_get; rewrite G.
  - cbn [reader_gets] in Gk. inversion Gk; subst; clear Gk.
    assert (T : (c =? QUOTE) || (c =? LF) || (c =? EOF) = true).
    { destruct Hc as [-> | [-> | ->]]; reflexivity. }
    rewrite T. unfold ret. eexists. split; [reflexivity|].
    cbn [reader diag tok emit set_reader]. rewrite !app_nil_r. auto.
  - inversion Hall as [|a' chs' (A1 & A2 & A3) Hall']; subst.
    apply Z.eqb_neq in A1, A2, A3. rewrite A1, A2, A3. cbn [orb].
    set (l2 := emit _ w1).
    destruct (IH n l2 c r' w2) as (l' & Hrun & Hr & Hd & Ht); auto.
    { cbn [length] in Hn. lia. }
    exists l'. split; [exact Hrun|].
    subst l2. cbn [diag tok emit set_reader] in *.
    repeat split; auto. rewrite Hd. now rewrite app_assoc.
Qed.

(** A character constant keeps its first character only: after the
    opening quote, with a first character that is no backslash, every
    further character up to the closing quote, the newline or the end of
    input is read and dropped, backslashes included.  The missing
    terminator is reported exactly when the run does not end in a quote,
    the empty constant exactly when the run is empty. *)
Theorem character_constant_keeps_first_character
  (n : nat) (l : lexer_s) (cs : cstring) (chs : list Z) (c : Z)
  (r' : reader_s) (w : list diagnostic) :
  literals (tok l) = Some cs ->
  reader_gets U opt (length chs + 1) (reader l) = (chs ++ [c], r', w) ->
  Forall (fun a => a <> QUOTE /\ a <> LF /\ a <> EOF) chs ->
  hd 0 chs <> BACKSLASH ->
  c = QUOTE \/ c = LF \/ c = EOF ->
  (length chs < n)%nat ->
  exists (t : token_s) (l' : lexer_s),
    lexer_scan_switch U opt n QUOTE l = Ok (Some t) l' /\
    type t = TOKEN_CONSTANT_CHAR /\
    literal_bytes t = cs ++ map byte_of_Z (firstn 1 chs) /\
    reader l' = r' /\
    diag l' = diag l ++ w ++
      (if c =? QUOTE then []
       else [mkDiag Error "missing terminating ' character" []
                    (loc_line (loc (tok l))) (loc_column (loc (tok l)))]) ++
      (match chs with
       | [] => [mkDiag Error "empty character constant" []
                       (loc_line (loc (tok l))) (loc_column (loc (tok l)))]
       | _ :: _ => []
       end).
Proof.
  intros Hcs Hg Hall Hbs Hc Hn.
  change (lexer_scan_switch U opt n QUOTE l)
    with (lexer_parse_character U opt n ENCODING_NONE l).
  unfold lexer_parse_character. unfold bind at 1.
  destruct n as [|n]; [lia|].
  destruct chs as [|a chs].
  - cbn [length Nat.add app] in Hg. apply reader_gets_cons in Hg.
    destruct Hg as (r1 & w1 & w2 & G & Gk & ->).
    cbn [reader_gets] in Gk. inversion Gk; subst; clear Gk.
    cbn [parse_character_loop]. unfold bind at 1. unfold rd_get. rewrite G.
    assert (T : (c =? QUOTE) || (c =? LF) || (c =? EOF) = true).
    { destruct Hc as [-> | [-> | ->]]; reflexivity. }
    rewrite T. unfold ret at 1. cbn [negb].
    unfold bind, ERRORF, diag_with_tok, ret, lexer_make_token, token_init.
    destruct (c =? QUOTE); cbn [negb literals set_type tok emit set_reader];
      rewrite Hcs; eexists _, _; repeat split;
      try (apply literal_bytes_dup; cbn [literals set_type firstn map];
           now rewrite app_nil_r);
      cbn [diag set_tok emit set_reader loc]; rewrite ?app_nil_r;
      rewrite <- ?app_assoc; reflexivity.
  - cbn [length Nat.add app] in Hg. apply reader_gets_cons in Hg.
    destruct Hg as (r1 & w1 & w2 & G & Gk & ->).
    inversion Hall as [|a' chs' (A1 & A2 & A3) Hall']; subst.
    cbn [hd] in Hbs.
    cbn [parse_character_loop]. unfold bind at 1. unfold rd_get. rewrite G.
    apply Z.eqb_neq in A1, A2, A3, Hbs. rewrite A1, A2, A3, Hbs. cbn [orb].
    unfold bind at 1. unfold cat_ch. cbn [tok emit set_reader]. rewrite Hcs.
    set (l2 := set_tok _ _).
    destruct (parse_character_loop_parsed chs n l2 c r' w2)
      as (l3 & Hrun & Hr & Hd & Ht); auto.
    { cbn [length] in Hn. lia. }
    rewrite Hrun. subst l2. cbn [diag tok set_tok emit set_reader] in *.
    unfold bind, ERRORF, diag_with_tok, ret, lexer_make_token, token_init.
    destruct (c =? QUOTE); cbn [negb literals set_type tok emit set_reader];
      rewrite Ht; cbn [literals set_literals];
      eexists _, _; repeat split;
      try (apply literal_bytes_dup; reflexivity);
      try exact Hr;
      cbn [diag set_tok emit set_reader loc set_literals]; rewrite Hd;
      rewrite ?app_nil_r; rewrite <- ?app_assoc; reflexivity.
Qed.

End Literals.

Lemma string_literal_without_escapes_witness :
  exists (t : token_s) (l' : lexer_s),
    lexer_scan_switch ctype no_options 3 DQUOTE
      (lexer_of_bytes [x61; x62; x22]) = Ok (Some t) l' /\
    type t = TOKEN_CONSTANT_STRING /\
    literal_bytes t = [x61; x62] /\
    diag l' = [].
Proof.
  pose (l := lexer_of_bytes [x61; x62; x22]).
  let v := eval vm_compute in (reader_gets ctype no_options 3 (reader l)) in
  match v with (_, ?r, _) => pose (r' := r) end.
  destruct (string_literal_without_escapes ctype no_options 3 l []
              [97; 98] DQUOTE r' [])
    as (t & l' & H1 & H2 & H3 & _ & H5).
  - reflexivity.
  - vm_compute. reflexivity.
  - repeat (constructor; [repeat split; discriminate|]). constructor.
  - left. reflexivity.
  - cbn [length]. lia.
  - exists t, l'. repeat split; assumption.
Defined.

Lemma character_constant_keeps_first_character_witness :
  exists (t : token_s) (l' : lexer_s),
    lexer_scan_switch ctype no_options 3 QUOTE
      (lexer_of "ab'") = Ok (Some t) l' /\
    type t = TOKEN_CONSTANT_CHAR /\
    literal_bytes t = [x61] /\
    diag l' = [].
Proof.
  pose (l := lexer_of "ab'").
  let v := eval vm_compute in (reader_gets ctype no_options 3 (reader l)) in
  match v with (_, ?r, _) => pose (r' := r) end.
  destruct (character_constant_keeps_first_character ctype no_options 3 l []
              [97; 98] QUOTE r' [])
    as (t & l' & H1 & H2 & H3 & _ & H5).
  - reflexivity.
  - vm_compute. reflexivity.
  - repeat (constructor; [repeat split; discriminate|]). constructor.
  - discriminate.
  - left. reflexivity.
  - cbn [length]. lia.
  - exists t, l'. repeat split; assumption.
Defined.

(** ** Identifiers, stray bytes and the end of the input *)

Section Identifier.

Variable U : utils.
Variable opt : option_s.

Lemma parse_identifier_loop_plain (chs : list Z) :
  forall (n : nat) (l : lexer_s) (cs : cstring) (c : Z) (r' : reader_s)
         (w : list diagnostic),
  literals (tok l) = Some cs ->
  reader_gets U opt (length chs + 1) (reader l) = (chs ++ [c], r', w) ->
  Forall (fun a => identifier_continue U a = true) chs ->
  identifier_continue U c = false -> c <> BACKSLASH ->
  (length chs < n)%nat ->
  exists l' : lexer_s,
    parse_identifier_loop U opt n l = Ok (Some c) l' /\
    reader l' = r' /\ diag l' = diag l ++ w /\
    tok l' = set_literals (tok l) (Some (cs ++ map byte_of_Z chs)).
Proof.
  induction chs as [|a chs IH]; intros n l cs c r' w Hcs Hg Hall Hc Hb Hn;
    (destruct n as [|n]; [cbn [length] in Hn; lia|]);
    cbn [length Nat.add app] in Hg;
    apply reader_gets_cons in Hg;
    destruct Hg as (r1 & w1 & w2 & G & Gk & ->);
    cbn [parse_identifier_loop]; unfold bind at 1; unfold rd_get; rewrite G.
  - cbn [reader_gets] in Gk. inversion Gk; subst; clear Gk.
    unfold identifier_continue in Hc. rewrite Hc.
    unfold bind, lexer_is_unc. apply Z.eqb_neq in Hb. rewrite Hb.
    unfold ret. eexists. split; [reflexivity|].
    cbn [reader diag tok emit set_reader]. rewrite !app_nil_r.
    repeat split. destruct (tok l); cbn in *. now subst.
  - inversion Hall as [|a' chs' A Hall']; subst.
    unfold identifier_continue in A. rewrite A.
    unfold bind at 1. unfold cat_ch. cbn [tok emit set_reader]. rewrite Hcs.
    set (l2 := set_tok _ _).
    destruct (IH n l2 (cstring_push_ch cs a) c r' w2)
      as (l' & Hrun & Hr & Hd & Ht); auto.
    { cbn [length] in Hn. lia. }
    exists l'. split; [exact Hrun|].
    subst l2. cbn [diag tok set_tok emit set_reader] in *.
    repeat split; auto.
    + rewrite Hd. now rewrite app_assoc.
    + rewrite Ht. unfold set_literals, cstring_push_ch. cbn.
      now rewrite <- app_assoc.
Qed.

Lemma reader_get_keeps_stream (r : reader_s) (c : Z) (r1 : reader_s)
  (w : list diagnostic) :
  reader_get U opt r = (c, r1, w) -> c <> EOF -> streams r1 <> [].
Proof.
  unfold reader_get. destruct (streams r) as [|s rest].
  - intros E. inversion E; subst. congruence.
  - destruct (stream_next U opt s) as [[c' s'] w'].
    intros E _. inversion E; subst. discriminate.
Qed.

Lemma reader_gets_last_keeps_stream (k : nat) (r : reader_s) (chs : list Z)
  (c : Z) (r' : reader_s) (w : list diagnostic) :
  reader_gets U opt (k + 1) r = (chs ++ [c], r', w) ->
  length chs = k -> c <> EOF -> streams r' <> [].
Proof.
  rewrite reader_gets_snoc.
  destruct (reader_gets U opt k r) as [[chs1 r1] w1] eqn:G1.
  destruct (reader_get U opt r1) as [[c2 r2] w2] eqn:G2.
  intros E Hl Hc. inversion E as [[E1 E2 E3]]. subst r2.
  apply app_inj_tail in E1. destruct E1 as [_ ->].
  exact (reader_get_keeps_stream r1 c r' w2 G2 Hc).
Qed.

(** An identifier without universal character names: when the characters
    delivered next are the identifier characters [chs] followed by a
    character [c] that is neither one of them nor a backslash,
    [__lexer_parse_identifier__] returns the identifier [chs] and puts [c]
    back, so that the next get delivers it again; when [c] is the zero
    byte or end-of-input the put-back fails its assertion and the lexer
    aborts. *)
Theorem identifier_is_the_run_and_puts_back
  (n : nat) (l : lexer_s) (cs : cstring) (chs : list Z) (c : Z)
  (r' : reader_s) (w : list diagnostic) :
  literals (tok l) = Some cs ->
  reader_gets U opt (length chs + 1) (reader l) = (chs ++ [c], r', w) ->
  Forall (fun a => identifier_continue U a = true) chs ->
  identifier_continue U c = false -> c <> BACKSLASH ->
  (length chs < n)%nat ->
  (c <> EOF -> c <> NUL ->
   exists (t : token_s) (l' : lexer_s),
     lexer_parse_identifier U opt n l = Ok (Some t) l' /\
     type t = TOKEN_IDENTIFIER /\
     literal_bytes t = cs ++ map byte_of_Z chs /\
     reader_unget r' c = Some (reader l') /\ diag l' = diag l ++ w /\
     fst (fst (reader_get U opt (reader l'))) = c mod 256) /\
  (c = EOF \/ c = NUL -> lexer_parse_identifier U opt n l = Crash).
Proof.
  intros Hcs Hg Hall Hc Hb Hn.
  destruct (parse_identifier_loop_plain chs n l cs c r' w Hcs Hg Hall Hc Hb Hn)
    as (l1 & Hrun & Hr & Hd & Ht).
  split.
  - intros H1 H2.
    pose proof (reader_gets_last_keeps_stream _ _ _ _ _ _ Hg eq_refl H1) as Hne.
    unfold lexer_parse_identifier, bind. rewrite Hrun.
    unfold rd_unget. rewrite Hr. unfold reader_unget.
    apply Z.eqb_neq in H1, H2. rewrite H1, H2. cbn [negb andb].
    destruct (streams r') as [|s rest]; [congruence|].
    unfold lexer_make_token, token_init.
    cbn [literals set_type tok set_reader]. rewrite Ht.
    cbn [literals set_literals].
    eexists _, _. repeat split.
    + apply literal_bytes_dup. reflexivity.
    + cbn [diag set_tok set_reader]. exact Hd.
    + cbn [reader set_tok set_reader]. unfold reader_get. cbn [streams].
      now rewrite stream_next_push.
  - intros Hbad. unfold lexer_parse_identifier, bind. rewrite Hrun.
    unfold rd_unget. destruct Hbad as [-> | ->]; reflexivity.
Qed.

End Identifier.

(** A byte that is no white space and starts no token aborts the scan:
    with such a byte next, [lexer_scan] runs into the [assert(false)] that
    ends it. *)
Theorem scan_aborts_on_stray_byte
  (opt : option_s) (n : nat) (l : lexer_s) (s : stream_s)
  (rest : list stream_s) :
  streams (reader l) = s :: rest ->
  leading_space (tok l) = 0%nat ->
  In (fst (fst (reader_get ctype opt (reader l)))) bytes_without_token ->
  lexer_scan ctype opt (S n) l = Crash.
Proof.
  intros Hr Hsp Hin.
  unfold lexer_scan. unfold bind at 1. unfold lexer_mark_loc.
  unfold reader_line, reader_column, reader_linenote, reader_filename.
  rewrite Hr. cbn [hd_error option_map].
  unfold bind at 1. unfold lexer_skip_white_space. unfold bind at 1.
  cbn [skip_white_space_loop]. unfold bind at 1. unfold rd_peek.
  cbn [reader set_tok].
  rewrite (reader_peek_get ctype opt (reader l)).
  destruct (reader_get ctype opt (reader l)) as [[c r1] w1] eqn:G.
  cbn [fst] in *.
  assert (Hc : ISSPACE ctype c = false /\
               forall l0, lexer_scan_switch ctype opt (S n) c l0 = Crash).
  { unfold bytes_without_token in Hin. cbn [In] in Hin.
    repeat (destruct Hin as [<- | Hin]; [split; [reflexivity|intros; reflexivity]|]).
    contradiction. }
  destruct Hc as [Hsp' Hsw].
  unfold bind at 1. unfold rd_is_empty. rewrite Hsp'. cbn [negb orb].
  unfold ret. cbn [tok set_reader set_tok leading_space token_mark_loc].
  rewrite Hsp. cbn [Nat.ltb Nat.leb].
  unfold bind. unfold rd_get. cbn [reader set_reader set_tok].
  rewrite G. apply Hsw.
Qed.

Lemma scan_aborts_on_stray_byte_witness :
  let l := lexer_of "@" in
  streams (reader l) = [stream_init "<string>" (list_byte_of_string "@")] /\
  leading_space (tok l) = 0%nat /\
  In (fst (fst (reader_get ctype no_options (reader l)))) bytes_without_token /\
  lexer_scan ctype no_options 1 l = Crash.
Proof.
  intros l.
  assert (H : In (fst (fst (reader_get ctype no_options (reader l))))
                 bytes_without_token).
  { vm_compute. tauto. }
  split; [reflexivity|]. split; [reflexivity|]. split; [exact H|].
  exact (scan_aborts_on_stray_byte no_options 0 l _ [] eq_refl eq_refl H).
Defined.

Lemma identifier_is_the_run_and_puts_back_witness :
  exists (t : token_s) (l' : lexer_s),
    lexer_parse_identifier ctype no_options 3 (lexer_of "ab+")
    = Ok (Some t) l' /\
    type t = TOKEN_IDENTIFIER /\
    literal_bytes t = [x61; x62] /\
    fst (fst (reader_get ctype no_options (reader l'))) = 43.
Proof.
  pose (l := lexer_of "ab+").
  let v := eval vm_compute in (reader_gets ctype no_options 3 (reader l)) in
  match v with (_, ?r, _) => pose (r' := r) end.
  destruct (identifier_is_the_run_and_puts_back ctype no_options 3 l []
              [97; 98] 43 r' []) as [H _].
  - reflexivity.
  - vm_compute. reflexivity.
  - repeat (constructor; [reflexivity|]). constructor.
  - reflexivity.
  - discriminate.
  - cbn [length]. lia.
  - destruct H as (t & l' & H1 & H2 & H3 & _ & _ & H6);
      [discriminate | discriminate |].
    exists t, l'. repeat split; assumption.
Defined.

Section EndOfInput.

Variable U : utils.
Variable opt : option_s.

Hypothesis ISSPACE_EOF : ISSPACE U EOF = false.

Lemma scan_at_end_of_input (n : nat) (l : lexer_s) :
  at_end_of_input l ->
  exists (t : token_s) (l' : lexer_s),
    lexer_scan U opt (S n) l = Ok (Some t) l' /\
    type t = TOKEN_END /\ literals t = None /\
    diag l' = diag l /\ at_end_of_input l'.
Proof.
  intros (s & rest & Hr & Hs & He & Hl & Hsp & Hlit).
  assert (G : reader_get U opt (reader l)
              = (EOF, mkReader (set_lastch s EOF :: rest), [])).
  { unfold reader_get. rewrite Hr.
    rewrite (stream_next_at_end U opt s Hs He).
    assert (C : (lastch s =? LF) || (lastch s =? EOF) = true).
    { destruct Hl as [-> | ->]; reflexivity. }
    cbv zeta. rewrite C. reflexivity. }
  unfold lexer_scan. unfold bind at 1. unfold lexer_mark_loc.
  unfold reader_line, reader_column, reader_linenote, reader_filename.
  rewrite Hr. cbn [hd_error option_map].
  unfold bind at 1. unfold lexer_skip_white_space. unfold bind at 1.
  cbn [skip_white_space_loop]. unfold bind at 1. unfold rd_peek.
  cbn [reader set_tok].
  rewrite (reader_peek_get U opt (reader l)), G. cbn [fst].
  unfold bind at 1. unfold rd_is_empty. rewrite ISSPACE_EOF. cbn [negb orb].
  unfold ret. cbn [tok set_reader set_tok leading_space token_mark_loc].
  rewrite Hsp. cbn [Nat.ltb Nat.leb].
  unfold bind. unfold rd_get. cbn [reader set_reader set_tok]. rewrite G.
  change (lexer_scan_switch U opt (S n) EOF)
    with (lexer_make_token TOKEN_END).
  unfold lexer_make_token, token_init, token_dup.
  cbn [tok emit set_reader set_tok literals set_type token_mark_loc].
  rewrite Hlit. cbn [cstring_length length Nat.eqb negb].
  eexists _, _. split; [reflexivity|].
  split; [reflexivity|]. split; [reflexivity|].
  split.
  - cbn [diag set_tok emit set_reader]. now rewrite app_nil_r.
  - exists (set_lastch s EOF), rest.
    cbn [reader tok set_tok emit set_reader leading_space literals
         begin_of_line set_type token_mark_loc].
    unfold stash_is_empty, pe in *.
    cbn [stashed text pc lastch set_lastch].
    repeat split; auto.
Qed.

(** The end token is absorbing: once the input is read to the end, every
    further scan returns [TOKEN_END] without literal and emits no
    diagnostic. *)
Theorem scan_keeps_returning_end (k n : nat) :
  forall l : lexer_s,
  at_end_of_input l ->
  scanned U opt k (S n) l = Some (repeat (Some (TOKEN_END, [])) k) /\
  emitted (lexer_scans U opt k (S n) l) = Some (diag l).
Proof.
  induction k as [|k IH]; intros l H.
  - split; reflexivity.
  - destruct (scan_at_end_of_input n l H) as (t & l1 & Hs & Ht & Hlit & Hd & H1).
    destruct (IH l1 H1) as [IH1 IH2].
    unfold scanned, emitted in *.
    assert (E : lexer_scans U opt (S k) (S n) l
                = match lexer_scans U opt k (S n) l1 with
                  | Ok ts l2 => Ok (Some t :: ts) l2
                  | Crash => Crash
                  | Exhausted => Exhausted
                  end).
    { cbn [lexer_scans]. unfold bind, ret. now rewrite Hs. }
    rewrite E.
    destruct (lexer_scans U opt k (S n) l1) as [ts l2| |];
      cbn [returned option_map] in IH1; try discriminate IH1.
    cbn [returned option_map map].
    inversion IH1 as [E1]. inversion IH2 as [E2].
    split; [|now rewrite E2, Hd].
    cbn [repeat]. rewrite E1. do 2 f_equal. unfold kind_and_literal, literal_bytes.
    cbn [option_map]. now rewrite Ht, Hlit.
Qed.

End EndOfInput.

Lemma scan_keeps_returning_end_witness :
  match lexer_scans ctype no_options 2 3 (lexer_of "x") with
  | Ok _ l =>
      ISSPACE ctype EOF = false /\
      at_end_of_input l /\
      scanned ctype no_options 3 1 l
      = Some [Some (TOKEN_END, []); Some (TOKEN_END, []);
              Some (TOKEN_END, [])]
  | _ => False
  end.
Proof.
  let v := eval vm_compute in
    (lexer_scans ctype no_options 2 3 (lexer_of "x")) in
  change (lexer_scans ctype no_options 2 3 (lexer_of "x")) with v.
  cbv iota.
  match goal with |- _ /\ at_end_of_input ?l /\ _ =>
    assert (H : at_end_of_input l)
  end.
  { eexists _, _. split; [reflexivity|]. split; [reflexivity|].
    split; [unfold pe; cbn; lia|]. split; [left; reflexivity|].
    split; reflexivity. }
  split; [reflexivity|]. split; [exact H|].
  exact (proj1 (scan_keeps_returning_end ctype no_options eq_refl 3 0 _ H)).
Defined.

(** ** UTF-8 *)

Lemma lor_shiftl_add (q k x : Z) :
  0 <= k -> 0 <= x < 2 ^ k -> Z.lor (Z.shiftl q k) x = q * 2 ^ k + x.
Proof.
  intros Hk Hx.
  assert (L : Z.land (Z.shiftl q k) x = 0).
  { apply Z.bits_inj'. intros i Hi. rewrite Z.land_spec, Z.bits_0.
    destruct (Z.lt_ge_cases i k) as [Lt|Ge].
    - rewrite Z.shiftl_spec_low by assumption. reflexivity.
    - destruct (Z.eq_dec x 0) as [->|Nz].
      + rewrite Z.bits_0. apply andb_false_r.
      + rewrite (Z.bits_above_log2 x i); [apply andb_false_r|lia|].
        apply Z.log2_lt_pow2; [lia|].
        apply Z.lt_le_trans with (2 ^ k); [lia|].
        apply Z.pow_le_mono_r; lia. }
  rewrite <- Z.lxor_lor by assumption.
  rewrite <- Z.add_nocarry_lxor by assumption.
  now rewrite Z.shiftl_mul_pow2.
Qed.

Lemma count_leading_ones_char (sg : bool) (b : byte) :
  count_leading_ones (char_of_byte sg b)
  = let z := Z_of_byte b in
    if z <? 128 then 0 else if z <? 192 then 1 else if z <? 224 then 2
    else if z <? 240 then 3 else if z <? 248 then 4 else if z <? 252 then 5
    else if z <? 254 then 6 else if z <? 255 then 7 else 8.
Proof. destruct sg, b; reflexivity. Qed.

Lemma char_at_masks (sg : bool) (b : byte) :
  let c := char_of_byte sg b in
  let z := Z_of_byte b in
  Z.land c 63 = z mod 64 /\ Z.land c 31 = z mod 32 /\
  Z.land c 15 = z mod 16 /\ Z.land c 7 = z mod 8 /\
  Z.land c 192 = z / 64 * 64 /\
  (z < 128 -> to_uint32 c = z).
Proof. destruct sg, b; cbv; repeat split; intros; congruence. Qed.

Lemma cstring_append_utf8_bytes (cs : cstring) (rune : Z) :
  rune < 2097152 ->
  cstring_append_utf8 cs rune = Some (cs ++ utf8_bytes rune).
Proof.
  intros H. unfold utf8_bytes, cstring_append_utf8, write8.
  apply Z.ltb_lt in H.
  destruct (rune <? 128); [reflexivity|].
  destruct (rune <? 2048); [now rewrite <- app_assoc|].
  destruct (rune <? 65536); [now rewrite <- !app_assoc|].
  rewrite H. now rewrite <- !app_assoc.
Qed.

Lemma lor_lead (rune : Z) :
  0 <= rune ->
  (rune < 2048 -> Z.lor 192 (Z.shiftr rune 6) = 192 + rune / 64) /\
  (rune < 65536 -> Z.lor 224 (Z.shiftr rune 12) = 224 + rune / 4096) /\
  (rune < 2097152 -> Z.lor 240 (Z.shiftr rune 18) = 240 + rune / 262144).
Proof.
  intros H. rewrite !Z.shiftr_div_pow2 by lia.
  change (2 ^ 6) with 64. change (2 ^ 12) with 4096.
  change (2 ^ 18) with 262144.
  repeat split; intros L.
  - apply (lor_shiftl_add 6 5); [lia|]. change (2 ^ 5) with 32. Z.div_mod_to_equations; lia.
  - apply (lor_shiftl_add 14 4); [lia|]. change (2 ^ 4) with 16. Z.div_mod_to_equations; lia.
  - apply (lor_shiftl_add 30 3); [lia|]. change (2 ^ 3) with 8. Z.div_mod_to_equations; lia.
Qed.

Lemma lor_continuation (z : Z) :
  Z.lor 128 (Z.land z 63) = 128 + z mod 64.
Proof.
  change 63 with (Z.ones 6). rewrite Z.land_ones by lia.
  change (2 ^ 6) with 64.
  apply (lor_shiftl_add 2 6); [lia|]. change (2 ^ 6) with 64.
  apply Z.mod_pos_bound. lia.
Qed.

(** What the encoder writes, byte by byte. *)
Lemma utf8_bytes_values (rune : Z) :
  0 <= rune < 2097152 ->
  exists bs : list Z,
    utf8_bytes rune = map byte_of_Z bs /\
    Forall (fun z => 0 <= z < 256) bs /\
    bs = if rune <? 128 then [rune]
         else if rune <? 2048 then [192 + rune / 64; 128 + rune mod 64]
         else if rune <? 65536 then
           [224 + rune / 4096; 128 + rune / 64 mod 64; 128 + rune mod 64]
         else [240 + rune / 262144; 128 + rune / 4096 mod 64;
               128 + rune / 64 mod 64; 128 + rune mod 64].
Proof.
  intros H. unfold utf8_bytes, cstring_append_utf8, write8.
  destruct (lor_lead rune (proj1 H)) as (L2 & L3 & L4).
  rewrite !lor_continuation.
  destruct (rune <? 128) eqn:E1; [apply Z.ltb_lt in E1|apply Z.ltb_ge in E1].
  { eexists. split; [|split; [|reflexivity]]; [reflexivity|].
    repeat constructor; Z.div_mod_to_equations; lia. }
  destruct (rune <? 2048) eqn:E2; [apply Z.ltb_lt in E2|apply Z.ltb_ge in E2].
  { rewrite (L2 E2). rewrite ?Z.shiftr_div_pow2 by lia.
    change (2 ^ 6) with 64. change (2 ^ 12) with 4096.
    eexists. split; [|split; [|reflexivity]]; [reflexivity|].
    repeat constructor; Z.div_mod_to_equations; lia. }
  destruct (rune <? 65536) eqn:E3; [apply Z.ltb_lt in E3|apply Z.ltb_ge in E3].
  { rewrite (L3 E3). rewrite ?Z.shiftr_div_pow2 by lia.
    change (2 ^ 6) with 64. change (2 ^ 12) with 4096.
    eexists. split; [|split; [|reflexivity]]; [reflexivity|].
    repeat constructor; Z.div_mod_to_equations; lia. }
  destruct (rune <? 2097152) eqn:E4; [|apply Z.ltb_ge in E4; lia].
  rewrite (L4 (proj2 H)). rewrite ?Z.shiftr_div_pow2 by lia.
    change (2 ^ 6) with 64. change (2 ^ 12) with 4096.
  eexists. split; [|split; [|reflexivity]]; [reflexivity|].
  repeat constructor; Z.div_mod_to_equations; lia.
Qed.

Lemma Z_of_byte_of_Z_small (z : Z) :
  0 <= z < 256 -> Z_of_byte (byte_of_Z z) = z.
Proof. intros H. rewrite Z_of_byte_of_Z. apply Z.mod_small, H. Qed.

Ltac decide_ltb :=
  repeat match goal with
         | |- context [?a <? ?b] =>
             destruct (Z.ltb_spec a b); try (exfalso; lia)
         end.

Lemma continuation_mask (sg : bool) (x : Z) :
  0 <= x < 64 ->
  (Z.land (char_of_byte sg (byte_of_Z (128 + x))) 192 =? 128) = true.
Proof.
  intros H. destruct (char_at_masks sg (byte_of_Z (128 + x)))
    as (_ & _ & _ & _ & M & _).
  rewrite M, Z_of_byte_of_Z_small by lia. apply Z.eqb_eq.
  replace ((128 + x) / 64) with 2; [reflexivity|].
  apply Z.div_unique with x; lia.
Qed.

Lemma continuation_payload (sg : bool) (x : Z) :
  0 <= x < 64 ->
  Z.land (char_of_byte sg (byte_of_Z (128 + x))) 63 = x.
Proof.
  intros H. destruct (char_at_masks sg (byte_of_Z (128 + x)))
    as (M & _).
  rewrite M, Z_of_byte_of_Z_small by lia.
  symmetry. apply Z.mod_unique with 2; lia.
Qed.

Lemma leading_ones_of_lead_byte (sg : bool) (z : Z) :
  (0 <= z < 128 -> count_leading_ones (char_of_byte sg (byte_of_Z z)) = 0) /\
  (192 <= z < 224 ->
   count_leading_ones (char_of_byte sg (byte_of_Z z)) = 2) /\
  (224 <= z < 240 ->
   count_leading_ones (char_of_byte sg (byte_of_Z z)) = 3) /\
  (240 <= z < 248 ->
   count_leading_ones (char_of_byte sg (byte_of_Z z)) = 4).
Proof.
  repeat split; intros H; rewrite count_leading_ones_char; cbv zeta;
    rewrite Z_of_byte_of_Z_small by lia; decide_ltb; reflexivity.
Qed.

Section Utf8.

Variable sg : bool.

Lemma parse_rune_1 (q : Z) (rest : list byte) (n : Z) :
  0 <= q < 128 ->
  parse_rune sg (byte_of_Z q :: rest) n = Some (q, 1%nat).
Proof.
  intros Hq. unfold parse_rune, char_at. cbn [nth].
  rewrite (proj1 (leading_ones_of_lead_byte sg q)) by lia.
  change (0 =? 0) with true. cbv iota.
  destruct (char_at_masks sg (byte_of_Z q)) as (_ & _ & _ & _ & _ & M).
  cbv zeta in M. rewrite Z_of_byte_of_Z_small in M by lia.
  rewrite M by lia. reflexivity.
Qed.

Lemma parse_rune_2 (q r : Z) (rest : list byte) (n : Z) :
  0 <= q < 32 -> 0 <= r < 64 -> 2 <= n ->
  parse_rune sg (byte_of_Z (192 + q) :: byte_of_Z (128 + r) :: rest) n
  = Some (q * 64 + r, 2%nat).
Proof.
  intros Hq Hr Hn. unfold parse_rune, char_at. cbn [nth].
  rewrite (proj1 (proj2 (leading_ones_of_lead_byte sg (192 + q)))) by lia.
  change (2 =? 0) with false. change (2 =? 2) with true. cbv iota.
  destruct (Z.ltb_spec n 2); [lia|].
  change (Z.to_nat 2 - 1)%nat with 1%nat. cbn [seq forallb nth].
  rewrite continuation_mask by assumption. cbn [andb negb].
  rewrite continuation_payload by assumption.
  destruct (char_at_masks sg (byte_of_Z (192 + q))) as (_ & M & _).
  cbv zeta in M. rewrite M, Z_of_byte_of_Z_small by lia.
  replace ((192 + q) mod 32) with q
    by (apply Z.mod_unique with 6; lia).
  rewrite lor_shiftl_add by lia. reflexivity.
Qed.

Lemma parse_rune_3 (q r1 r0 : Z) (rest : list byte) (n : Z) :
  0 <= q < 16 -> 0 <= r1 < 64 -> 0 <= r0 < 64 -> 3 <= n ->
  parse_rune sg (byte_of_Z (224 + q) :: byte_of_Z (128 + r1)
                 :: byte_of_Z (128 + r0) :: rest) n
  = Some (q * 4096 + r1 * 64 + r0, 3%nat).
Proof.
  intros Hq Hr1 Hr0 Hn. unfold parse_rune, char_at. cbn [nth].
  rewrite (proj1 (proj2 (proj2 (leading_ones_of_lead_byte sg (224 + q)))))
    by lia.
  change (3 =? 0) with false. change (3 =? 2) with false.
  change (3 =? 3) with true. cbv iota.
  destruct (Z.ltb_spec n 3); [lia|].
  change (Z.to_nat 3 - 1)%nat with 2%nat. cbn [seq forallb nth].
  rewrite !continuation_mask by assumption. cbn [andb negb].
  rewrite !continuation_payload by assumption.
  destruct (char_at_masks sg (byte_of_Z (224 + q))) as (_ & _ & M & _).
  cbv zeta in M. rewrite M, Z_of_byte_of_Z_small by lia.
  replace ((224 + q) mod 16) with q
    by (apply Z.mod_unique with 14; lia).
  rewrite (Z.shiftl_mul_pow2 r1 6) by lia. change (2 ^ 6) with 64.
  rewrite (lor_shiftl_add q 12) by (change (2 ^ 12) with 4096; lia).
  change (2 ^ 12) with 4096.
  replace (q * 4096 + r1 * 64) with (Z.shiftl (q * 64 + r1) 6)
    by (rewrite Z.shiftl_mul_pow2 by lia; change (2 ^ 6) with 64; lia).
  rewrite lor_shiftl_add by lia. change (2 ^ 6) with 64.
  apply f_equal, (f_equal (fun z => (z, _))).
  rewrite ?Z.shiftl_mul_pow2 by lia.
  change (2 ^ 6) with 64. change (2 ^ 12) with 4096. lia.
Qed.

Lemma parse_rune_4 (q r2 r1 r0 : Z) (rest : list byte) (n : Z) :
  0 <= q < 8 -> 0 <= r2 < 64 -> 0 <= r1 < 64 -> 0 <= r0 < 64 -> 4 <= n ->
  parse_rune sg (byte_of_Z (240 + q) :: byte_of_Z (128 + r2)
                 :: byte_of_Z (128 + r1) :: byte_of_Z (128 + r0) :: rest) n
  = Some (q * 262144 + r2 * 4096 + r1 * 64 + r0, 4%nat).
Proof.
  intros Hq Hr2 Hr1 Hr0 Hn. unfold parse_rune, char_at. cbn [nth].
  rewrite (proj2 (proj2 (proj2 (leading_ones_of_lead_byte sg (240 + q)))))
    by lia.
  change (4 =? 0) with false. change (4 =? 2) with false.
  change (4 =? 3) with false. change (4 =? 4) with true. cbv iota.
  destruct (Z.ltb_spec n 4); [lia|].
  change (Z.to_nat 4 - 1)%nat with 3%nat. cbn [seq forallb nth].
  rewrite !continuation_mask by assumption. cbn [andb negb].
  rewrite !continuation_payload by assumption.
  destruct (char_at_masks sg (byte_of_Z (240 + q)))
    as (_ & _ & _ & M & _).
  cbv zeta in M. rewrite M, Z_of_byte_of_Z_small by lia.
  replace ((240 + q) mod 8) with q
    by (apply Z.mod_unique with 30; lia).
  rewrite (Z.shiftl_mul_pow2 r1 6) by lia. change (2 ^ 6) with 64.
  rewrite (Z.shiftl_mul_pow2 r2 12) by lia. change (2 ^ 12) with 4096.
  rewrite (lor_shiftl_add q 18) by (change (2 ^ 18) with 262144; lia).
  change (2 ^ 18) with 262144.
  replace (q * 262144 + r2 * 4096) with (Z.shiftl (q * 64 + r2) 12)
    by (rewrite Z.shiftl_mul_pow2 by lia; change (2 ^ 12) with 4096; lia).
  rewrite lor_shiftl_add by (change (2 ^ 12) with 4096; lia).
  change (2 ^ 12) with 4096.
  replace ((q * 64 + r2) * 4096 + r1 * 64)
    with (Z.shiftl ((q * 64 + r2) * 64 + r1) 6)
    by (rewrite Z.shiftl_mul_pow2 by lia; change (2 ^ 6) with 64; lia).
  rewrite lor_shiftl_add by lia. change (2 ^ 6) with 64.
  apply f_equal, (f_equal (fun z => (z, _))).
  rewrite ?Z.shiftl_mul_pow2 by lia.
  change (2 ^ 6) with 64. change (2 ^ 12) with 4096. lia.
Qed.

End Utf8.

Lemma parse_rune_utf8_bytes (sg : bool) (rune : Z) (rest : list byte)
  (n : Z) :
  0 <= rune < 2097152 ->
  Z.of_nat (length (utf8_bytes rune)) <= n ->
  parse_rune sg (utf8_bytes rune ++ rest) n
  = Some (rune, length (utf8_bytes rune)).
Proof.
  intros H Hn.
  destruct (utf8_bytes_values rune H) as (bs & Hb & _ & Hbs).
  rewrite Hb in *. clear Hb.
  assert (D1 : rune = rune / 64 * 64 + rune mod 64)
    by (Z.div_mod_to_equations; lia).
  assert (D2 : rune / 64 = rune / 4096 * 64 + rune / 64 mod 64)
    by (Z.div_mod_to_equations; lia).
  assert (D3 : rune / 4096 = rune / 262144 * 64 + rune / 4096 mod 64)
    by (Z.div_mod_to_equations; lia).
  assert (M1 : 0 <= rune mod 64 < 64) by (apply Z.mod_pos_bound; lia).
  assert (M2 : 0 <= rune / 64 mod 64 < 64) by (apply Z.mod_pos_bound; lia).
  assert (M3 : 0 <= rune / 4096 mod 64 < 64)
    by (apply Z.mod_pos_bound; lia).
  assert (P1 : 0 <= rune / 64) by (apply Z.div_pos; lia).
  assert (P2 : 0 <= rune / 4096) by (apply Z.div_pos; lia).
  assert (P3 : 0 <= rune / 262144) by (apply Z.div_pos; lia).
  set (q3 := rune / 262144) in *. set (r3 := rune / 4096 mod 64) in *.
  set (q2 := rune / 4096) in *. set (r2 := rune / 64 mod 64) in *.
  set (q1 := rune / 64) in *. set (r1 := rune mod 64) in *.
  clearbody q3 r3 q2 r2 q1 r1.
  destruct (rune <? 128) eqn:E1; [apply Z.ltb_lt in E1|apply Z.ltb_ge in E1].
  { subst bs. cbn [map app length] in *.
    apply parse_rune_1. lia. }
  destruct (rune <? 2048) eqn:E2; [apply Z.ltb_lt in E2|apply Z.ltb_ge in E2].
  { subst bs. cbn [map app length] in *.
    rewrite parse_rune_2 by lia. apply f_equal, (f_equal (fun z => (z, _))).
    lia. }
  destruct (rune <? 65536) eqn:E3; [apply Z.ltb_lt in E3|apply Z.ltb_ge in E3].
  { subst bs. cbn [map app length] in *.
    rewrite parse_rune_3 by lia. apply f_equal, (f_equal (fun z => (z, _))).
    lia. }
  subst bs. cbn [map app length] in *.
  rewrite parse_rune_4 by lia. apply f_equal, (f_equal (fun z => (z, _))).
  lia.
Qed.

(** Decoding inverts encoding: [cstring_append_utf8] accepts every rune
    below 0x200000 and appends its bytes, and [__parse_rune__] reads these
    bytes back as the same rune and as many bytes as were written,
    whatever follows them and whether [char] is signed or not. *)
Theorem utf8_decoding_inverts_encoding
  (sg : bool) (rune : Z) (cs rest : list byte) (n : Z) :
  0 <= rune < 2097152 ->
  Z.of_nat (length (utf8_bytes rune)) <= n ->
  cstring_append_utf8 cs rune = Some (cs ++ utf8_bytes rune) /\
  (1 <= length (utf8_bytes rune) <= 4)%nat /\
  parse_rune sg (utf8_bytes rune ++ rest) n
  = Some (rune, length (utf8_bytes rune)).
Proof.
  intros H Hn. split; [apply cstring_append_utf8_bytes; lia|].
  split; [|now apply parse_rune_utf8_bytes].
  destruct (utf8_bytes_values rune H) as (bs & Hb & _ & Hbs).
  rewrite Hb, length_map, Hbs.
  repeat case_if; cbn [length]; lia.
Qed.

Lemma count_leading_ones_low_bits (ch : Z) :
  count_leading_ones ch = count_leading_ones (ch mod 256).
Proof.
  assert (B : forall i : Z, 0 <= i < 8 ->
              Z.land (ch mod 256) (Z.shiftl 1 i) = Z.land ch (Z.shiftl 1 i)).
  { intros i Hi. change 256 with (2 ^ 8).
    rewrite <- Z.land_ones by lia. rewrite <- Z.land_assoc. f_equal.
    assert (C : i = 0 \/ i = 1 \/ i = 2 \/ i = 3 \/ i = 4 \/ i = 5 \/
                i = 6 \/ i = 7) by lia.
    repeat (destruct C as [->|C]; [reflexivity|]). subst i. reflexivity. }
  unfold count_leading_ones. cbn [count_leading_ones_loop].
  rewrite !B by (cbn; lia). reflexivity.
Qed.

(** The size [utf8_rune_size] computes from the first byte of an encoded
    rune is the number of bytes the encoder wrote, however the byte is
    widened to the [int] argument. *)
Theorem utf8_rune_size_of_lead_byte (rune ch : Z) :
  0 <= rune < 2097152 ->
  ch mod 256 = Z_of_byte (hd x00 (utf8_bytes rune)) ->
  utf8_rune_size ch = Z.of_nat (length (utf8_bytes rune)).
Proof.
  intros H Hch. unfold utf8_rune_size.
  rewrite count_leading_ones_low_bits, Hch.
  destruct (utf8_bytes_values rune H) as (bs & Hb & Hr & Hbs).
  rewrite Hb.
  assert (P1 : 0 <= rune / 64) by (apply Z.div_pos; lia).
  assert (P2 : 0 <= rune / 4096) by (apply Z.div_pos; lia).
  assert (P3 : 0 <= rune / 262144) by (apply Z.div_pos; lia).
  assert (U1 : rune < 2048 -> rune / 64 < 32)
    by (intros; apply Z.div_lt_upper_bound; lia).
  assert (U2 : rune < 65536 -> rune / 4096 < 16)
    by (intros; apply Z.div_lt_upper_bound; lia).
  assert (U3 : rune / 262144 < 8)
    by (apply Z.div_lt_upper_bound; lia).
  set (q3 := rune / 262144) in *. set (q2 := rune / 4096) in *.
  set (q1 := rune / 64) in *. clearbody q3 q2 q1.
  pose proof (count_leading_ones_char false) as C.
  unfold char_of_byte in C. cbn [andb] in C.
  destruct (rune <? 128) eqn:E1; [apply Z.ltb_lt in E1|apply Z.ltb_ge in E1].
  { subst bs. cbn [map hd length]. rewrite C. cbv zeta.
    rewrite Z_of_byte_of_Z_small by lia. decide_ltb. reflexivity. }
  destruct (rune <? 2048) eqn:E2; [apply Z.ltb_lt in E2|apply Z.ltb_ge in E2].
  { subst bs. cbn [map hd length]. rewrite C. cbv zeta.
    rewrite Z_of_byte_of_Z_small by lia. decide_ltb. reflexivity. }
  destruct (rune <? 65536) eqn:E3; [apply Z.ltb_lt in E3|apply Z.ltb_ge in E3].
  { subst bs. cbn [map hd length]. rewrite C. cbv zeta.
    rewrite Z_of_byte_of_Z_small by lia. decide_ltb. reflexivity. }
  subst bs. cbn [map hd length]. rewrite C. cbv zeta.
  rewrite Z_of_byte_of_Z_small by lia. decide_ltb. reflexivity.
Qed.

(** ** UTF-16 and UTF-32 *)

Lemma write16_app (to : cstring) (u : Z) : write16 to u = to ++ write16 [] u.
Proof. unfold write16, cstring_push_ch. now rewrite <- app_assoc. Qed.

Lemma write_utf16_app (to : cstring) (rune : Z) :
  write_utf16 to rune = to ++ write_utf16 [] rune.
Proof.
  unfold write_utf16. destruct (rune <? 65536).
  - apply write16_app.
  - rewrite (write16_app (write16 to _)), (write16_app to).
    rewrite (write16_app (write16 [] _)). now rewrite <- app_assoc.
Qed.

Lemma write32_app (to : cstring) (u : Z) : write32 to u = to ++ write32 [] u.
Proof.
  unfold write32. cbv zeta.
  rewrite (write16_app (write16 to _)), (write16_app to).
  rewrite (write16_app (write16 [] _)). now rewrite <- app_assoc.
Qed.

Lemma utf8_bytes_length (rune : Z) :
  0 <= rune < 2097152 -> (1 <= length (utf8_bytes rune))%nat.
Proof.
  intros H. destruct (utf8_bytes_values rune H) as (bs & Hb & _ & Hbs).
  rewrite Hb, length_map, Hbs. repeat case_if; cbn [length]; lia.
Qed.

Section Casts.

Variable sg : bool.

Lemma cast_to_utf16_loop_runes (runes : list Z) :
  forall (pre to : list byte) (fuel : nat),
  Forall (fun r => 0 <= r < 2097152) runes ->
  (length runes < fuel)%nat ->
  cast_to_utf16_loop sg fuel (pre ++ flat_map utf8_bytes runes)
    (length pre) to
  = Some (Some (to ++ flat_map (write_utf16 []) runes)).
Proof.
  induction runes as [|r runes IH]; intros pre to fuel Hall Hf.
  - destruct fuel as [|fuel]; [cbn in Hf; lia|].
    cbn [flat_map cast_to_utf16_loop]. unfold cstring_length.
    rewrite !app_nil_r, Nat.ltb_irrefl. reflexivity.
  - destruct fuel as [|fuel]; [cbn in Hf; lia|].
    inversion Hall as [|? ? Hr Hall']; subst.
    pose proof (utf8_bytes_length r Hr) as L.
    cbn [flat_map cast_to_utf16_loop]. unfold cstring_length.
    rewrite !length_app.
    destruct (Nat.ltb_spec (length pre)
                (length pre + (length (utf8_bytes r)
                               + length (flat_map utf8_bytes runes))));
      [|lia].
    rewrite skipn_app, skipn_all, Nat.sub_diag. cbn [skipn app].
    rewrite parse_rune_utf8_bytes by (try assumption; lia).
    rewrite write_utf16_app.
    rewrite (app_assoc pre), <- length_app.
    rewrite IH by (try assumption; cbn [length] in Hf; lia).
    now rewrite <- app_assoc.
Qed.

(** [cstring_cast_to_utf16] converts rune by rune: for the UTF-8
    encodings of any runes below 0x200000, one after the other, it returns
    the code units of the first rune, then those of the second, and so on,
    and it does so within the loop bound of the model. *)
Theorem cast_to_utf16_converts_each_rune (runes : list Z) :
  Forall (fun r => 0 <= r < 2097152) runes ->
  cstring_cast_to_utf16 sg (flat_map utf8_bytes runes)
  = Some (Some (flat_map (write_utf16 []) runes)).
Proof.
  intros Hall. unfold cstring_cast_to_utf16, cstring_new_n_empty.
  apply (cast_to_utf16_loop_runes runes [] []); [assumption|].
  unfold cstring_length.
  enough (length runes <= length (flat_map utf8_bytes runes))%nat by lia.
  induction Hall as [|r runes Hr Hall IH]; [reflexivity|].
  cbn [flat_map length]. rewrite length_app.
  pose proof (utf8_bytes_length r Hr). lia.
Qed.

End Casts.

Lemma write16_le16 (u : Z) : 0 <= u < 65536 -> write16 [] u = le16 u.
Proof.
  intros H. unfold write16, cstring_push_ch, le16. cbv zeta.
  rewrite Z.mod_small by assumption.
  change 255 with (Z.ones 8). rewrite Z.land_ones, Z.shiftr_div_pow2 by lia.
  reflexivity.
Qed.

(** The code units [cstring_cast_to_utf16] writes are those of UTF-16,
    low byte first: a rune below 0x10000 is one unit, the rune itself; a
    rune from 0x10000 up to 0x10FFFF is a high surrogate, 0xD800 plus the
    upper ten bits of the rune less 0x10000, followed by a low surrogate,
    0xDC00 plus the lower ten bits. *)
Theorem utf16_code_units (to : cstring) (rune : Z) :
  0 <= rune < 1114112 ->
  write_utf16 to rune
  = to ++ (if rune <? 65536 then le16 rune
           else le16 (55296 + (rune - 65536) / 1024)
                ++ le16 (56320 + (rune - 65536) mod 1024)).
Proof.
  intros H. rewrite write_utf16_app. f_equal. unfold write_utf16.
  destruct (rune <? 65536) eqn:E; [apply Z.ltb_lt in E|apply Z.ltb_ge in E].
  - apply write16_le16. lia.
  - rewrite write16_app.
    change 1023 with (Z.ones 10).
    rewrite Z.land_ones, Z.shiftr_div_pow2 by lia.
    change (2 ^ 10) with 1024.
    assert (A : rune / 1024 + 55232 = 55296 + (rune - 65536) / 1024)
      by (Z.div_mod_to_equations; lia).
    assert (B : rune mod 1024 + 56320 = 56320 + (rune - 65536) mod 1024)
      by (Z.div_mod_to_equations; lia).
    assert (C : 0 <= (rune - 65536) / 1024 < 1024)
      by (Z.div_mod_to_equations; lia).
    assert (D : 0 <= (rune - 65536) mod 1024 < 1024)
      by (apply Z.mod_pos_bound; lia).
    rewrite A, B. rewrite !write16_le16 by lia. reflexivity.
Qed.

Section Cast32.

Variable sg : bool.

(** The bound [n] matters to [__parse_rune__] only through the test of
    the length against it. *)
Lemma parse_rune_bound (cs : list byte) (n : Z) (rune : Z) (size : nat) :
  parse_rune sg cs n = Some (rune, size) ->
  (1 <= size)%nat /\
  forall n' : Z,
    (Z.of_nat size <= n' -> parse_rune sg cs n' = Some (rune, size)) /\
    (size <> 1%nat -> n' < Z.of_nat size -> parse_rune sg cs n' = None).
Proof.
  unfold parse_rune.
  set (len := count_leading_ones (char_at sg cs 0)).
  destruct (len =? 0) eqn:E0.
  { intros [= <- <-]. split; [lia|]. intros n'. split; [reflexivity|].
    intros N. now elim N. }
  destruct (n <? len) eqn:En; [discriminate|].
  destruct (negb _) eqn:Ec; [discriminate|].
  destruct (len =? 2) eqn:E2.
  { apply Z.eqb_eq in E2. intros [= <- <-]. split; [lia|].
    intros n'. split; intros; destruct (Z.ltb_spec n' len); try lia;
      reflexivity. }
  destruct (len =? 3) eqn:E3.
  { apply Z.eqb_eq in E3. intros [= <- <-]. split; [lia|].
    intros n'. split; intros; destruct (Z.ltb_spec n' len); try lia;
      reflexivity. }
  destruct (len =? 4) eqn:E4; [|discriminate].
  apply Z.eqb_eq in E4. intros [= <- <-]. split; [lia|].
  intros n'. split; intros; destruct (Z.ltb_spec n' len); try lia;
    reflexivity.
Qed.

Lemma cast_to_utf32_loop_run (cs : cstring) (rune : Z) (size m rem : nat) :
  parse_rune sg cs (Z.of_nat (length cs)) = Some (rune, size) ->
  length cs = (m * size + rem)%nat -> (rem < size)%nat ->
  forall (j : nat) (to : cstring) (fuel : nat),
  (j <= m)%nat -> (j < fuel)%nat ->
  cast_to_utf32_loop sg fuel cs ((m - j) * size) to
  = Some (if (rem =? 0)%nat
          then Some (to ++ concat (repeat (write32 [] rune) j))
          else None).
Proof.
  intros Hp HL Hrem.
  destruct (parse_rune_bound cs _ rune size Hp) as [Hs Hn].
  induction j as [|j IH]; intros to fuel Hj Hf.
  - destruct fuel as [|fuel]; [lia|].
    cbn [cast_to_utf32_loop repeat concat]. unfold cstring_length.
    rewrite Nat.sub_0_r, app_nil_r.
    destruct (Nat.eqb_spec rem 0) as [R|R].
    + destruct (Nat.ltb_spec (m * size) (length cs)); [lia|reflexivity].
    + destruct (Nat.ltb_spec (m * size) (length cs)); [|lia].
      rewrite (proj2 (Hn _)); [reflexivity|lia|lia].
  - destruct fuel as [|fuel]; [lia|].
    cbn [cast_to_utf32_loop repeat concat]. unfold cstring_length.
    assert (Em : ((m - S j) * size + size = (m - j) * size)%nat).
    { replace (m - j)%nat with (S (m - S j)) by lia. cbn [Nat.mul]. lia. }
    destruct (Nat.ltb_spec ((m - S j) * size) (length cs)); [|nia].
    rewrite (proj1 (Hn _)) by nia.
    rewrite Em, write32_app, IH by lia.
    destruct (rem =? 0)%nat; [|reflexivity].
    now rewrite <- app_assoc.
Qed.

(** [cstring_cast_to_utf32] decodes the first rune of the string in every
    round, since it passes the start of the string and not the current
    position: when the length of the string is a multiple of the size of
    its first rune, the result is that rune written once per such chunk,
    and otherwise the conversion fails. *)
Theorem cast_to_utf32_repeats_first_rune
  (cs : cstring) (rune : Z) (size : nat) :
  parse_rune sg cs (Z.of_nat (length cs)) = Some (rune, size) ->
  cstring_cast_to_utf32 sg cs
  = Some (if (length cs mod size =? 0)%nat
          then Some (concat (repeat (write32 [] rune) (length cs / size)))
          else None).
Proof.
  intros Hp.
  destruct (parse_rune_bound cs _ rune size Hp) as [Hs _].
  unfold cstring_cast_to_utf32, cstring_new_n_empty, cstring_length.
  pose proof (Nat.div_mod_eq (length cs) size) as D.
  pose proof (Nat.mod_upper_bound (length cs) size ltac:(lia)) as B.
  assert (Q : (length cs / size <= length cs)%nat)
    by (apply Nat.Div0.div_le_upper_bound; nia).
  pose proof (cast_to_utf32_loop_run cs rune size (length cs / size)
                (length cs mod size) Hp ltac:(lia) B (length cs / size) []
                (S (length cs)) ltac:(lia) ltac:(lia)) as R.
  rewrite Nat.sub_diag in R. exact R.
Qed.

End Cast32.

Lemma utf8_decoding_inverts_encoding_witness :
  cstring_append_utf8 [x41] 8364 = Some [x41; xe2; x82; xac] /\
  parse_rune true [xe2; x82; xac; x42] 4 = Some (8364, 3%nat).
Proof.
  destruct (utf8_decoding_inverts_encoding true 8364 [x41] [x42] 4)
    as (A & _ & B).
  - lia.
  - vm_compute. discriminate.
  - split; [exact A|exact B].
Defined.

Lemma utf8_rune_size_of_lead_byte_witness : utf8_rune_size (-30) = 3.
Proof.
  exact (utf8_rune_size_of_lead_byte 8364 (-30) ltac:(lia) eq_refl).
Defined.

Lemma cast_to_utf16_converts_each_rune_witness :
  cstring_cast_to_utf16 false [x61; xe2; x82; xac; xf0; x9f; x98; x80]
  = Some (Some [x61; x00; xac; x20; x3d; xd8; x00; xde]).
Proof.
  assert (H : Forall (fun r => 0 <= r < 2097152) [97; 8364; 128512])
    by (repeat constructor; lia).
  exact (cast_to_utf16_converts_each_rune false [97; 8364; 128512] H).
Defined.

Lemma utf16_code_units_witness :
  write_utf16 [] 128512 = [x3d; xd8; x00; xde].
Proof. exact (utf16_code_units [] 128512 ltac:(lia)). Defined.

Lemma cast_to_utf32_repeats_first_rune_witness :
  cstring_cast_to_utf32 true [x61; x62]
  = Some (Some [x61; x00; x00; x00; x61; x00; x00; x00]).
Proof.
  exact (cast_to_utf32_repeats_first_rune true [x61; x62] 97 1 eq_refl).
Defined.

(** ** The token dictionary *)

(** [token_type2str] names a token exactly when its kind is one of the
    table: every entry of the table is found under its own kind, no entry
    is hidden by an earlier one, and the kinds without a name are the
    unknown token, the end token, identifiers, numbers and the character
    and string constants. *)
Theorem token_type2str_names_the_table (tok : token_s) :
  (forall e : token_dictionary_s,
     In e token_dictionary -> type tok = entry_type e ->
     token_type2str tok = Some (type2str e)) /\
  (token_type2str tok = None <->
   In (type tok)
      [TOKEN_UNKNOWN; TOKEN_END; TOKEN_IDENTIFIER; TOKEN_NUMBER;
       TOKEN_CONSTANT_CHAR; TOKEN_CONSTANT_WCHAR; TOKEN_CONSTANT_CHAR16;
       TOKEN_CONSTANT_CHAR32; TOKEN_CONSTANT_UTF8CHAR;
       TOKEN_CONSTANT_STRING; TOKEN_CONSTANT_WSTRING;
       TOKEN_CONSTANT_STRING16; TOKEN_CONSTANT_STRING32;
       TOKEN_CONSTANT_UTF8STRING]).
Proof.
  unfold token_type2str. split.
  - intros e H Ht. rewrite Ht. clear Ht.
    unfold token_dictionary in H. cbn [In] in H.
    repeat (destruct H as [<-|H]; [reflexivity|]). contradiction.
  - destruct (type tok); cbn; split; intros H;
      first [discriminate H | reflexivity | tauto
            | repeat (destruct H as [H|H]; [discriminate H|]); contradiction].
Qed.

Lemma token_type2str_names_the_table_witness :
  token_type2str (sample_token TOKEN_ARROW) = Some "TOKEN_ARROW"%string /\
  token_type2str (sample_token TOKEN_NUMBER) = None.
Proof.
  split.
  - apply (proj1 (token_type2str_names_the_table
                    (sample_token TOKEN_ARROW))
             (mkEntry TOKEN_ARROW "TOKEN_ARROW" "->")).
    + cbn. tauto.
    + reflexivity.
  - reflexivity.
Defined.

(** The scanner and the table agree on the punctuators: the spelling of
    every entry, taken as the whole input, is scanned as one token of the
    kind of the entry, followed by the newline the reader adds and the end
    token, without diagnostic, when the space count of the token, which
    [token_create] does not write, starts at 0; when it starts at anything
    else the three scans return [TOKEN_SPACE].  The flag [token_create]
    does not write has no part in it.  Left out are the two parentheses
    and the two exclamation entries, whose kinds are exchanged, the lone
    backslash, and the three entries whose third column is a
    description. *)
Theorem dictionary_spelling_scans_as_one_token
  (e : token_dictionary_s) (bol : bool) (spaces n : nat) :
  In e token_dictionary ->
  ~ In (entry_type e)
       [TOKEN_L_PAREN; TOKEN_R_PAREN; TOKEN_EXCLAIM; TOKEN_EXCLAIMEQUAL;
        TOKEN_BACKSLASH; TOKEN_NEW_LINE; TOKEN_SPACE; TOKEN_COMMENT] ->
  scanned ctype no_options 3 (S n) (lexer_on bol spaces (original e))
  = Some (if (spaces =? 0)%nat
          then [Some (entry_type e, []); Some (TOKEN_NEW_LINE, []);
                Some (TOKEN_END, [])]
          else repeat (Some (TOKEN_SPACE, [])) 3) /\
  emitted (lexer_scans ctype no_options 3 (S n)
             (lexer_on bol spaces (original e)))
  = Some [].
Proof.
  intros H N. unfold token_dictionary in H. cbn [In] in H.
  destruct spaces as [|spaces];
    repeat (destruct H as [<-|H];
            [first [exfalso; apply N; cbn; tauto
                   | split; vm_compute; reflexivity]|]);
    contradiction.
Qed.

Lemma dictionary_spelling_scans_as_one_token_witness :
  scanned ctype no_options 3 1 (lexer_on true 0 ">>=")
  = Some [Some (TOKEN_GREATERGREATEREQUAL, []); Some (TOKEN_NEW_LINE, []);
          Some (TOKEN_END, [])] /\
  scanned ctype no_options 3 1 (lexer_on false 7 ">>=")
  = Some [Some (TOKEN_SPACE, []); Some (TOKEN_SPACE, []);
          Some (TOKEN_SPACE, [])].
Proof.
  assert (H : In (mkEntry TOKEN_GREATERGREATEREQUAL
                          "TOKEN_GREATERGREATEREQUAL" ">>=")
                 token_dictionary) by (cbn; tauto).
  assert (N : ~ In TOKEN_GREATERGREATEREQUAL
                [TOKEN_L_PAREN; TOKEN_R_PAREN; TOKEN_EXCLAIM;
                 TOKEN_EXCLAIMEQUAL; TOKEN_BACKSLASH; TOKEN_NEW_LINE;
                 TOKEN_SPACE; TOKEN_COMMENT]).
  { cbn. intros K.
    repeat (destruct K as [K|K]; [discriminate K|]). contradiction. }
  split.
  - exact (proj1 (dictionary_spelling_scans_as_one_token _ true 0 0 H N)).
  - exact (proj1 (dictionary_spelling_scans_as_one_token _ false 7 0 H N)).
Defined.

(** ** The header of a string *)

Lemma firstn_succ_nth (buf : list byte) (i : nat) :
  (i < length buf)%nat ->
  firstn (S i) buf = firstn i buf ++ [nth i buf x00].
Proof.
  revert i. induction buf as [|b buf IH]; intros i H; [cbn in H; lia|].
  destruct i as [|i]; [reflexivity|].
  cbn [firstn nth app]. f_equal. apply IH. cbn in H. lia.
Qed.

Lemma buffer_set_spec (buf : list byte) (i : nat) (b : byte) :
  (i < length buf)%nat ->
  length (buffer_set buf i b) = length buf /\
  nth i (buffer_set buf i b) x00 = b /\
  firstn i (buffer_set buf i b) = firstn i buf.
Proof.
  intros H. unfold buffer_set.
  destruct (Nat.ltb_spec i (length buf)); [|lia].
  assert (L : length (firstn i buf) = i) by (rewrite length_firstn; lia).
  repeat split.
  - rewrite length_app. cbn [length]. rewrite L, length_skipn. lia.
  - rewrite app_nth2 by lia. rewrite L, Nat.sub_diag. reflexivity.
  - rewrite firstn_app, L, Nat.sub_diag. cbn [firstn].
    rewrite app_nil_r. rewrite firstn_firstn. f_equal. lia.
Qed.

Lemma to_size_small (z : Z) :
  0 <= z < 18446744073709551616 -> to_size z = z.
Proof. apply Z.mod_small. Qed.

(** [cstring_pop_ch] on the header is the removal of the last byte of the
    string: it returns that byte, or end-of-input for the empty string,
    keeps the header well formed, with the zero byte moved down, and keeps
    the size [cstring_sizeof] reports. *)
Theorem header_pop_ch_removes_last_byte
  (sizeof_header : Z) (hdr : cstring_header_s) :
  hdr_wf hdr ->
  let ch := fst (hdr_pop_ch hdr) in
  let hdr' := snd (hdr_pop_ch hdr) in
  hdr_wf hdr' /\
  (ch, hdr_string hdr') = cstring_pop_ch (hdr_string hdr) /\
  hdr_sizeof sizeof_header hdr' = hdr_sizeof sizeof_header hdr.
Proof.
  intros (H0 & H1 & H2 & H3 & H4). cbv zeta.
  unfold hdr_pop_ch, cstring_pop_ch, cstring_length, hdr_string.
  assert (L : length (firstn (Z.to_nat (hdr_length hdr)) (hdr_buffer hdr))
              = Z.to_nat (hdr_length hdr))
    by (rewrite length_firstn; lia).
  rewrite L.
  destruct (Z.ltb_spec 0 (hdr_length hdr)) as [P|P].
  - destruct (Nat.ltb_spec 0 (Z.to_nat (hdr_length hdr))); [|lia].
    cbn [fst snd hdr_length hdr_unused hdr_buffer].
    set (i := Z.to_nat (hdr_length hdr - 1)).
    assert (Hi : (i < length (hdr_buffer hdr))%nat) by lia.
    destruct (buffer_set_spec (hdr_buffer hdr) i x00 Hi) as (B1 & B2 & B3).
    rewrite !to_size_small by lia.
    replace (Z.to_nat (hdr_length hdr)) with (S i) by lia.
    rewrite firstn_succ_nth by assumption.
    rewrite last_last, removelast_last.
    split; [|split].
    + unfold hdr_wf. cbn [hdr_length hdr_unused hdr_buffer].
      rewrite B1. fold i. rewrite B2. repeat split; lia.
    + fold i. now rewrite B3.
    + unfold hdr_sizeof. cbn [hdr_length hdr_unused]. unfold to_size.
      rewrite !Zplus_mod_idemp_l. f_equal. lia.
  - destruct (Nat.ltb_spec 0 (Z.to_nat (hdr_length hdr))); [lia|].
    cbn [fst snd]. repeat split; auto.
Qed.

(** [cstring_clear] on the header empties the string: the header stays
    well formed, with the zero byte first, and the size [cstring_sizeof]
    reports is kept. *)
Theorem header_clear_empties
  (sizeof_header : Z) (hdr : cstring_header_s) :
  hdr_wf hdr ->
  hdr_wf (hdr_clear hdr) /\
  hdr_string (hdr_clear hdr) = cstring_clear (hdr_string hdr) /\
  hdr_sizeof sizeof_header (hdr_clear hdr) = hdr_sizeof sizeof_header hdr.
Proof.
  intros (H0 & H1 & H2 & H3 & H4).
  assert (Hi : (0 < length (hdr_buffer hdr))%nat) by lia.
  destruct (buffer_set_spec (hdr_buffer hdr) 0 x00 Hi) as (B1 & B2 & B3).
  unfold hdr_clear, hdr_string, cstring_clear.
  cbn [hdr_length hdr_unused hdr_buffer].
  rewrite to_size_small by lia.
  split; [|split].
  - unfold hdr_wf. cbn [hdr_length hdr_unused hdr_buffer].
    rewrite B1. change (Z.to_nat 0) with 0%nat. rewrite B2.
    repeat split; lia.
  - reflexivity.
  - unfold hdr_sizeof. cbn [hdr_length hdr_unused]. unfold to_size.
    rewrite !Zplus_mod_idemp_l. f_equal. lia.
Qed.

Lemma strlen_spec (buf : list byte) :
  (strlen buf <= length buf)%nat /\
  Forall (fun b => Z_of_byte b <> 0) (firstn (strlen buf) buf) /\
  ((strlen buf < length buf)%nat -> nth (strlen buf) buf x00 = x00) /\
  forall i : nat, nth i buf x00 = x00 -> (strlen buf <= i)%nat.
Proof.
  induction buf as [|b buf (I1 & I2 & I3 & I4)].
  - cbn. split; [lia|]. split; [constructor|]. split; intros; lia.
  - cbn [strlen]. destruct (Z.eqb_spec (Z_of_byte b) 0) as [E|E].
    + cbn [firstn length nth]. split; [lia|]. split; [constructor|].
      split.
      * intros _. rewrite <- (byte_of_Z_of_byte b), E. reflexivity.
      * intros i _. lia.
    + cbn [firstn length nth]. split; [lia|].
      split; [constructor; assumption|]. split.
      * intros H. apply I3. lia.
      * intros [|i] Hi; [subst b; now elim E|].
        apply I4 in Hi. lia.
Qed.

(** [cstring_update_length] cuts the string at its first zero byte: the
    new string is the bytes before it, and has none; the header stays well
    formed and the size [cstring_sizeof] reports is kept. *)
Theorem header_update_length_cuts_at_zero
  (sizeof_header : Z) (hdr : cstring_header_s) :
  hdr_wf hdr ->
  let hdr' := hdr_update_length hdr in
  hdr_wf hdr' /\
  hdr_string hdr' = firstn (strlen (hdr_string hdr)) (hdr_string hdr) /\
  Forall (fun b => Z_of_byte b <> 0) (hdr_string hdr') /\
  hdr_sizeof sizeof_header hdr' = hdr_sizeof sizeof_header hdr.
Proof.
  intros (H0 & H1 & H2 & H3 & H4). cbv zeta.
  destruct (strlen_spec (hdr_buffer hdr)) as (S1 & S2 & S3 & S4).
  pose proof (S4 _ H3) as Le.
  unfold hdr_update_length, hdr_string.
  cbn [hdr_length hdr_unused hdr_buffer].
  rewrite Nat2Z.id.
  rewrite !to_size_small by (rewrite ?to_size_small; lia).
  assert (E : strlen (firstn (Z.to_nat (hdr_length hdr)) (hdr_buffer hdr))
              = strlen (hdr_buffer hdr)).
  { clear - Le. revert Le. generalize (Z.to_nat (hdr_length hdr)) as k.
    induction (hdr_buffer hdr) as [|b buf IH]; intros k Le.
    - now rewrite firstn_nil.
    - cbn [strlen] in *. destruct (Z_of_byte b =? 0) eqn:Eb.
      + destruct k; cbn [firstn strlen]; [reflexivity|now rewrite Eb].
      + destruct k as [|k]; [lia|]. cbn [firstn strlen]. rewrite Eb.
        f_equal. apply IH. lia. }
  rewrite E, firstn_firstn, Nat.min_l by lia.
  split; [|split; [|split]].
  - unfold hdr_wf. cbn [hdr_length hdr_unused hdr_buffer].
    rewrite Nat2Z.id. repeat split; try lia. apply S3. lia.
  - reflexivity.
  - exact S2.
  - unfold hdr_sizeof. cbn [hdr_length hdr_unused]. unfold to_size.
    rewrite !Zplus_mod_idemp_l. f_equal. lia.
Qed.

Lemma header_pop_ch_removes_last_byte_witness :
  let hdr := mkHeader 2 1 [x61; x62; x00; x00] in
  hdr_wf hdr /\ hdr_wf (snd (hdr_pop_ch hdr)) /\
  hdr_string (snd (hdr_pop_ch hdr)) = [x61].
Proof.
  cbv zeta.
  assert (W : hdr_wf (mkHeader 2 1 [x61; x62; x00; x00])).
  { unfold hdr_wf. cbn. repeat split; lia. }
  split; [exact W|].
  split; [|reflexivity].
  exact (proj1 (header_pop_ch_removes_last_byte 24 _ W)).
Defined.

Lemma header_clear_empties_witness :
  let hdr := mkHeader 2 1 [x61; x62; x00; x00] in
  hdr_wf hdr /\ hdr_wf (hdr_clear hdr) /\ hdr_string (hdr_clear hdr) = [].
Proof.
  cbv zeta.
  assert (W : hdr_wf (mkHeader 2 1 [x61; x62; x00; x00])).
  { unfold hdr_wf. cbn. repeat split; lia. }
  split; [exact W|].
  split; [|reflexivity].
  exact (proj1 (header_clear_empties 24 _ W)).
Defined.

Lemma header_update_length_cuts_at_zero_witness :
  let hdr := mkHeader 3 1 [x61; x00; x62; x00; x00] in
  hdr_wf hdr /\ hdr_wf (hdr_update_length hdr) /\
  hdr_string (hdr_update_length hdr) = [x61].
Proof.
  cbv zeta.
  assert (W : hdr_wf (mkHeader 3 1 [x61; x00; x62; x00; x00])).
  { unfold hdr_wf. cbn. repeat split; lia. }
  split; [exact W|].
  split; [|reflexivity].
  exact (proj1 (header_update_length_cuts_at_zero 24 _ W)).
Defined.

(** ** Universal character names *)

Section Universal.

Variable U : utils.
Variable opt : option_s.

Lemma parse_unc_loop_run (k : nat) :
  forall (u : Z) (l : lexer_s) (chs : list Z) (r' : reader_s)
         (w : list diagnostic),
  reader_gets U opt k (reader l) = (chs, r', w) ->
  exists l' : lexer_s,
    parse_unc_loop U opt k u l
    = Ok (fold_left (fun u ch => to_uint32 (Z.shiftl u 4 + TODIGIT U ch))
                    chs u) l' /\
    reader l' = r' /\ tok l' = tok l /\
    length (diag l')
    = (length (diag l) + length w
       + length (filter (fun ch => negb (ISHEX U ch)) chs))%nat /\
    (forallb (ISHEX U) chs = true -> diag l' = diag l ++ w).
Proof.
  induction k as [|k IH]; intros u l chs r' w Hg.
  - cbn [reader_gets] in Hg. inversion Hg; subst.
    exists l. cbn [parse_unc_loop fold_left filter length forallb].
    unfold ret. rewrite app_nil_r.
    repeat split; auto; lia.
  - cbn [reader_gets] in Hg.
    destruct (reader_get U opt (reader l)) as [[ch r1] w1] eqn:G.
    destruct (reader_gets U opt k r1) as [[chs2 r2] w2] eqn:Gk.
    inversion Hg; subst. clear Hg.
    cbn [parse_unc_loop]. unfold bind at 1. unfold rd_get. rewrite G.
    unfold bind at 1.
    destruct (ISHEX U ch) eqn:Eh; cbn [negb].
    + unfold ret at 1.
      destruct (IH (to_uint32 (Z.shiftl u 4 + TODIGIT U ch))
                  (emit (set_reader l r1) w1) chs2 r' w2 Gk)
        as (l' & Hrun & Hr & Ht & Hlen & Hd).
      exists l'. rewrite Hrun.
      cbn [fold_left filter forallb andb negb]. rewrite Eh. cbn [negb andb].
      cbn [diag emit set_reader tok] in *.
      rewrite length_app in *.
      repeat split; auto; try lia.
      intros Hall. rewrite (Hd Hall). now rewrite <- app_assoc.
    + unfold ERRORF, diag_with_tok.
      destruct (IH (to_uint32 (Z.shiftl u 4 + TODIGIT U ch))
                  (emit (emit (set_reader l r1) w1)
                     [mkDiag Error "invalid universal character" []
                        (loc_line (loc (tok (emit (set_reader l r1) w1))))
                        (loc_column
                           (loc (tok (emit (set_reader l r1) w1))))])
                  chs2 r' w2 Gk)
        as (l' & Hrun & Hr & Ht & Hlen & _).
      exists l'. rewrite Hrun.
      cbn [fold_left filter forallb andb negb]. rewrite Eh. cbn [negb andb].
      cbn [diag emit set_reader tok length] in *.
      rewrite !length_app in *. cbn [length] in *.
      repeat split; auto; try lia; discriminate.
Qed.

(** [__lexer_parse_unc__] reads as many characters as the name has
    digits, whatever they are: no character stops it, be it the closing
    quote or the end of input.  Each character that is no hexadecimal digit
    costs one diagnostic, and still enters the value with what [TODIGIT]
    makes of it. *)
Theorem universal_character_name_reads_all_its_digits
  (len : nat) (l : lexer_s) (chs : list Z) (r' : reader_s)
  (w : list diagnostic) :
  len = 4%nat \/ len = 8%nat ->
  reader_is_empty (reader l) = false ->
  reader_gets U opt len (reader l) = (chs, r', w) ->
  exists l' : lexer_s,
    lexer_parse_unc U opt len l = Ok (to_int32 (unc_value U chs)) l' /\
    reader l' = r' /\ literals (tok l') = literals (tok l) /\
    length (diag l')
    = (length (diag l) + length w
       + length (filter (fun ch => negb (ISHEX U ch)) chs))%nat /\
    (forallb (ISHEX U) chs = true -> diag l' = diag l ++ w).
Proof.
  intros Hlen He Hg. unfold lexer_parse_unc.
  assert (C : (len =? 4)%nat || (len =? 8)%nat = true)
    by (destruct Hlen as [-> | ->]; reflexivity).
  rewrite C. unfold bind at 1. unfold lexer_remark_loc.
  unfold reader_is_empty in He.
  unfold reader_line, reader_column, reader_linenote.
  destruct (streams (reader l)) as [|s rest] eqn:Hs; [discriminate|].
  cbn [hd_error option_map].
  set (l1 := set_tok l _).
  destruct (parse_unc_loop_run len 0 l1 chs r' w Hg)
    as (l' & Hrun & Hr & Ht & Hl & Hd).
  unfold bind. rewrite Hrun. unfold ret.
  exists l'. repeat split; auto.
  rewrite Ht. reflexivity.
Qed.

End Universal.

Lemma universal_character_name_reads_all_its_digits_witness :
  exists l' : lexer_s,
    lexer_parse_unc ctype no_options 4 (lexer_of "00e9'") = Ok 233 l' /\
    fst (fst (reader_get ctype no_options (reader l'))) = QUOTE /\
    diag l' = [].
Proof.
  pose (l := lexer_of "00e9'").
  let v := eval vm_compute in (reader_gets ctype no_options 4 (reader l)) in
  match v with (?c, ?r, _) => pose (chs := c); pose (r' := r) end.
  destruct (universal_character_name_reads_all_its_digits ctype no_options
              4 l chs r' []) as (l' & H1 & H2 & _ & _ & H5).
  - left. reflexivity.
  - reflexivity.
  - vm_compute. reflexivity.
  - exists l'. split; [exact H1|]. split; [rewrite H2; reflexivity|].
    apply H5. reflexivity.
Defined.
